(** * dev-tools: the IP / DNS analysis service and its batch endpoint

    A shallow embedding of [internal/services/ip_service.go] (the service) and
    of the [BatchAnalyzeIPs] handler of package [routes], followed by the
    properties of the bounded concurrent aggregator.

    Conventions of the embedding:
    - a Go pair [(v, err)] is a [Result]: [Ok v] when [err == nil], [Err e]
      otherwise; a nillable pointer field is an [option];
    - [float64] is an exact rational (rounding is not modelled), [time.Time]
      and [time.Duration] are integers (nanoseconds);
    - goroutines and channels are a transition system: one action of the
      scheduler moves the main flow or one goroutine by one communication;
    - everything outside the repository (packages [net] and [strings], the
      clock, the ipinfo.io HTTP API) is a parameter: the pure library
      functions ([net.ParseIP] and the methods of [net.IP],
      [strings.ToUpper]) are the class [NetLib], the answers of the outside
      world at the time of one call are a [World]. *)

From Stdlib Require Import ZArith QArith Lia.
From stdpp Require Import base decidable option list relations strings pretty.

Local Open Scope string_scope.

(** ** Results, errors, contexts *)

Definition error := string.

Inductive Result (A : Type) : Type :=
| Ok (a : A)
| Err (e : error).
Arguments Ok {A} a.
Arguments Err {A} e.

Definition is_Ok {A} (r : Result A) : bool :=
  match r with Ok _ => true | Err _ => false end.

(** [if v, err := f(); err == nil { field = v }] on a nillable field. *)
Definition ok_or_nil {A} (r : Result A) : option A :=
  match r with Ok a => Some a | Err _ => None end.

Definition float64 := Q.
Definition Time := Z.

(** [context.Context]: the background context and what callers derive from
    it. *)
Inductive Context : Type :=
| Background
| WithTimeout (parent : Context) (nanos : Z)
| WithCancel (parent : Context) (id : nat).

#[global] Instance Context_eq_dec : EqDecision Context.
Proof. solve_decision. Defined.

(** ** Data model (the structs of ip_service.go) *)

Record GeoInfo := {
  geo_Country : string;
  geo_CountryCode : string;
  geo_Region : string;
  geo_RegionCode : string;
  geo_City : string;
  geo_Postal : string;
  geo_Latitude : float64;
  geo_Longitude : float64;
  geo_Timezone : string;
}.

Record ISPInfo := {
  isp_Provider : string;
  isp_Organization : string;
  isp_ASN : string;
  isp_ASNName : string;
  isp_Domain : string;
}.

Record SecInfo := {
  sec_IsProxy : bool;
  sec_IsVPN : bool;
  sec_IsTor : bool;
  sec_IsThreat : bool;
  sec_RiskScore : Z;
  sec_Reputation : string;
}.

Record DNSInfo := {
  dns_Hostname : string;
  dns_PTR : list string;
}.

Record IPInfo := {
  ip_IP : string;
  ip_Version : string;
  ip_Type : string;
  ip_Geolocation : option GeoInfo;
  ip_ISP : option ISPInfo;
  ip_Security : option SecInfo;
  ip_DNS : option DNSInfo;
  ip_Timestamp : Time;
}.

Record DNSRecord := {
  rr_Name : string;
  rr_Type : string;
  rr_Value : string;
  rr_TTL : Z;
}.

Record DNSLookupResult := {
  lr_Domain : string;
  lr_Records : list DNSRecord;
  lr_Timestamp : Time;
  lr_QueryTime : Z;
}.

Record BulkOptions := {
  IncludeGeolocation : bool;
  IncludeSecurity : bool;
  IncludeDNS : bool;
  IncludePerformance : bool;
}.

Record BulkAnalysisRequest := {
  IPs : list string;
  Options : BulkOptions;
}.

Record BulkSummary := {
  Total : Z;
  Successful : Z;
  Failed : Z;
  Duration : float64;
}.

Record BulkAnalysisResult := {
  Results : list IPInfo;
  Summary : BulkSummary;
  Timestamp : Time;
}.

(** ** Packages net and strings, and the outside world *)

(** Upper-casing of ASCII text: the bytes 'a'..'z' are moved to 'A'..'Z',
    every other byte is kept. *)
Definition upper_ascii (c : Ascii.ascii) : Ascii.ascii :=
  let n := Ascii.N_of_ascii c in
  if ((97 <=? n) && (n <=? 122))%N then Ascii.ascii_of_N (n - 32) else c.

Fixpoint upper_bytes (s : string) : string :=
  match s with
  | EmptyString => EmptyString
  | String c r => String (upper_ascii c) (upper_bytes r)
  end.

(** No byte of [s] is [utf8.RuneSelf] (128) or more. *)
Fixpoint ascii_only (s : string) : bool :=
  match s with
  | EmptyString => true
  | String c r => (Ascii.N_of_ascii c <? 128)%N && ascii_only r
  end.

(** The pure library functions the service calls. Of package [net]: parsing
    and classifying addresses. Of package [strings]: [ToUpper], which maps
    every rune to its Unicode upper case; all that is known of it here is
    its ASCII fast path, the loop over the bytes it runs when no byte of the
    string is 128 or more. *)
Class NetLib := {
  net_IP : Type;
  ParseIP : string → option net_IP;
  To4 : net_IP → option net_IP;
  IsPrivate : net_IP → bool;
  IsLoopback : net_IP → bool;
  IsMulticast : net_IP → bool;
  IsLinkLocalUnicast : net_IP → bool;
  IP_String : net_IP → string;
  ToUpper : string → string;
  ToUpper_ascii : ∀ s, ascii_only s = true → ToUpper s = upper_bytes s;
}.

(** [*net.MX] and [*net.NS]. *)
Record MX := { mx_Host : string; mx_Pref : N }.
Record NS := { ns_Host : string }.

(** What the outside world answers during one call of the service: the
    clock, the two ipinfo.io requests of [getGeolocation] and [getISPInfo]
    (their bodies are an HTTP exchange and a JSON decoding; [AnalyzeIP] only
    looks at whether they failed), and the resolver. *)
Record World `{NetLib} := {
  time_Now : Time;
  time_Since : Time → Z;
  getGeolocation : Context → string → Result GeoInfo;
  getISPInfo : Context → string → Result ISPInfo;
  LookupAddr : string → Result (list string);
  LookupIP : string → Result (list net_IP);
  LookupMX : string → Result (list MX);
  LookupNS : string → Result (list NS);
  LookupTXT : string → Result (list string);
  LookupCNAME : string → Result string;
}.

Section Service.
Context `{NL : NetLib}.

(** ** Single-item analysis *)

Definition getIPVersion (ip : net_IP) : string :=
  match To4 ip with Some _ => "IPv4" | None => "IPv6" end.

Definition getIPType (ip : net_IP) : string :=
  if IsPrivate ip then "private"
  else if IsLoopback ip then "loopback"
  else if IsMulticast ip then "multicast"
  else if IsLinkLocalUnicast ip then "link-local"
  else "public".

(** The context is accepted and not used: [net.LookupAddr] takes none. *)
Definition getDNSInfo (w : World) (ctx : Context) (ip : string) : Result DNSInfo :=
  match LookupAddr w ip with
  | Err e => Err e
  | Ok names =>
      Ok {| dns_PTR := names;
            dns_Hostname := match names with n :: _ => n | [] => "" end |}
  end.

Definition getSecurityInfo (ip : net_IP) : SecInfo :=
  let security :=
    {| sec_IsProxy := false; sec_IsVPN := false; sec_IsTor := false;
       sec_IsThreat := false; sec_RiskScore := 0; sec_Reputation := "neutral" |} in
  if IsPrivate ip
  then {| sec_IsProxy := sec_IsProxy security; sec_IsVPN := sec_IsVPN security;
          sec_IsTor := sec_IsTor security; sec_IsThreat := sec_IsThreat security;
          sec_RiskScore := 10; sec_Reputation := "good" |}
  else security.

Definition AnalyzeIP (w : World) (ctx : Context) (ipStr : string) : Result IPInfo :=
  match ParseIP ipStr with
  | None => Err ("invalid IP address: " +:+ ipStr)
  | Some ip =>
      Ok {| ip_IP := ipStr;
            ip_Version := getIPVersion ip;
            ip_Type := getIPType ip;
            ip_Timestamp := time_Now w;
            ip_Geolocation := ok_or_nil (getGeolocation w ctx ipStr);
            ip_ISP := ok_or_nil (getISPInfo w ctx ipStr);
            ip_DNS := ok_or_nil (getDNSInfo w ctx ipStr);
            ip_Security := Some (getSecurityInfo ip) |}
  end.

(** No network: every request and every lookup fails. *)
Definition offline (now : Time) : World :=
  {| time_Now := now;
     time_Since := λ t, (now + 1000000 - t)%Z;
     getGeolocation := λ _ _, Err "dial tcp: network is unreachable";
     getISPInfo := λ _ _, Err "dial tcp: network is unreachable";
     LookupAddr := λ _, Err "no such host";
     LookupIP := λ _, Err "no such host";
     LookupMX := λ _, Err "no such host";
     LookupNS := λ _, Err "no such host";
     LookupTXT := λ _, Err "no such host";
     LookupCNAME := λ _, Err "no such host" |}.

(** ** DNS lookups *)

(** [for _, ip := range ips { if ip.To4() != nil { append } }] *)
Definition lookupA (w : World) (domain : string) : Result (list DNSRecord) :=
  match LookupIP w domain with
  | Err e => Err e
  | Ok ips =>
      Ok (omap (λ ip,
            match To4 ip with
            | Some _ => Some {| rr_Name := domain; rr_Type := "A";
                                rr_Value := IP_String ip; rr_TTL := 300 |}
            | None => None
            end) ips)
  end.

Definition lookupAAAA (w : World) (domain : string) : Result (list DNSRecord) :=
  match LookupIP w domain with
  | Err e => Err e
  | Ok ips =>
      Ok (omap (λ ip,
            match To4 ip with
            | Some _ => None
            | None => Some {| rr_Name := domain; rr_Type := "AAAA";
                              rr_Value := IP_String ip; rr_TTL := 300 |}
            end) ips)
  end.

Definition lookupMX (w : World) (domain : string) : Result (list DNSRecord) :=
  match LookupMX w domain with
  | Err e => Err e
  | Ok mxRecords =>
      Ok (map (λ mx, {| rr_Name := domain; rr_Type := "MX";
                        rr_Value := pretty (mx_Pref mx) +:+ " " +:+ mx_Host mx;
                        rr_TTL := 300 |}) mxRecords)
  end.

Definition lookupNS (w : World) (domain : string) : Result (list DNSRecord) :=
  match LookupNS w domain with
  | Err e => Err e
  | Ok nsRecords =>
      Ok (map (λ ns, {| rr_Name := domain; rr_Type := "NS";
                        rr_Value := ns_Host ns; rr_TTL := 300 |}) nsRecords)
  end.

Definition lookupTXT (w : World) (domain : string) : Result (list DNSRecord) :=
  match LookupTXT w domain with
  | Err e => Err e
  | Ok txtRecords =>
      Ok (map (λ txt, {| rr_Name := domain; rr_Type := "TXT";
                         rr_Value := txt; rr_TTL := 300 |}) txtRecords)
  end.

Definition lookupCNAME (w : World) (domain : string) : Result (list DNSRecord) :=
  match LookupCNAME w domain with
  | Err e => Err e
  | Ok cname =>
      Ok [ {| rr_Name := domain; rr_Type := "CNAME"; rr_Value := cname; rr_TTL := 300 |} ]
  end.

Definition lookupPTR (w : World) (domain : string) : Result (list DNSRecord) :=
  match LookupAddr w domain with
  | Err e => Err e
  | Ok names =>
      Ok (map (λ name, {| rr_Name := domain; rr_Type := "PTR";
                          rr_Value := name; rr_TTL := 300 |}) names)
  end.

(** [LookupDNS] up to the end of its [switch]: it has failed, or it has the
    answer of one helper, or it has to run [lookupAll], which starts
    goroutines. *)
Inductive lookup_plan : Type :=
| PlanFail (e : error)
| PlanDirect (r : Result (list DNSRecord))
| PlanAll.

Definition LookupDNS_switch (w : World) (ctx : Context) (domain recordType : string)
  : lookup_plan :=
  if String.eqb domain "" then PlanFail "domain cannot be empty"
  else
    let t := ToUpper recordType in
    if String.eqb t "A" then PlanDirect (lookupA w domain)
    else if String.eqb t "AAAA" then PlanDirect (lookupAAAA w domain)
    else if String.eqb t "MX" then PlanDirect (lookupMX w domain)
    else if String.eqb t "NS" then PlanDirect (lookupNS w domain)
    else if String.eqb t "TXT" then PlanDirect (lookupTXT w domain)
    else if String.eqb t "CNAME" then PlanDirect (lookupCNAME w domain)
    else if String.eqb t "PTR" then PlanDirect (lookupPTR w domain)
    else if String.eqb t "ALL" then PlanAll
    else PlanFail ("unsupported record type: " +:+ recordType).

(** [LookupDNS] after its [switch], from the [(records, err)] it got;
    [start] is the clock read on entry, the query time is in milliseconds. *)
Definition LookupDNS_finish (w : World) (domain : string)
    (r : Result (list DNSRecord)) : Result DNSLookupResult :=
  match r with
  | Err e => Err ("DNS lookup failed: " +:+ e)
  | Ok records =>
      Ok {| lr_Domain := domain;
            lr_Records := records;
            lr_Timestamp := time_Now w;
            lr_QueryTime := time_Since w (time_Now w) / 1000000 |}
  end.

(** A call of [LookupDNS] that needs no goroutine; [None] when the record
    type is ALL. *)
Definition LookupDNS_direct (w : World) (ctx : Context) (domain recordType : string)
  : option (Result DNSLookupResult) :=
  match LookupDNS_switch w ctx domain recordType with
  | PlanFail e => Some (Err e)
  | PlanDirect r => Some (LookupDNS_finish w domain r)
  | PlanAll => None
  end.

(** ** Calls made from inside the service

    The aggregators call methods of the service from their goroutines. Such
    a call is its answer together with the entry it leaves in the history of
    calls: the arguments it was handed. *)

Definition call_AnalyzeIP (w : World) (c : Context) (ipStr : string)
  : Result IPInfo * (Context * string) :=
  (AnalyzeIP w c ipStr, (c, ipStr)).

Definition call_LookupDNS (w : World) (c : Context) (domain recordType : string)
  : option (Result DNSLookupResult) * (Context * string * string) :=
  (LookupDNS_direct w c domain recordType, (c, domain, recordType)).

End Service.

(** ** Buffered channels

    [make(chan A, n)] is its buffer and its capacity. A send that would block
    and a receive that would block are [None]: the goroutine stays where it
    is and the scheduler has to pick another action. *)

Record chan (A : Type) := { buf : list A; cap : nat }.
Arguments buf {A} c.
Arguments cap {A} c.

Definition make_chan {A} (n : nat) : chan A := {| buf := []; cap := n |}.

Definition chan_send {A} (x : A) (c : chan A) : option (chan A) :=
  if decide (length (buf c) < cap c)
  then Some {| buf := buf c ++ [x]; cap := cap c |}
  else None.

Definition chan_recv {A} (c : chan A) : option (A * chan A) :=
  match buf c with
  | [] => None
  | x :: rest => Some (x, {| buf := rest; cap := cap c |})
  end.

(** ** BulkAnalyzeIPs: the bounded fan-out *)

Module BulkAnalyzeIPs.
Section Machine.
Context `{NL : NetLib}.
Variable ctx : Context.
Variable request : BulkAnalysisRequest.

Record analysisResult := { info : IPInfo; err : option error }.

(** The call the goroutine makes: [s.AnalyzeIP(ctx, targetIP)]. *)
Definition item_call (w : World) (targetIP : string)
  : Result IPInfo * (Context * string) :=
  call_AnalyzeIP w ctx targetIP.

(** What the goroutine makes of the answer [(info, err)] of its call: the
    info itself, or the minimal info built when the call failed. *)
Definition item_result (w : World) (targetIP : string) (answer : Result IPInfo)
  : analysisResult :=
  match answer with
  | Ok i => {| info := i; err := None |}
  | Err e =>
      {| info := {| ip_IP := targetIP; ip_Version := "Unknown"; ip_Type := "error";
                    ip_Geolocation := None; ip_ISP := None; ip_Security := None;
                    ip_DNS := None; ip_Timestamp := time_Now w |};
         err := Some e |}
  end.

(** The body of the goroutine between its two channel operations. *)
Definition analyze_item (w : World) (targetIP : string) : analysisResult :=
  item_result w targetIP (item_call w targetIP).1.

(** Where a goroutine is: before [semaphore <- struct{}{}], inside
    [s.AnalyzeIP], before [resultChan <- ...], before the deferred
    [<-semaphore], gone. *)
Inductive gpc : Type :=
| Acquiring
| Analyzing
| Sending (res : analysisResult)
| Releasing
| Exited.

Record goroutine := { targetIP : string; at_pc : gpc }.

(** Where the main flow is: in the [range] loop that starts the goroutines
    (about to start the one of [IPs[k]]), in the collecting loop (about to
    test [i < len(request.IPs)]), or back in the caller. *)
Inductive mpc : Type :=
| Spawning (k : nat)
| Collecting (i : nat)
| Returned.

Record state := {
  startTime : Time;
  result : BulkAnalysisResult;
  main : mpc;
  goroutines : list goroutine;
  semaphore : chan unit;
  resultChan : chan analysisResult;
  (* history of the calls [s.AnalyzeIP(c, ip)] made so far: the entries the
     calls left *)
  calls : list (Context * string);
}.

Definition spawn_from (k : nat) : mpc :=
  if decide (k < length (IPs request)) then Spawning k else Collecting 0.

(** The statements before the first loop; [t0] and [t1] are the two
    readings of the clock. *)
Definition init (t0 t1 : Time) : state :=
  {| startTime := t0;
     result := {| Results := [];
                  Summary := {| Total := Z.of_nat (length (IPs request));
                                Successful := 0; Failed := 0; Duration := 0%Q |};
                  Timestamp := t1 |};
     main := spawn_from 0;
     goroutines := [];
     semaphore := make_chan 10;
     resultChan := make_chan (length (IPs request));
     calls := [] |}.

(** The actions a scheduler can pick. A call of [AnalyzeIP] is one action,
    taken when the call returns: the call is taken to return (the HTTP
    client has a 10 s timeout, the resolver its own), with the answers [w]
    the world gave it. *)
Inductive action : Type :=
| ASpawn                       (* main: go func(targetIP string) {...}(ip) *)
| AAcquire (i : nat)           (* goroutine i: semaphore <- struct{}{} *)
| AAnalyze (i : nat) (w : World) (* goroutine i: s.AnalyzeIP(ctx, targetIP) returns *)
| ASend (i : nat)              (* goroutine i: resultChan <- analysisResult{...} *)
| ARelease (i : nat)           (* goroutine i: deferred <-semaphore *)
| ARecv                        (* main: one turn of the collecting loop *)
| AReturn (w : World).         (* main: Duration, return result, nil *)

Definition move (i : nat) (pc : gpc) (gs : list goroutine) : list goroutine :=
  match gs !! i with
  | Some g => <[i := {| targetIP := targetIP g; at_pc := pc |}]> gs
  | None => gs
  end.

Definition collect (res : analysisResult) (r : BulkAnalysisResult) : BulkAnalysisResult :=
  let sm := Summary r in
  {| Results := Results r ++ [info res];
     Summary :=
       match err res with
       | None => {| Total := Total sm; Successful := Successful sm + 1;
                    Failed := Failed sm; Duration := Duration sm |}
       | Some _ => {| Total := Total sm; Successful := Successful sm;
                      Failed := Failed sm + 1; Duration := Duration sm |}
       end;
     Timestamp := Timestamp r |}.

Definition finish (w : World) (t0 : Time) (r : BulkAnalysisResult) : BulkAnalysisResult :=
  let sm := Summary r in
  {| Results := Results r;
     Summary := {| Total := Total sm; Successful := Successful sm; Failed := Failed sm;
                   Duration := (inject_Z (time_Since w t0) / inject_Z 1000000)%Q |};
     Timestamp := Timestamp r |}.

Definition exec (a : action) (s : state) : option state :=
  match a with
  | ASpawn =>
      match main s with
      | Spawning k =>
          ip ← IPs request !! k;
          Some {| startTime := startTime s; result := result s;
                  main := spawn_from (S k);
                  goroutines := goroutines s ++ [ {| targetIP := ip; at_pc := Acquiring |} ];
                  semaphore := semaphore s; resultChan := resultChan s;
                  calls := calls s |}
      | _ => None
      end
  | AAcquire i =>
      g ← goroutines s !! i;
      match at_pc g with
      | Acquiring =>
          sem ← chan_send () (semaphore s);
          Some {| startTime := startTime s; result := result s; main := main s;
                  goroutines := move i Analyzing (goroutines s);
                  semaphore := sem; resultChan := resultChan s; calls := calls s |}
      | _ => None
      end
  | AAnalyze i w =>
      g ← goroutines s !! i;
      match at_pc g with
      | Analyzing =>
          let '(answer, entry) := item_call w (targetIP g) in
          Some {| startTime := startTime s; result := result s; main := main s;
                  goroutines :=
                    move i (Sending (item_result w (targetIP g) answer)) (goroutines s);
                  semaphore := semaphore s; resultChan := resultChan s;
                  calls := calls s ++ [entry] |}
      | _ => None
      end
  | ASend i =>
      g ← goroutines s !! i;
      match at_pc g with
      | Sending res =>
          rc ← chan_send res (resultChan s);
          Some {| startTime := startTime s; result := result s; main := main s;
                  goroutines := move i Releasing (goroutines s);
                  semaphore := semaphore s; resultChan := rc; calls := calls s |}
      | _ => None
      end
  | ARelease i =>
      g ← goroutines s !! i;
      match at_pc g with
      | Releasing =>
          '(_, sem) ← chan_recv (semaphore s);
          Some {| startTime := startTime s; result := result s; main := main s;
                  goroutines := move i Exited (goroutines s);
                  semaphore := sem; resultChan := resultChan s; calls := calls s |}
      | _ => None
      end
  | ARecv =>
      match main s with
      | Collecting i =>
          if decide (i < length (IPs request)) then
            '(res, rc) ← chan_recv (resultChan s);
            Some {| startTime := startTime s; result := collect res (result s);
                    main := Collecting (S i);
                    goroutines := goroutines s;
                    semaphore := semaphore s; resultChan := rc; calls := calls s |}
          else None
      | _ => None
      end
  | AReturn w =>
      match main s with
      | Collecting i =>
          if decide (i < length (IPs request)) then None
          else
            Some {| startTime := startTime s;
                    result := finish w (startTime s) (result s);
                    main := Returned;
                    goroutines := goroutines s;
                    semaphore := semaphore s; resultChan := resultChan s;
                    calls := calls s |}
      | _ => None
      end
  end.

(** What [BulkAnalyzeIPs] hands back to its caller, once it has: the only
    [return] of the function is [return result, nil]. *)
Definition returns (s : state) : option (Result BulkAnalysisResult) :=
  match main s with
  | Returned => Some (Ok (result s))
  | _ => None
  end.

(** A schedule, run from a state. *)
Fixpoint run (acts : list action) (s : state) : option state :=
  match acts with
  | [] => Some s
  | a :: rest => s' ← exec a s; run rest s'
  end.

Definition step (s s' : state) : Prop := ∃ a, exec a s = Some s'.

Definition reachable (s : state) : Prop := ∃ t0 t1, rtc step (init t0 t1) s.

End Machine.
End BulkAnalyzeIPs.

(** ** lookupAll: one goroutine per record type *)

Module lookupAll.
Section Machine.
Context `{NL : NetLib}.
Variable domain : string.

Definition types : list string := ["A"; "AAAA"; "MX"; "NS"; "TXT"; "CNAME"].

(** Where a goroutine is: inside [s.LookupDNS], before [resultChan <- ...],
    gone. *)
Inductive gpc : Type :=
| Looking
| Sending (records : list DNSRecord)
| Exited.

Record goroutine := { rType : string; at_pc : gpc }.

Inductive mpc : Type :=
| Spawning (k : nat)
| Collecting (i : nat)
| Returned.

Record state := {
  allRecords : list DNSRecord;
  main : mpc;
  goroutines : list goroutine;
  resultChan : chan (list DNSRecord);
  (* history of the calls [s.LookupDNS(c, domain, rType)] made so far: the
     entries the calls left *)
  calls : list (Context * string * string);
}.

Definition spawn_from (k : nat) : mpc :=
  if decide (k < length types) then Spawning k else Collecting 0.

Definition init : state :=
  {| allRecords := [];
     main := spawn_from 0;
     goroutines := [];
     resultChan := make_chan (length types);
     calls := [] |}.

(** The call the goroutine makes:
    [s.LookupDNS(context.Background(), domain, rType)]. *)
Definition item_call (w : World) (rType : string)
  : option (Result DNSLookupResult) * (Context * string * string) :=
  call_LookupDNS w Background domain rType.

(** What the goroutine sends for the answer of its [LookupDNS]: the records,
    or an empty slice when the lookup failed. *)
Definition records_or_empty (r : Result DNSLookupResult) : list DNSRecord :=
  match r with
  | Ok res => lr_Records res
  | Err _ => []
  end.

(** The actions a scheduler can pick; a call of [LookupDNS] is one action,
    taken when the call returns, with the answers [w] the world gave it. *)
Inductive action : Type :=
| ASpawn                        (* main: go func(rType string) {...}(recordType) *)
| ALookup (i : nat) (w : World) (* goroutine i: s.LookupDNS(context.Background(), domain, rType) returns *)
| ASend (i : nat)               (* goroutine i: resultChan <- ... *)
| ARecv                         (* main: one turn of the collecting loop *)
| AReturn.                      (* main: return allRecords, nil *)

Definition move (i : nat) (pc : gpc) (gs : list goroutine) : list goroutine :=
  match gs !! i with
  | Some g => <[i := {| rType := rType g; at_pc := pc |}]> gs
  | None => gs
  end.

(** A goroutine only ever asks for one of [types]; were its [LookupDNS] to
    start [lookupAll] again ([LookupDNS_direct] is [None]) the action is not
    taken. *)
Definition exec (a : action) (s : state) : option state :=
  match a with
  | ASpawn =>
      match main s with
      | Spawning k =>
          recordType ← types !! k;
          Some {| allRecords := allRecords s;
                  main := spawn_from (S k);
                  goroutines := goroutines s ++ [ {| rType := recordType; at_pc := Looking |} ];
                  resultChan := resultChan s; calls := calls s |}
      | _ => None
      end
  | ALookup i w =>
      g ← goroutines s !! i;
      match at_pc g with
      | Looking =>
          let '(answer, entry) := item_call w (rType g) in
          r ← answer;
          Some {| allRecords := allRecords s; main := main s;
                  goroutines := move i (Sending (records_or_empty r)) (goroutines s);
                  resultChan := resultChan s;
                  calls := calls s ++ [entry] |}
      | _ => None
      end
  | ASend i =>
      g ← goroutines s !! i;
      match at_pc g with
      | Sending records =>
          rc ← chan_send records (resultChan s);
          Some {| allRecords := allRecords s; main := main s;
                  goroutines := move i Exited (goroutines s);
                  resultChan := rc; calls := calls s |}
      | _ => None
      end
  | ARecv =>
      match main s with
      | Collecting i =>
          if decide (i < length types) then
            '(records, rc) ← chan_recv (resultChan s);
            Some {| allRecords := allRecords s ++ records;
                    main := Collecting (S i);
                    goroutines := goroutines s;
                    resultChan := rc; calls := calls s |}
          else None
      | _ => None
      end
  | AReturn =>
      match main s with
      | Collecting i =>
          if decide (i < length types) then None
          else
            Some {| allRecords := allRecords s; main := Returned;
                    goroutines := goroutines s;
                    resultChan := resultChan s; calls := calls s |}
      | _ => None
      end
  end.

(** The only [return] of the function is [return allRecords, nil]. *)
Definition returns (s : state) : option (Result (list DNSRecord)) :=
  match main s with
  | Returned => Some (Ok (allRecords s))
  | _ => None
  end.

Fixpoint run (acts : list action) (s : state) : option state :=
  match acts with
  | [] => Some s
  | a :: rest => s' ← exec a s; run rest s'
  end.

Definition step (s s' : state) : Prop := ∃ a, exec a s = Some s'.

Definition reachable (s : state) : Prop := rtc step init s.

End Machine.
End lookupAll.

(** ** LookupDNS, with its ALL case *)

Section LookupDNS.
Context `{NL : NetLib}.

(** [LookupDNS w ctx domain recordType r]: the call returns [r]. Either no
    goroutine is needed, or [lookupAll] runs under some schedule and returns
    [(records, err)], which [LookupDNS] finishes with. *)
Inductive LookupDNS (w : World) (ctx : Context) (domain recordType : string)
  : Result DNSLookupResult → Prop :=
| LookupDNS_one r :
    LookupDNS_direct w ctx domain recordType = Some r →
    LookupDNS w ctx domain recordType r
| LookupDNS_all s r :
    LookupDNS_switch w ctx domain recordType = PlanAll →
    lookupAll.reachable domain s →
    lookupAll.returns s = Some r →
    LookupDNS w ctx domain recordType (LookupDNS_finish w domain r).

End LookupDNS.

(** ** The batch endpoint (package routes) *)

(** A handler is what it answers, or a call it makes and what it does with
    the outcome. *)
Inductive handler : Type :=
| Respond (status : Z) (body : string)
| CallBulkAnalyzeIPs (ctx : Context) (request : BulkAnalysisRequest)
    (k : Result BulkAnalysisResult → handler)
| EncodeJSON (v : BulkAnalysisResult) (k : Result string → handler).

Definition StatusOK : Z := 200.
Definition StatusBadRequest : Z := 400.
Definition StatusInternalServerError : Z := 500.

(** [rctx] is [r.Context()], [decoded] the outcome of decoding the body. *)
Definition BatchAnalyzeIPs (rctx : Context) (decoded : Result BulkAnalysisRequest) : handler :=
  match decoded with
  | Err _ => Respond StatusBadRequest "Invalid request body"
  | Ok request =>
      if decide (length (IPs request) = 0) then
        Respond StatusBadRequest "No IPs provided"
      else if decide (100 < length (IPs request)) then
        Respond StatusBadRequest "Too many IPs (maximum 100)"
      else
        CallBulkAnalyzeIPs rctx request (λ r,
          match r with
          | Err _ => Respond StatusInternalServerError "Bulk analysis failed"
          | Ok result =>
              EncodeJSON result (λ e,
                match e with
                | Err _ => Respond StatusInternalServerError "Failed to encode response"
                | Ok body => Respond StatusOK body
                end)
          end)
  end.

(** The request the handler hands to the aggregator, if it does. *)
Definition dispatched (h : handler) : option (Context * BulkAnalysisRequest) :=
  match h with
  | CallBulkAnalyzeIPs c request _ => Some (c, request)
  | _ => None
  end.

(** The answers a handler can give: the aggregator runs under some schedule
    until it returns, the encoder succeeds or fails. *)
Inductive serves `{NL : NetLib} : handler → Z → string → Prop :=
| serves_respond status body : serves (Respond status body) status body
| serves_bulk c request k s r status body :
    BulkAnalyzeIPs.reachable c request s →
    BulkAnalyzeIPs.returns s = Some r →
    serves (k r) status body →
    serves (CallBulkAnalyzeIPs c request k) status body
| serves_encode v k e status body :
    serves (k e) status body →
    serves (EncodeJSON v k) status body.

(** ** A stand-in for package net and for the network

    Dotted-decimal IPv4 text only (four decimal fields of value at most 255,
    no leading zero), addresses kept in the 16-byte form [net.ParseIP]
    returns; classification as in package [net]; upper-casing of the bytes
    'a'..'z' only, which is [strings.ToUpper] on ASCII text. Used to run the
    service on concrete ASCII inputs. *)

Module Stub.

Definition is_digit (c : Ascii.ascii) : bool :=
  let n := Ascii.N_of_ascii c in ((48 <=? n) && (n <=? 57))%N.

(** [fields s ""] splits [s] at each '.' (byte 46). *)
Fixpoint fields (s cur : string) : list string :=
  match s with
  | EmptyString => [cur]
  | String c r =>
      if (Ascii.N_of_ascii c =? 46)%N then cur :: fields r ""
      else fields r (cur +:+ String c "")
  end.

Fixpoint digits_value (s : string) (acc : Z) : option Z :=
  match s with
  | EmptyString => Some acc
  | String c r =>
      if is_digit c
      then digits_value r (acc * 10 + (Z.of_N (Ascii.N_of_ascii c) - 48))%Z
      else None
  end.

(** A field: decimal digits, no leading '0' (byte 48) before another digit. *)
Definition octet (f : string) : option Z :=
  match f with
  | EmptyString => None
  | String c r =>
      if (Ascii.N_of_ascii c =? 48)%N && negb (String.eqb r "") then None
      else
        v ← digits_value f 0;
        if decide (v ≤ 255)%Z then Some v else None
  end.

Definition v4InV6Prefix : list Z := [0; 0; 0; 0; 0; 0; 0; 0; 0; 0; 255; 255]%Z.

Definition parse (s : string) : option (list Z) :=
  match fields s "" with
  | [fa; fb; fc; fd] =>
      a ← octet fa; b ← octet fb; c ← octet fc; d ← octet fd;
      Some (v4InV6Prefix ++ [a; b; c; d])%list
  | _ => None
  end.

Definition to4 (ip : list Z) : option (list Z) :=
  match ip with
  | [_; _; _; _] => Some ip
  | _ =>
      if decide (length ip = 16 ∧ take 12 ip = v4InV6Prefix)
      then Some (drop 12 ip) else None
  end.

Definition byte_at (ip : list Z) (i : nat) : Z := default 0%Z (ip !! i).

Definition is_private (ip : list Z) : bool :=
  match to4 ip with
  | Some ip4 =>
      (byte_at ip4 0 =? 10)%Z
      || ((byte_at ip4 0 =? 172) && (Z.land (byte_at ip4 1) 240 =? 16))%Z
      || ((byte_at ip4 0 =? 192) && (byte_at ip4 1 =? 168))%Z
  | None => (length ip =? 16)%nat && (Z.land (byte_at ip 0) 254 =? 252)%Z
  end.

Definition is_loopback (ip : list Z) : bool :=
  match to4 ip with
  | Some ip4 => (byte_at ip4 0 =? 127)%Z
  | None => bool_decide (ip = [0; 0; 0; 0; 0; 0; 0; 0; 0; 0; 0; 0; 0; 0; 0; 1]%Z)
  end.

Definition is_multicast (ip : list Z) : bool :=
  match to4 ip with
  | Some ip4 => (Z.land (byte_at ip4 0) 240 =? 224)%Z
  | None => (length ip =? 16)%nat && (byte_at ip 0 =? 255)%Z
  end.

Definition is_link_local_unicast (ip : list Z) : bool :=
  match to4 ip with
  | Some ip4 => ((byte_at ip4 0 =? 169) && (byte_at ip4 1 =? 254))%Z
  | None =>
      (length ip =? 16)%nat && (byte_at ip 0 =? 254)%Z
      && (Z.land (byte_at ip 1) 192 =? 128)%Z
  end.

Definition to_string (ip : list Z) : string :=
  match to4 ip with
  | Some [a; b; c; d] =>
      pretty a +:+ "." +:+ pretty b +:+ "." +:+ pretty c +:+ "." +:+ pretty d
  | _ => "?"
  end.

#[export] Instance ipv4_only : NetLib :=
  {| net_IP := list Z;
     ParseIP := parse;
     To4 := to4;
     IsPrivate := is_private;
     IsLoopback := is_loopback;
     IsMulticast := is_multicast;
     IsLinkLocalUnicast := is_link_local_unicast;
     IP_String := to_string;
     ToUpper := upper_bytes;
     ToUpper_ascii := λ s _, eq_refl |}.

(** A resolver that knows one zone; the HTTP API is still unreachable. *)
Definition example_zone (now : Time) : World :=
  {| time_Now := now;
     time_Since := λ t, (now + 2000000 - t)%Z;
     getGeolocation := λ _ _, Err "dial tcp: network is unreachable";
     getISPInfo := λ _ _, Err "dial tcp: network is unreachable";
     LookupAddr := λ _, Err "no such host";
     LookupIP := λ d,
       if String.eqb d "example.com"
       then Ok [(v4InV6Prefix ++ [93; 184; 216; 34]%Z)%list] else Err "no such host";
     LookupMX := λ d,
       if String.eqb d "example.com"
       then Ok [ {| mx_Host := "mail.example.com."; mx_Pref := 10 |} ]
       else Err "no such host";
     LookupNS := λ _, Err "no such host";
     LookupTXT := λ d,
       if String.eqb d "example.com" then Ok ["v=spf1 -all"] else Err "no such host";
     LookupCNAME := λ _, Err "no such host" |}.

End Stub.

(** ** The rest of the service: client address, traceroute *)

(** What the remaining code uses of [net] and [strings] besides [NetLib]:
    CIDR blocks ([Contains] is given the possibly nil result of
    [net.ParseIP]), [net.SplitHostPort] and [strings.TrimSpace]. *)
Class NetExtra `{NetLib} := {
  IPNet : Type;
  ParseCIDR : string → option IPNet;
  Contains : IPNet → option net_IP → bool;
  SplitHostPort : string → Result (string * string);
  TrimSpace : string → string;
}.

(** What [GetClientIP] reads of a [*http.Request]. *)
Record Request := {
  Header_Get : string → string;
  RemoteAddr : string;
}.

Record TracerouteHop := {
  hop_HopNumber : Z;
  hop_IP : string;
  hop_Hostname : string;
  hop_RTT : float64;
  hop_Location : option GeoInfo;
}.

Record TracerouteResult := {
  tr_Target : string;
  tr_Hops : list TracerouteHop;
  tr_TotalHops : Z;
  tr_TotalTime : float64;
  tr_PacketLoss : float64;
  tr_Timestamp : Time;
}.

(** [strings.IndexByte(s, c)], [None] for -1; the comma is byte 44. *)
Fixpoint IndexByte (s : string) (c : N) : option nat :=
  match s with
  | EmptyString => None
  | String b r =>
      if (Ascii.N_of_ascii b =? c)%N then Some 0
      else S <$> IndexByte r c
  end.

Definition Index_comma (s : string) : option nat := IndexByte s 44.

Section ServiceMore.
Context `{NE : NetExtra}.

Definition client_headers : list string :=
  ["CF-Connecting-IP"; "True-Client-IP"; "X-Real-IP"; "X-Forwarded-For";
   "X-Client-IP"; "X-Forwarded"; "X-Cluster-Client-IP"; "Forwarded-For";
   "Forwarded"].

(** One turn of the loop over the headers: the address the header gives, if
    it gives one. *)
Definition header_ip (r : Request) (header : string) : option string :=
  let ip := Header_Get r header in
  if String.eqb ip "" then None
  else
    let ip :=
      match Index_comma ip with
      | Some idx => TrimSpace (String.substring 0 idx ip)
      | None => ip
      end in
    match ParseIP ip with
    | Some _ => Some ip
    | None => None
    end.

Fixpoint first_header_ip (r : Request) (hs : list string) : option string :=
  match hs with
  | [] => None
  | header :: rest =>
      match header_ip r header with
      | Some ip => Some ip
      | None => first_header_ip r rest
      end
  end.

(** The fallback of [GetClientIP]: the host of the remote address. *)
Definition remote_host (r : Request) : string :=
  match SplitHostPort (RemoteAddr r) with
  | Err _ => RemoteAddr r
  | Ok (host, _) => host
  end.

Definition GetClientIP (r : Request) : string :=
  match first_header_ip r client_headers with
  | Some ip => ip
  | None => remote_host r
  end.

Definition privateRanges : list string :=
  ["10.0.0.0/8"; "172.16.0.0/12"; "192.168.0.0/16"; "127.0.0.0/8";
   "169.254.0.0/16"; "::1/128"; "fc00::/7"; "fe80::/10"].

Fixpoint in_ranges (cidrs : list string) (ip : string) : bool :=
  match cidrs with
  | [] => false
  | cidr :: rest =>
      match ParseCIDR cidr with
      | None => in_ranges rest ip
      | Some network =>
          if Contains network (ParseIP ip) then true else in_ranges rest ip
      end
  end.

Definition isPrivateIP (ip : string) : bool := in_ranges privateRanges ip.

Definition simulatedHops (target : string) : list (string * float64) :=
  [("192.168.1.1", 1.2%Q); ("10.0.0.1", 5.4%Q); ("203.0.113.1", 15.6%Q);
   ("198.51.100.1", 25.8%Q); (target, 35.2%Q)].

(** One turn of the loop over the hops, in the world [w] of that turn. *)
Definition traceroute_hop (w : World) (ctx : Context) (i : nat)
    (hop : string * float64) : TracerouteHop :=
  {| hop_HopNumber := Z.of_nat i + 1;
     hop_IP := hop.1;
     hop_RTT := hop.2;
     hop_Hostname :=
       match LookupAddr w hop.1 with
       | Ok (name :: _) => name
       | _ => ""
       end;
     hop_Location :=
       if isPrivateIP hop.1 then None
       else
         match AnalyzeIP w ctx hop.1 with
         | Ok analysis => ip_Geolocation analysis
         | Err _ => None
         end |}.

(** [w0] is the world on entry, [ws i] the world during turn [i]. *)
Definition PerformTraceroute (w0 : World) (ws : nat → World) (ctx : Context)
    (target : string) : Result TracerouteResult :=
  let hops := imap (λ i hop, traceroute_hop (ws i) ctx i hop) (simulatedHops target) in
  Ok {| tr_Target := target;
        tr_Hops := hops;
        tr_Timestamp := time_Now w0;
        tr_TotalTime := foldl (λ t hop, (t + hop.2)%Q) 0%Q (simulatedHops target);
        tr_TotalHops := Z.of_nat (length hops);
        tr_PacketLoss := 0%Q |}.

End ServiceMore.

(** ** The other endpoints (package routes) *)

(** A handler is what it answers ([http.Error] with its message, or 200 with
    the encoded body), or a call of the service and what it does with the
    outcome, or the encoding of its answer. *)
Inductive api : Type :=
| Reply (status : Z) (message : string)
| DoAnalyzeIP (ctx : Context) (ip : string) (k : Result IPInfo → api)
| DoLookupDNS (ctx : Context) (domain recordType : string)
    (k : Result DNSLookupResult → api)
| DoTraceroute (ctx : Context) (target : string)
    (k : Result TracerouteResult → api)
| Encode (k : Result string → api).

Definition encode_or_500 : api :=
  Encode (λ e,
    match e with
    | Err _ => Reply StatusInternalServerError "Failed to encode response"
    | Ok body => Reply StatusOK body
    end).

Section Handlers.
Context `{NE : NetExtra}.

Definition GetCurrentIP (rctx : Context) (r : Request) : api :=
  let clientIP := GetClientIP r in
  DoAnalyzeIP rctx clientIP (λ a,
    match a with
    | Err _ => Reply StatusInternalServerError "Failed to analyze IP"
    | Ok _ => encode_or_500
    end).

(** [ip] is the URL parameter. *)
Definition AnalyzeIP_handler (rctx : Context) (ip : string) : api :=
  if String.eqb ip "" then Reply StatusBadRequest "IP address required"
  else
    match ParseIP ip with
    | None => Reply StatusBadRequest "Invalid IP address format"
    | Some _ =>
        DoAnalyzeIP rctx ip (λ a,
          match a with
          | Err _ => Reply StatusInternalServerError "Failed to analyze IP"
          | Ok _ => encode_or_500
          end)
    end.

(** [post] says whether the method is POST, [decoded] is the decoding of the
    body into its two fields, [query] reads a query parameter. *)
Definition LookupDNS_handler (rctx : Context) (post : bool)
    (decoded : Result (string * string)) (query : string → string) : api :=
  let finish (domain recordType : string) : api :=
    if String.eqb domain "" then Reply StatusBadRequest "Domain required"
    else
      let recordType := if String.eqb recordType "" then "A" else recordType in
      DoLookupDNS rctx domain (ToUpper recordType) (λ res,
        match res with
        | Err e =>
            Reply StatusInternalServerError ("DNS lookup failed: " +:+ e)
        | Ok _ => encode_or_500
        end) in
  if post then
    match decoded with
    | Err _ => Reply StatusBadRequest "Invalid JSON request"
    | Ok (domain, recordType) => finish domain recordType
    end
  else finish (query "domain") (query "type").

Definition PerformTraceroute_handler (rctx : Context) (target : string) : api :=
  if String.eqb target "" then Reply StatusBadRequest "Target parameter is required"
  else
    DoTraceroute rctx target (λ res,
      match res with
      | Err _ => Reply StatusInternalServerError "Traceroute failed"
      | Ok _ => encode_or_500
      end).

(** The answers a handler can give in the world [w]: [lookupAll] runs under
    some schedule, the traceroute sees some worlds, the encoder succeeds or
    fails. *)
Inductive answers (w : World) : api → Z → string → Prop :=
| answers_reply status message : answers w (Reply status message) status message
| answers_analyze c ip k status message :
    answers w (k (AnalyzeIP w c ip)) status message →
    answers w (DoAnalyzeIP c ip k) status message
| answers_lookup c domain recordType k r status message :
    LookupDNS w c domain recordType r →
    answers w (k r) status message →
    answers w (DoLookupDNS c domain recordType k) status message
| answers_traceroute c target k ws status message :
    answers w (k (PerformTraceroute w ws c target)) status message →
    answers w (DoTraceroute c target k) status message
| answers_encode k e status message :
    answers w (k e) status message →
    answers w (Encode k) status message.

End Handlers.

(** A stand-in for [NetExtra]: IPv4 blocks only, ASCII white space, the
    host up to the last colon. *)
Module StubExtra.
Import Stub.

Definition parse_cidr (s : string) : option (list Z * Z) :=
  match IndexByte s 47 with
  | None => None
  | Some idx =>
      ip ← parse (String.substring 0 idx s);
      ip4 ← to4 ip;
      n ← digits_value (String.substring (S idx) (String.length s - S idx) s) 0;
      if decide (0 ≤ n ≤ 32)%Z then Some (ip4, n) else None
  end.

Definition ip4_value (ip4 : list Z) : Z :=
  foldl (λ acc b, acc * 256 + b)%Z 0%Z ip4.

Definition contains (network : list Z * Z) (ip : option (list Z)) : bool :=
  match ip ≫= to4 with
  | None => false
  | Some ip4 =>
      (Z.shiftr (ip4_value ip4) (32 - network.2)
       =? Z.shiftr (ip4_value network.1) (32 - network.2))%Z
  end.

Definition is_space (c : Ascii.ascii) : bool :=
  let n := Ascii.N_of_ascii c in ((n =? 32) || ((9 <=? n) && (n <=? 13)))%N.

Fixpoint trim_left (s : string) : string :=
  match s with
  | String c r => if is_space c then trim_left r else s
  | EmptyString => EmptyString
  end.

Fixpoint trim_right (s : string) : string :=
  match s with
  | EmptyString => EmptyString
  | String c r =>
      match trim_right r with
      | EmptyString => if is_space c then EmptyString else String c EmptyString
      | r' => String c r'
      end
  end.

Definition trim_space (s : string) : string := trim_right (trim_left s).

(** The last colon of [s], if any. *)
Fixpoint last_colon (s : string) : option nat :=
  match s with
  | EmptyString => None
  | String c r =>
      match last_colon r with
      | Some i => Some (S i)
      | None => if (Ascii.N_of_ascii c =? 58)%N then Some 0 else None
      end
  end.

Definition split_host_port (s : string) : Result (string * string) :=
  match last_colon s with
  | None => Err "missing port in address"
  | Some i =>
      Ok (String.substring 0 i s,
          String.substring (S i) (String.length s - S i) s)
  end.

#[export] Instance ipv4_extra : NetExtra (H := ipv4_only) :=
  {| IPNet := (list Z * Z)%type;
     ParseCIDR := parse_cidr;
     Contains := contains;
     SplitHostPort := split_host_port;
     TrimSpace := trim_space |}.

End StubExtra.

Local Close Scope string_scope.

(** * Part II: proofs *)

(** ** Lists indexed by goroutine *)

Section ListFacts.
Context {A : Type}.
Implicit Types (f : A → nat) (l : list A).

Lemma sum_list_with_insert f l i x y :
  l !! i = Some x →
  sum_list_with f (<[i:=y]> l) + f x = sum_list_with f l + f y.
Proof.
  revert i. induction l as [|a l IH]; intros [|i] Hi; simplify_eq/=; [lia|].
  specialize (IH _ Hi). lia.
Qed.

Lemma sum_list_with_pos f l :
  0 < sum_list_with f l → ∃ i x, l !! i = Some x ∧ 0 < f x.
Proof.
  induction l as [|a l IH]; simpl; [lia|]. intros Hpos.
  destruct (decide (0 < f a)) as [Ha|Ha].
  - by exists 0, a.
  - destruct IH as (i & x & Hi & Hx); [lia|]. by exists (S i), x.
Qed.

Lemma sum_list_with_bound f l :
  (∀ x, f x ≤ 1) → sum_list_with f l ≤ length l.
Proof.
  intros Hf. induction l as [|a l IH]; simpl; [lia|]. specialize (Hf a). lia.
Qed.

Lemma sum_list_with_full f l :
  (∀ x, f x ≤ 1) → sum_list_with f l = length l → Forall (λ x, f x = 1) l.
Proof.
  intros Hf. induction l as [|a l IH]; simpl; intros Hs; [constructor|].
  pose proof (Hf a). pose proof (sum_list_with_bound f l Hf).
  constructor; [lia|]. apply IH. lia.
Qed.

Lemma concat_insert_perm (ls : list (list A)) i o o' :
  ls !! i = Some o → concat (<[i:=o']> ls) ++ o ≡ₚ concat ls ++ o'.
Proof.
  revert i. induction ls as [|a ls IH]; intros [|i] Hi; simplify_eq/=.
  - solve_Permutation.
  - rewrite <-!(assoc_L (++)). f_equiv. by apply IH.
Qed.

End ListFacts.

Section Channels.
Context {A : Type}.
Implicit Types (c : chan A).

Lemma chan_send_Some x c c' :
  chan_send x c = Some c' ↔
  length (buf c) < cap c ∧ c' = {| buf := buf c ++ [x]; cap := cap c |}.
Proof.
  unfold chan_send. case_decide; split.
  - by intros [= <-].
  - by intros [_ ->].
  - done.
  - intros [? _]; lia.
Qed.

Lemma chan_recv_Some c x c' :
  chan_recv c = Some (x, c') ↔
  buf c = x :: buf c' ∧ cap c' = cap c.
Proof.
  unfold chan_recv. destruct c as [[|y b] n], c' as [b' n']; simpl; split.
  - done.
  - by intros [? _].
  - by intros [= -> -> ->].
  - by intros [[= -> ->] ->].
Qed.

End Channels.

(** ** BulkAnalyzeIPs: what every schedule preserves *)

Module BulkProofs.
Section Invariant.
Context `{NL : NetLib}.
Variable ctx : Context.
Variable request : BulkAnalysisRequest.
Import BulkAnalyzeIPs.

Local Abbreviation N := (length (IPs request)).
Local Abbreviation item := (analyze_item ctx).
Local Abbreviation exec := (BulkAnalyzeIPs.exec ctx request).
Local Abbreviation step := (BulkAnalyzeIPs.step ctx request).
Local Abbreviation reachable := (BulkAnalyzeIPs.reachable ctx request).

(** Counting goroutines: the ones that hold a permit, the ones inside
    [AnalyzeIP], the ones that have sent their outcome. *)
Definition holding (g : goroutine) : nat :=
  match at_pc g with Analyzing | Sending _ | Releasing => 1 | _ => 0 end.

Definition in_flight (g : goroutine) : nat :=
  match at_pc g with Analyzing => 1 | _ => 0 end.

Definition sent (g : goroutine) : nat :=
  match at_pc g with Releasing | Exited => 1 | _ => 0 end.

(** The ones whose call of [AnalyzeIP] has been made. *)
Definition called (g : goroutine) : nat :=
  match at_pc g with Acquiring | Analyzing => 0 | _ => 1 end.

(** Communications a goroutine still has to make, and the main flow. *)
Definition todo (g : goroutine) : nat :=
  match at_pc g with
  | Acquiring => 4 | Analyzing => 3 | Sending _ => 2 | Releasing => 1 | Exited => 0
  end.

Definition main_todo (m : mpc) : nat :=
  match m with
  | Spawning k => 5 * (N - k) + N + 1
  | Collecting i => N - i + 1
  | Returned => 0
  end.

Definition measure (s : state) : nat :=
  main_todo (main s) + sum_list_with todo (goroutines s).

(** How many goroutines the main flow has started. *)
Definition spawned (m : mpc) : nat :=
  match m with Spawning k => k | _ => N end.

(** The mark of a failed item. *)
Definition is_error_info (r : IPInfo) : bool := String.eqb (ip_Type r) "error".

Definition errors (l : list IPInfo) : nat :=
  sum_list_with (λ r, if is_error_info r then 1 else 0) l.

Definition successes (l : list IPInfo) : nat :=
  sum_list_with (λ r, if is_error_info r then 0 else 1) l.

(** What goroutine [g] has put on the channel so far. *)
Definition sent_by (g : goroutine) (o : list IPInfo) : Prop :=
  match at_pc g with
  | Releasing | Exited => ∃ w, o = [info (item w (targetIP g))]
  | _ => o = []
  end.

Record Inv (s : state) : Prop := {
  inv_sem_cap : cap (semaphore s) = 10;
  inv_chan_cap : cap (resultChan s) = N;
  inv_sem : length (buf (semaphore s)) = sum_list_with holding (goroutines s);
  inv_sem_le : length (buf (semaphore s)) ≤ 10;
  inv_spawned : targetIP <$> goroutines s = take (spawned (main s)) (IPs request);
  inv_main :
    match main s with
    | Spawning k => k < N ∧ Results (result s) = []
    | Collecting i => i ≤ N ∧ length (Results (result s)) = i
    | Returned => length (Results (result s)) = N
    end;
  inv_sending :
    Forall (λ g, ∀ res, at_pc g = Sending res → ∃ w, res = item w (targetIP g))
           (goroutines s);
  inv_chan : Forall (λ res, ∃ w t, res = item w t) (buf (resultChan s));
  inv_outs :
    ∃ outs, Forall2 sent_by (goroutines s) outs ∧
            Results (result s) ++ (info <$> buf (resultChan s)) ≡ₚ concat outs;
  inv_counts :
    Total (Summary (result s)) = Z.of_nat N ∧
    Successful (Summary (result s)) = Z.of_nat (successes (Results (result s))) ∧
    Failed (Summary (result s)) = Z.of_nat (errors (Results (result s)));
  inv_calls : Forall (λ c, c.1 = ctx) (calls s);
  inv_called : length (calls s) = sum_list_with called (goroutines s);
}.

Lemma getIPType_not_error ip : String.eqb (getIPType ip) "error" = false.
Proof. unfold getIPType. by repeat case_match. Qed.

Lemma item_mark w t : is_error_info (info (item w t)) = bool_decide (ParseIP t = None).
Proof.
  unfold analyze_item, item_result, item_call, call_AnalyzeIP, AnalyzeIP, is_error_info; simpl. destruct (ParseIP t); simpl.
  - by rewrite getIPType_not_error.
  - done.
Qed.

Lemma item_err_mark w t :
  is_error_info (info (item w t)) =
  match err (item w t) with None => false | Some _ => true end.
Proof.
  unfold analyze_item, item_result, item_call, call_AnalyzeIP, AnalyzeIP, is_error_info; simpl. destruct (ParseIP t); simpl.
  - by rewrite getIPType_not_error.
  - done.
Qed.

Lemma item_IP w t : ip_IP (info (item w t)) = t.
Proof. unfold analyze_item, item_result, item_call, call_AnalyzeIP, AnalyzeIP; simpl. by destruct (ParseIP t). Qed.

Lemma spawn_from_spawned k :
  k ≤ N → spawned (spawn_from request k) = k.
Proof. unfold spawn_from. case_decide; simpl; lia. Qed.

Lemma move_lookup i pc gs g :
  gs !! i = Some g →
  move i pc gs = <[i := {| targetIP := targetIP g; at_pc := pc |}]> gs.
Proof. unfold move. by intros ->. Qed.

Lemma Inv_init t0 t1 : Inv (init request t0 t1).
Proof.
  split; simpl; try done; try lia.
  - by rewrite spawn_from_spawned, take_0 by lia.
  - unfold spawn_from. case_decide; simpl; [done|lia].
  - exists []. split; [constructor|done].
Qed.

(** Moving goroutine [i] to another point of its body. *)
Section Move.
Variables (gs : list goroutine) (i : nat) (g : goroutine) (pc : gpc).
Hypothesis Hg : gs !! i = Some g.
Let g' := {| targetIP := targetIP g; at_pc := pc |}.

Lemma move_targets : targetIP <$> move i pc gs = targetIP <$> gs.
Proof.
  rewrite (move_lookup _ _ _ _ Hg), list_fmap_insert. simpl.
  apply list_insert_id. by rewrite list_lookup_fmap, Hg.
Qed.

Lemma move_sum (f : goroutine → nat) :
  sum_list_with f (move i pc gs) + f g = sum_list_with f gs + f g'.
Proof. rewrite (move_lookup _ _ _ _ Hg). by apply sum_list_with_insert. Qed.

Lemma move_sending :
  (∀ res, pc = Sending res → ∃ w, res = item w (targetIP g)) →
  Forall (λ g, ∀ res, at_pc g = Sending res → ∃ w, res = item w (targetIP g)) gs →
  Forall (λ g, ∀ res, at_pc g = Sending res → ∃ w, res = item w (targetIP g))
         (move i pc gs).
Proof.
  intros Hpc HF. rewrite (move_lookup _ _ _ _ Hg). by apply Forall_insert.
Qed.

Lemma move_outs_same outs :
  (∀ o, sent_by g o → sent_by g' o) →
  Forall2 sent_by gs outs → Forall2 sent_by (move i pc gs) outs.
Proof.
  intros Hsame HF. rewrite (move_lookup _ _ _ _ Hg).
  destruct (Forall2_lookup_l _ _ _ _ _ HF Hg) as (o & Ho & Hgo).
  rewrite <-(list_insert_id outs i o) by done.
  apply Forall2_insert; [done|]. by apply Hsame.
Qed.

Lemma move_outs_send outs res :
  at_pc g = Sending res → pc = Releasing →
  (∃ w, res = item w (targetIP g)) →
  Forall2 sent_by gs outs →
  Forall2 sent_by (move i pc gs) (<[i := [info res]]> outs) ∧
  concat (<[i := [info res]]> outs) ≡ₚ concat outs ++ [info res].
Proof.
  intros Hat -> [w ->] HF. rewrite (move_lookup _ _ _ _ Hg).
  destruct (Forall2_lookup_l _ _ _ _ _ HF Hg) as (o & Ho & Hgo).
  unfold sent_by in Hgo. rewrite Hat in Hgo. subst o. split.
  - apply Forall2_insert; [done|]. unfold sent_by; simpl. by exists w.
  - rewrite <-(concat_insert_perm outs i [] _ Ho). by rewrite (right_id_L [] (++)).
Qed.

End Move.

Lemma Inv_spawn s s' : Inv s → exec ASpawn s = Some s' → Inv s'.
Proof.
  intros HI He. simpl in He.
  destruct (main s) as [k| |] eqn:Hm; try done.
  destruct (IPs request !! k) as [ip|] eqn:Hip; simplify_eq/=.
  pose proof (lookup_lt_Some _ _ _ Hip) as Hk.
  destruct HI as [? ? Hsem ? Hsp Hmain Hsd ? (outs & HF & HP) ? ? Hcd].
  rewrite Hm in Hsp, Hmain. simpl in Hsp. destruct Hmain as [_ Hres].
  split; simpl; try done.
  - rewrite sum_list_with_app. simpl. lia.
  - rewrite spawn_from_spawned by lia.
    rewrite fmap_app, Hsp. simpl. by rewrite (take_S_r _ _ _ Hip).
  - unfold spawn_from. case_decide; simpl; [done|]. rewrite Hres. simpl. lia.
  - apply Forall_app. split; [done|]. by repeat constructor.
  - exists (outs ++ [[]]). split.
    + apply Forall2_app; [done|]. by repeat constructor.
    + rewrite concat_app. simpl. by rewrite (right_id_L [] (++)).
  - rewrite sum_list_with_app. simpl. lia.
Qed.

Lemma Inv_acquire s s' i : Inv s → exec (AAcquire i) s = Some s' → Inv s'.
Proof.
  intros HI He. simpl in He.
  destruct (goroutines s !! i) as [g|] eqn:Hg; simplify_eq/=.
  destruct (at_pc g) eqn:Hat; try done.
  destruct (chan_send () (semaphore s)) as [sem|] eqn:Hs; simplify_eq/=.
  apply chan_send_Some in Hs as [Hlt ->].
  destruct HI as [Hcap ? Hsem ? Hsp Hmain Hsd ? (outs & HF & HP) ? ? Hcd].
  split; simpl; try done.
  - pose proof (move_sum _ i g Analyzing Hg holding) as Hh.
    unfold holding in *. simpl in Hh. rewrite Hat in Hh.
    rewrite length_app. simpl. lia.
  - rewrite length_app. simpl. lia.
  - by rewrite (move_targets _ _ g _ Hg).
  - by apply (move_sending _ _ g _ Hg).
  - exists outs. split; [|done]. apply (move_outs_same _ _ g _ Hg); [|done].
    unfold sent_by. by rewrite Hat.
  - pose proof (move_sum _ i g Analyzing Hg called) as Hh.
    unfold called in *. simpl in Hh. rewrite Hat in Hh. lia.
Qed.

(** The step of a goroutine that comes back from its call: what it is about
    to send, and the entry its call left in the history. *)
Lemma exec_analyze i w s :
  exec (AAnalyze i w) s =
  g ← goroutines s !! i;
  match at_pc g with
  | Analyzing =>
      Some {| startTime := startTime s; result := result s; main := main s;
              goroutines := move i (Sending (item w (targetIP g))) (goroutines s);
              semaphore := semaphore s; resultChan := resultChan s;
              calls := calls s ++ [(ctx, targetIP g)] |}
  | _ => None
  end.
Proof. done. Qed.

Lemma Inv_analyze s s' i w : Inv s → exec (AAnalyze i w) s = Some s' → Inv s'.
Proof.
  intros HI He. rewrite exec_analyze in He. simpl in He.
  destruct (goroutines s !! i) as [g|] eqn:Hg; simplify_eq/=.
  destruct (at_pc g) eqn:Hat; simplify_eq/=.
  destruct HI as [Hcap ? Hsem ? Hsp Hmain Hsd ? (outs & HF & HP) ? ? Hcd].
  split; simpl; try done.
  - pose proof (move_sum _ i g (Sending (item w (targetIP g))) Hg holding) as Hh.
    unfold holding in *. simpl in Hh. rewrite Hat in Hh. lia.
  - by rewrite (move_targets _ _ g _ Hg).
  - apply (move_sending _ _ g _ Hg); [|done]. intros res [= <-]. by exists w.
  - exists outs. split; [|done]. apply (move_outs_same _ _ g _ Hg); [|done].
    unfold sent_by. by rewrite Hat.
  - apply Forall_app. split; [done|]. by repeat constructor.
  - pose proof (move_sum _ i g (Sending (item w (targetIP g))) Hg called) as Hh.
    unfold called in *. simpl in Hh. rewrite Hat in Hh.
    rewrite length_app. simpl. lia.
Qed.

Lemma Inv_send s s' i : Inv s → exec (ASend i) s = Some s' → Inv s'.
Proof.
  intros HI He. simpl in He.
  destruct (goroutines s !! i) as [g|] eqn:Hg; simplify_eq/=.
  destruct (at_pc g) as [| |res| |] eqn:Hat; try done.
  destruct (chan_send res (resultChan s)) as [rc|] eqn:Hs; simplify_eq/=.
  apply chan_send_Some in Hs as [Hlt ->].
  destruct HI as [Hcap ? Hsem ? Hsp Hmain Hsd Hch (outs & HF & HP) ? ? Hcd].
  assert (∃ w, res = item w (targetIP g)) as Hres.
  { eapply Forall_lookup_1 in Hsd; [|exact Hg]. by apply Hsd. }
  split; simpl; try done.
  - pose proof (move_sum _ i g Releasing Hg holding) as Hh.
    unfold holding in *. simpl in Hh. rewrite Hat in Hh. lia.
  - by rewrite (move_targets _ _ g _ Hg).
  - by apply (move_sending _ _ g _ Hg).
  - apply Forall_app. split; [done|]. constructor; [|done].
    destruct Hres as [w ->]. by exists w, (targetIP g).
  - destruct (move_outs_send _ i g Releasing Hg outs res Hat eq_refl Hres HF)
      as [HF' HP'].
    exists (<[i := [info res]]> outs). split; [done|].
    rewrite HP', fmap_app, (assoc_L (++)). simpl. by rewrite HP.
  - pose proof (move_sum _ i g Releasing Hg called) as Hh.
    unfold called in *. simpl in Hh. rewrite Hat in Hh. lia.
Qed.

Lemma Inv_release s s' i : Inv s → exec (ARelease i) s = Some s' → Inv s'.
Proof.
  intros HI He. simpl in He.
  destruct (goroutines s !! i) as [g|] eqn:Hg; simplify_eq/=.
  destruct (at_pc g) eqn:Hat; try done.
  destruct (chan_recv (semaphore s)) as [[[] sem]|] eqn:Hs; simplify_eq/=.
  apply chan_recv_Some in Hs as [Hbuf Hc].
  destruct HI as [Hcap ? Hsem ? Hsp Hmain Hsd Hch (outs & HF & HP) ? ? Hcd].
  rewrite Hbuf in *. simpl in *.
  split; simpl; try done.
  - congruence.
  - pose proof (move_sum _ i g Exited Hg holding) as Hh.
    unfold holding in *. simpl in Hh. rewrite Hat in Hh. lia.
  - lia.
  - by rewrite (move_targets _ _ g _ Hg).
  - by apply (move_sending _ _ g _ Hg).
  - exists outs. split; [|done]. apply (move_outs_same _ _ g _ Hg); [|done].
    unfold sent_by. by rewrite Hat.
  - pose proof (move_sum _ i g Exited Hg called) as Hh.
    unfold called in *. simpl in Hh. rewrite Hat in Hh. lia.
Qed.

Lemma errors_snoc l r :
  errors (l ++ [r]) = errors l + (if is_error_info r then 1 else 0).
Proof. unfold errors. rewrite sum_list_with_app. simpl. lia. Qed.

Lemma successes_snoc l r :
  successes (l ++ [r]) = successes l + (if is_error_info r then 0 else 1).
Proof. unfold successes. rewrite sum_list_with_app. simpl. lia. Qed.

Lemma Inv_recv s s' : Inv s → exec ARecv s = Some s' → Inv s'.
Proof.
  intros HI He. simpl in He.
  destruct (main s) as [|j|] eqn:Hm; try done.
  case_decide as Hj; [|done].
  destruct (chan_recv (resultChan s)) as [[res rc]|] eqn:Hr; simplify_eq/=.
  apply chan_recv_Some in Hr as [Hbuf Hc].
  destruct HI as [? Hcap Hsem ? Hsp Hmain Hsd Hch (outs & HF & HP) (HT & HS & HFl) ? Hcd].
  rewrite Hm in Hsp, Hmain. rewrite Hbuf in Hch, HP.
  apply Forall_cons in Hch as [(w & t & ->) Hch].
  split; simpl; try done.
  - congruence.
  - rewrite length_app. simpl. lia.
  - exists outs. split; [done|]. rewrite <-HP. simpl. solve_Permutation.
  - rewrite errors_snoc, successes_snoc, item_err_mark.
    destruct (err (item w t)); simpl; lia.
Qed.

Lemma Inv_return s s' w : Inv s → exec (AReturn w) s = Some s' → Inv s'.
Proof.
  intros HI He. simpl in He.
  destruct (main s) as [|j|] eqn:Hm; try done.
  case_decide as Hj; [done|]. simplify_eq/=.
  destruct HI as [? Hcap Hsem ? Hsp Hmain Hsd Hch Hout Hcnt ? Hcd].
  rewrite Hm in Hsp, Hmain.
  split; simpl; try done. lia.
Qed.

Lemma Inv_step s s' : Inv s → step s s' → Inv s'.
Proof.
  intros HI [a He]. destruct a;
    eauto using Inv_spawn, Inv_acquire, Inv_analyze, Inv_send, Inv_release,
                Inv_recv, Inv_return.
Qed.

Lemma Inv_reachable s : reachable s → Inv s.
Proof.
  intros (t0 & t1 & Hr). revert s Hr. apply rtc_ind_r.
  - apply Inv_init.
  - intros s s' _ Hstep HI. by apply (Inv_step s).
Qed.

(** *** Every communication uses up the measure. *)

Lemma step_measure s s' : step s s' → measure s' < measure s.
Proof.
  intros [a He]. unfold measure.
  destruct a; rewrite ?exec_analyze in He; simpl in He.
  - destruct (main s) as [k| |] eqn:Hm; try done.
    destruct (IPs request !! k) as [ip|] eqn:Hip; simplify_eq/=.
    pose proof (lookup_lt_Some _ _ _ Hip) as Hk.
    rewrite sum_list_with_app. unfold spawn_from. simpl.
    case_decide; simpl; unfold todo; simpl; lia.
  - destruct (goroutines s !! i) as [g|] eqn:Hg; simplify_eq/=.
    destruct (at_pc g) eqn:Hat; try done.
    destruct (chan_send () (semaphore s)); simplify_eq/=.
    pose proof (move_sum _ i g Analyzing Hg todo) as Hh.
    unfold todo in *. simpl in Hh. rewrite Hat in Hh. lia.
  - destruct (goroutines s !! i) as [g|] eqn:Hg; simplify_eq/=.
    destruct (at_pc g) eqn:Hat; simplify_eq/=.
    pose proof (move_sum _ i g (Sending (item w (targetIP g))) Hg todo) as Hh.
    unfold todo in *. simpl in Hh. rewrite Hat in Hh. lia.
  - destruct (goroutines s !! i) as [g|] eqn:Hg; simplify_eq/=.
    destruct (at_pc g) eqn:Hat; try done.
    destruct (chan_send res (resultChan s)); simplify_eq/=.
    pose proof (move_sum _ i g Releasing Hg todo) as Hh.
    unfold todo in *. simpl in Hh. rewrite Hat in Hh. lia.
  - destruct (goroutines s !! i) as [g|] eqn:Hg; simplify_eq/=.
    destruct (at_pc g) eqn:Hat; try done.
    destruct (chan_recv (semaphore s)) as [[? ?]|]; simplify_eq/=.
    pose proof (move_sum _ i g Exited Hg todo) as Hh.
    unfold todo in *. simpl in Hh. rewrite Hat in Hh. lia.
  - destruct (main s) as [|j|] eqn:Hm; try done.
    case_decide; [|done].
    destruct (chan_recv (resultChan s)) as [[? ?]|]; simplify_eq/=. lia.
  - destruct (main s) as [|j|] eqn:Hm; try done.
    case_decide; [done|]. simplify_eq/=. lia.
Qed.

Lemma step_sn s : sn step s.
Proof.
  remember (S (measure s)) as n eqn:Hn.
  assert (measure s < n) as Hlt by lia. clear Hn.
  revert s Hlt. induction n as [|n IH]; intros s Hlt; [lia|].
  constructor. intros s' Hs'. apply IH.
  apply step_measure in Hs'. lia.
Qed.

(** *** No schedule blocks before everything is done. *)

Definition sending (g : goroutine) : nat :=
  match at_pc g with Sending _ => 1 | _ => 0 end.

Definition releasing (g : goroutine) : nat :=
  match at_pc g with Releasing => 1 | _ => 0 end.

Lemma holding_split gs :
  sum_list_with holding gs =
  sum_list_with in_flight gs + sum_list_with sending gs + sum_list_with releasing gs.
Proof.
  induction gs as [|g gs IH]; simpl; [done|]. rewrite IH.
  unfold holding, in_flight, sending, releasing. destruct (at_pc g); lia.
Qed.

Lemma sent_outs_length gs outs :
  Forall2 sent_by gs outs → length (concat outs) = sum_list_with sent gs.
Proof.
  induction 1 as [|g o gs outs Hgo _ IH]; simpl; [done|].
  rewrite length_app, IH. unfold sent_by, sent in *.
  destruct (at_pc g); [by subst o..|by destruct Hgo as [w ->]|by destruct Hgo as [w ->]].
Qed.

Lemma sent_bound g : sent g ≤ 1.
Proof. unfold sent. destruct (at_pc g); lia. Qed.

(** What is collected and what waits in the channel is what was sent. *)
Lemma Inv_sent s :
  Inv s →
  length (Results (result s)) + length (buf (resultChan s))
  = sum_list_with sent (goroutines s).
Proof.
  intros [_ _ _ _ _ _ _ _ (outs & HF & HP) _ _].
  rewrite <-(sent_outs_length _ _ HF), <-HP, length_app, length_fmap. done.
Qed.

Lemma Inv_goroutines s : Inv s → length (goroutines s) = spawned (main s) ∧ spawned (main s) ≤ N.
Proof.
  intros HI. pose proof (inv_spawned _ HI) as Hsp. pose proof (inv_main _ HI) as Hm.
  apply (f_equal length) in Hsp. rewrite length_fmap, length_take in Hsp.
  destruct (main s); simpl in *; lia.
Qed.

Lemma goroutine_progress (w : World) s :
  Inv s →
  0 < sum_list_with todo (goroutines s) →
  length (buf (resultChan s)) < N →
  ∃ s', step s s'.
Proof.
  intros HI Htodo Hroom.
  pose proof (inv_sem _ HI) as Hsem. rewrite holding_split in Hsem.
  destruct (decide (0 < sum_list_with in_flight (goroutines s))) as [Hf|Hf].
  { apply sum_list_with_pos in Hf as (j & g & Hg & Hpos).
    unfold in_flight in Hpos. destruct (at_pc g) eqn:Hat; try lia.
    eexists. exists (AAnalyze j w). simpl. rewrite Hg. simpl. by rewrite Hat. }
  destruct (decide (0 < sum_list_with sending (goroutines s))) as [Hs|Hs].
  { apply sum_list_with_pos in Hs as (j & g & Hg & Hpos).
    unfold sending in Hpos. destruct (at_pc g) as [| |res| |] eqn:Hat; try lia.
    eexists. exists (ASend j). simpl. rewrite Hg. simpl. rewrite Hat.
    unfold chan_send. rewrite (inv_chan_cap _ HI).
    by rewrite decide_True by done. }
  destruct (decide (0 < sum_list_with releasing (goroutines s))) as [Hr|Hr].
  { pose proof Hr as Hr'.
    apply sum_list_with_pos in Hr as (j & g & Hg & Hpos).
    unfold releasing in Hpos. destruct (at_pc g) eqn:Hat; try lia.
    destruct (buf (semaphore s)) as [|[] rest] eqn:Hbuf; simpl in Hsem; [lia|].
    eexists. exists (ARelease j). simpl. rewrite Hg. simpl. rewrite Hat.
    unfold chan_recv. by rewrite Hbuf. }
  apply sum_list_with_pos in Htodo as (j & g & Hg & Hpos).
  assert (in_flight g = 0 ∧ sending g = 0 ∧ releasing g = 0) as (H1 & H2 & H3).
  { pose proof (sum_list_with_in g in_flight (goroutines s)) as H1.
    pose proof (sum_list_with_in g sending (goroutines s)) as H2.
    pose proof (sum_list_with_in g releasing (goroutines s)) as H3.
    assert (g ∈ goroutines s) as Hin by (by eapply list_elem_of_lookup_2).
    specialize (H1 Hin). specialize (H2 Hin). specialize (H3 Hin). lia. }
  unfold todo in Hpos. unfold in_flight in H1. unfold sending in H2.
  unfold releasing in H3.
  destruct (at_pc g) eqn:Hat; try lia.
  eexists. exists (AAcquire j). simpl. rewrite Hg. simpl. rewrite Hat.
  unfold chan_send. rewrite (inv_sem_cap _ HI).
  by rewrite decide_True by lia.
Qed.

Lemma sent_todo gs :
  sum_list_with sent gs < length gs → 0 < sum_list_with todo gs.
Proof.
  induction gs as [|g gs IH]; simpl; [lia|].
  pose proof (sum_list_with_bound sent gs sent_bound).
  unfold sent, todo in *. destruct (at_pc g); lia.
Qed.

Lemma progress (w : World) s : Inv s → 0 < measure s → ∃ s', step s s'.
Proof.
  intros HI Hpos. unfold measure in Hpos.
  pose proof (Inv_sent _ HI) as Hsent.
  pose proof (Inv_goroutines _ HI) as [Hlen HleN].
  pose proof (inv_main _ HI) as Hmain.
  destruct (main s) as [k|i|] eqn:Hm; simpl in *.
  - destruct Hmain as [Hk _].
    destruct (lookup_lt_is_Some_2 (IPs request) k Hk) as [ip Hip].
    eexists. exists ASpawn. simpl. rewrite Hm, Hip. done.
  - destruct Hmain as [Hi Hres].
    destruct (decide (i < N)) as [Hlt|Hge].
    + destruct (buf (resultChan s)) as [|res rest] eqn:Hbuf.
      * apply (goroutine_progress w); [done| |rewrite Hbuf; simpl; lia].
        apply sent_todo. simpl in Hsent. lia.
      * eexists. exists ARecv. simpl. rewrite Hm.
        rewrite decide_True by done. unfold chan_recv. by rewrite Hbuf.
    + eexists. exists (AReturn w). simpl. rewrite Hm.
      by rewrite decide_False by done.
  - pose proof (sum_list_with_bound sent (goroutines s) sent_bound).
    apply (goroutine_progress w); [done|lia|].
    destruct (goroutines s); simpl in *; lia.
Qed.

(** Everything is done: the main flow is back in its caller and every
    goroutine has ended. *)
Definition quiescent (s : state) : Prop :=
  main s = Returned ∧ Forall (λ g, at_pc g = Exited) (goroutines s).

Lemma measure_0_quiescent s : measure s = 0 → quiescent s.
Proof.
  unfold measure. intros H0. split.
  - destruct (main s); simpl in *; [lia|lia|done].
  - assert (sum_list_with todo (goroutines s) = 0) as Hs by lia. clear H0.
    induction (goroutines s) as [|g gs IH]; simpl in *; constructor.
    + unfold todo in Hs. destruct (at_pc g); try done; lia.
    + apply IH. lia.
Qed.

Lemma completes (w : World) s :
  Inv s → ∃ s', rtc step s s' ∧ quiescent s'.
Proof.
  remember (measure s) as n eqn:Hn. revert s Hn.
  induction (lt_wf n) as [n _ IH]. intros s -> HI.
  destruct (decide (measure s = 0)) as [H0|Hpos].
  - exists s. split; [done|]. by apply measure_0_quiescent.
  - destruct (progress w s HI) as [s1 Hs1]; [lia|].
    destruct (IH (measure s1) (step_measure _ _ Hs1) s1 eq_refl) as (s' & Hr & Hq).
    { by apply (Inv_step s). }
    exists s'. split; [|done]. by eapply rtc_l.
Qed.

(** *** What the caller gets back. *)

(** The outcomes of the items of [ts], item by item, when the world answers
    [ws]. *)
Definition outcomes (ts : list string) (ws : list World) : list IPInfo :=
  zip_with (λ t w, info (item w t)) ts ws.

(** The input strings that are not IP addresses. *)
Definition invalid (ts : list string) : list string :=
  filter (λ t, ParseIP t = None) ts.

Lemma sent_outs_full gs outs :
  Forall2 sent_by gs outs →
  Forall (λ g, sent g = 1) gs →
  ∃ ws, length ws = length gs ∧ concat outs = outcomes (targetIP <$> gs) ws.
Proof.
  induction 1 as [|g o gs outs Hgo _ IH]; intros Hall.
  - by exists [].
  - apply Forall_cons in Hall as [Hg Hall].
    destruct (IH Hall) as (ws & Hlen & Hws).
    unfold sent_by in Hgo. unfold sent in Hg.
    destruct (at_pc g); try done; destruct Hgo as [w ->];
      exists (w :: ws); simpl; rewrite Hws; auto.
Qed.

Lemma returned_results s :
  Inv s → main s = Returned →
  buf (resultChan s) = [] ∧
  ∃ ws, length ws = N ∧ Results (result s) ≡ₚ outcomes (IPs request) ws.
Proof.
  intros HI Hm.
  pose proof (Inv_sent _ HI) as Hsent.
  pose proof (Inv_goroutines _ HI) as [Hlen _].
  pose proof (inv_main _ HI) as Hmain.
  pose proof (inv_spawned _ HI) as Hsp.
  destruct (inv_outs _ HI) as (outs & HF & HP).
  rewrite Hm in *. simpl in *.
  pose proof (sum_list_with_bound sent (goroutines s) sent_bound) as Hb.
  assert (buf (resultChan s) = []) as Hbuf.
  { apply length_zero_iff_nil. lia. }
  split; [done|].
  destruct (sent_outs_full _ _ HF) as (ws & Hws & Hout).
  { apply sum_list_with_full; [apply sent_bound|]. rewrite Hbuf in Hsent.
    simpl in Hsent. lia. }
  exists ws. split; [lia|].
  rewrite Hbuf in HP. simpl in HP. rewrite (right_id_L [] (++)) in HP.
  rewrite HP, Hout, Hsp. by rewrite take_ge by lia.
Qed.

Lemma outcomes_IP ts ws :
  length ws = length ts → ip_IP <$> outcomes ts ws = ts.
Proof.
  revert ws. induction ts as [|t ts IH]; intros [|w ws] Hlen; simplify_eq/=; [done|].
  by rewrite item_IP, IH.
Qed.

Lemma outcomes_errors ts ws :
  length ws = length ts → errors (outcomes ts ws) = length (invalid ts).
Proof.
  revert ws. unfold invalid.
  induction ts as [|t ts IH]; intros [|w ws] Hlen; simplify_eq/=; [done|].
  unfold errors in *. simpl. rewrite IH by done.
  rewrite item_mark, filter_cons. by case_decide; simplify_eq/=;
    [rewrite bool_decide_true|rewrite bool_decide_false].
Qed.

Lemma successes_errors l : successes l + errors l = length l.
Proof.
  unfold successes, errors. induction l as [|r l IH]; simpl; [done|].
  destruct (is_error_info r); lia.
Qed.

(** The marker of a failed item, whatever the clock said. *)
Definition is_failure_marker (target : string) (r : IPInfo) : Prop :=
  ip_IP r = target ∧ ip_Version r = "Unknown"%string ∧ ip_Type r = "error"%string ∧
  ip_Geolocation r = None ∧ ip_ISP r = None ∧ ip_Security r = None ∧ ip_DNS r = None.

Lemma item_failure w t :
  ParseIP t = None →
  is_failure_marker t (info (item w t)) ∧ is_Some (err (item w t)).
Proof.
  intros Hp. unfold analyze_item, item_result, item_call, call_AnalyzeIP, AnalyzeIP; simpl. rewrite Hp. simpl.
  by repeat split.
Qed.

Lemma outcomes_elem ts ws r :
  length ws = length ts →
  r ∈ outcomes ts ws → ∃ w t, t ∈ ts ∧ r = info (item w t).
Proof.
  revert ws. induction ts as [|t ts IH]; intros [|w ws] Hlen Hin; simplify_eq/=.
  - by apply elem_of_nil in Hin.
  - apply elem_of_cons in Hin as [->|Hin].
    + exists w, t. split; [left|done].
    + destruct (IH ws) as (w' & t' & Ht' & ->); [done..|].
      exists w', t'. split; [by right|done].
Qed.

Lemma outcomes_lookup ts ws t :
  length ws = length ts →
  t ∈ ts → ∃ w, info (item w t) ∈ outcomes ts ws.
Proof.
  revert ws. induction ts as [|t' ts IH]; intros [|w ws] Hlen Hin; simplify_eq/=.
  - by apply elem_of_nil in Hin.
  - apply elem_of_cons in Hin as [->|Hin].
    + exists w. left.
    + destruct (IH ws) as (w' & Hw'); [done..|]. exists w'. by right.
Qed.

Lemma returns_Some s r :
  returns s = Some r ↔ main s = Returned ∧ r = Ok (result s).
Proof.
  unfold returns. destruct (main s); split; try done; try by intros [? _].
  - by intros [= <-].
  - by intros [_ ->].
Qed.

Lemma returns_None s : returns s = None ↔ main s ≠ Returned.
Proof. unfold returns. by destruct (main s). Qed.

Lemma not_returned_measure s : main s ≠ Returned → 0 < measure s.
Proof. unfold measure. destruct (main s); simpl; [lia|lia|done]. Qed.

(** The summary of a returned call, from the input alone. *)
Lemma returned_summary s :
  Inv s → main s = Returned →
  length (Results (result s)) = N ∧
  ip_IP <$> Results (result s) ≡ₚ IPs request ∧
  Total (Summary (result s)) = Z.of_nat N ∧
  Failed (Summary (result s)) = Z.of_nat (length (invalid (IPs request))) ∧
  Successful (Summary (result s))
  = Z.of_nat (N - length (invalid (IPs request))).
Proof.
  intros HI Hm.
  destruct (returned_results s HI Hm) as (_ & ws & Hws & HP).
  destruct (inv_counts _ HI) as (HT & HS & HF).
  pose proof (inv_main _ HI) as Hmain. rewrite Hm in Hmain.
  pose proof (successes_errors (Results (result s))) as Hse.
  assert (errors (Results (result s)) = length (invalid (IPs request))) as He.
  { unfold errors. rewrite HP. by apply outcomes_errors. }
  repeat split; try done.
  - by rewrite HP, outcomes_IP.
  - by rewrite HF, He.
  - rewrite HS. f_equal. lia.
Qed.

(** When the call returns every goroutine has made its call. *)
Lemma returned_calls s :
  Inv s → main s = Returned → length (calls s) = N.
Proof.
  intros HI Hm.
  pose proof (Inv_sent _ HI) as Hsent.
  pose proof (Inv_goroutines _ HI) as [Hlen _].
  pose proof (inv_main _ HI) as Hmain.
  rewrite (inv_called _ HI). rewrite Hm in *. simpl in *.
  assert (∀ gs, sum_list_with sent gs ≤ sum_list_with called gs
                ∧ sum_list_with called gs ≤ length gs) as Hb.
  { induction gs as [|g gs [IH1 IH2]]; simpl; [lia|].
    unfold sent, called in *. destruct (at_pc g); lia. }
  specialize (Hb (goroutines s)). lia.
Qed.

Lemma run_steps acts s s' : run ctx request acts s = Some s' → rtc step s s'.
Proof.
  revert s. induction acts as [|a acts IH]; intros s Hrun; simplify_eq/=; [done|].
  destruct (exec a s) as [s1|] eqn:He; simplify_eq/=.
  eapply rtc_l; [by exists a|by apply IH].
Qed.

Lemma run_reachable acts t0 t1 s :
  run ctx request acts (init request t0 t1) = Some s → reachable s.
Proof. intros Hrun. exists t0, t1. by apply run_steps in Hrun. Qed.

(** *** The permits. *)

Lemma Inv_in_flight s :
  Inv s → sum_list_with in_flight (goroutines s) ≤ length (buf (semaphore s)) ≤ 10.
Proof.
  intros HI. pose proof (inv_sem _ HI) as Hsem. pose proof (inv_sem_le _ HI).
  rewrite holding_split in Hsem. lia.
Qed.

Lemma quiescent_semaphore s : Inv s → quiescent s → buf (semaphore s) = [].
Proof.
  intros HI [_ Hq]. pose proof (inv_sem _ HI) as Hsem.
  apply length_zero_iff_nil. rewrite Hsem. clear Hsem.
  induction Hq as [|g gs Hg _ IH]; simpl; [done|].
  rewrite IH. unfold holding. by rewrite Hg.
Qed.

Lemma release_enabled s i g :
  Inv s → goroutines s !! i = Some g → at_pc g = Releasing →
  is_Some (exec (ARelease i) s).
Proof.
  intros HI Hg Hat. simpl. rewrite Hg. simpl. rewrite Hat.
  pose proof (inv_sem _ HI) as Hsem.
  pose proof (sum_list_with_in g holding (goroutines s)) as Hin.
  unfold holding in Hin at 1. rewrite Hat in Hin.
  destruct (buf (semaphore s)) as [|[] rest] eqn:Hbuf.
  - simpl in Hsem. assert (g ∈ goroutines s) by (by eapply list_elem_of_lookup_2).
    specialize (Hin H). lia.
  - unfold chan_recv. rewrite Hbuf. by eexists.
Qed.

End Invariant.
End BulkProofs.

(** ** lookupAll: what every schedule preserves *)

Module AllProofs.
Section Invariant.
Context `{NL : NetLib}.
Variable domain : string.
Import lookupAll.

Local Abbreviation K := (length types).
Local Abbreviation exec := (lookupAll.exec domain).
Local Abbreviation step := (lookupAll.step domain).
Local Abbreviation reachable := (lookupAll.reachable domain).

(** [recs] is what a goroutine sends for record type [t]: the records of
    some answer of [LookupDNS], nothing if that answer is an error. *)
Definition answers (t : string) (recs : list DNSRecord) : Prop :=
  ∃ w r, LookupDNS_direct w Background domain t = Some r ∧ recs = records_or_empty r.

Definition sent (g : goroutine) : nat :=
  match at_pc g with Exited => 1 | _ => 0 end.

Definition todo (g : goroutine) : nat :=
  match at_pc g with Looking => 2 | Sending _ => 1 | Exited => 0 end.

(** The ones whose call of [LookupDNS] has been made. *)
Definition called (g : goroutine) : nat :=
  match at_pc g with Looking => 0 | _ => 1 end.

Definition main_todo (m : mpc) : nat :=
  match m with
  | Spawning k => 3 * (K - k) + K + 1
  | Collecting i => K - i + 1
  | Returned => 0
  end.

Definition measure (s : state) : nat :=
  main_todo (main s) + sum_list_with todo (goroutines s).

Definition spawned (m : mpc) : nat :=
  match m with Spawning k => k | _ => K end.

Definition collected (m : mpc) : nat :=
  match m with Spawning _ => 0 | Collecting i => i | Returned => K end.

Definition sent_by (g : goroutine) (o : list DNSRecord) : Prop :=
  match at_pc g with
  | Exited => answers (rType g) o
  | _ => o = []
  end.

Record Inv (s : state) : Prop := {
  inv_chan_cap : cap (resultChan s) = K;
  inv_spawned : rType <$> goroutines s = take (spawned (main s)) types;
  inv_main :
    match main s with
    | Spawning k => k < K
    | Collecting i => i ≤ K
    | Returned => True
    end;
  inv_collected :
    collected (main s) + length (buf (resultChan s))
    = sum_list_with sent (goroutines s);
  inv_sending :
    Forall (λ g, ∀ recs, at_pc g = Sending recs → answers (rType g) recs)
           (goroutines s);
  inv_outs :
    ∃ outs, Forall2 sent_by (goroutines s) outs ∧
            allRecords s ++ concat (buf (resultChan s)) ≡ₚ concat outs;
  inv_calls : Forall (λ c, c.1.1 = Background) (calls s);
  inv_called : length (calls s) = sum_list_with called (goroutines s);
}.

Lemma all_spawn_from_spawned k : k ≤ K → spawned (spawn_from k) = k.
Proof. unfold spawn_from. case_decide; simpl in *; lia. Qed.

Lemma spawn_from_collected k : collected (spawn_from k) = 0.
Proof. unfold spawn_from. by case_decide. Qed.

Lemma all_move_lookup i pc gs g :
  gs !! i = Some g →
  move i pc gs = <[i := {| rType := rType g; at_pc := pc |}]> gs.
Proof. unfold move. by intros ->. Qed.

Lemma all_Inv_init : Inv init.
Proof.
  split; simpl; try done.
  - lia.
  - exists []. split; [constructor|done].
Qed.

Section Move.
Variables (gs : list goroutine) (i : nat) (g : goroutine) (pc : gpc).
Hypothesis Hg : gs !! i = Some g.
Let g' := {| rType := rType g; at_pc := pc |}.

Lemma move_types : rType <$> move i pc gs = rType <$> gs.
Proof.
  rewrite (all_move_lookup _ _ _ _ Hg), list_fmap_insert. simpl.
  apply list_insert_id. by rewrite list_lookup_fmap, Hg.
Qed.

Lemma all_move_sum (f : goroutine → nat) :
  sum_list_with f (move i pc gs) + f g = sum_list_with f gs + f g'.
Proof. rewrite (all_move_lookup _ _ _ _ Hg). by apply sum_list_with_insert. Qed.

Lemma all_move_sending :
  (∀ recs, pc = Sending recs → answers (rType g) recs) →
  Forall (λ g, ∀ recs, at_pc g = Sending recs → answers (rType g) recs) gs →
  Forall (λ g, ∀ recs, at_pc g = Sending recs → answers (rType g) recs)
         (move i pc gs).
Proof.
  intros Hpc HF. rewrite (all_move_lookup _ _ _ _ Hg). by apply Forall_insert.
Qed.

Lemma move_outs o :
  (∀ o0, sent_by g o0 → o0 = []) →
  sent_by g' o →
  ∀ outs, Forall2 sent_by gs outs →
  Forall2 sent_by (move i pc gs) (<[i := o]> outs) ∧
  concat (<[i := o]> outs) ≡ₚ concat outs ++ o.
Proof.
  intros Hnil Ho outs HF. rewrite (all_move_lookup _ _ _ _ Hg).
  destruct (Forall2_lookup_l _ _ _ _ _ HF Hg) as (o0 & Ho0 & Hgo).
  apply Hnil in Hgo. subst o0. split.
  - by apply Forall2_insert.
  - rewrite <-(concat_insert_perm outs i [] _ Ho0). by rewrite (right_id_L [] (++)).
Qed.

End Move.

Lemma all_Inv_step s s' : Inv s → step s s' → Inv s'.
Proof.
  intros [Hcap Hsp Hmain Hcol Hsd (outs & HF & HP) Hcalls Hcd] [a He].
  destruct a; simpl in He.
  - (* ASpawn *)
    destruct (main s) as [k| |] eqn:Hm; try done.
    destruct (types !! k) as [t|] eqn:Ht; simplify_eq/=.
    pose proof (lookup_lt_Some _ _ _ Ht) as Hk.
    split; simpl; try done.
    + rewrite all_spawn_from_spawned by (simpl in *; lia).
      by rewrite (take_S_r _ _ _ Ht), fmap_app, Hsp.
    + unfold spawn_from. case_decide; simpl in *; lia.
    + rewrite spawn_from_collected, sum_list_with_app. simpl in *. lia.
    + apply Forall_app. split; [done|]. by repeat constructor.
    + exists (outs ++ [[]]). split.
      * apply Forall2_app; [done|]. by repeat constructor.
      * rewrite concat_app. simpl. by rewrite (right_id_L [] (++)).
    + rewrite sum_list_with_app. simpl. lia.
  - (* ALookup *)
    destruct (goroutines s !! i) as [g|] eqn:Hg; simplify_eq/=.
    destruct (at_pc g) eqn:Hat; try done.
    destruct (LookupDNS_direct w Background domain (rType g)) as [r|] eqn:Hr;
      simplify_eq/=.
    split; simpl; try done.
    + by rewrite (move_types _ _ g _ Hg).
    + pose proof (all_move_sum _ i g (Sending (records_or_empty r)) Hg sent) as Hh.
      unfold sent in *. simpl in Hh. rewrite Hat in Hh. lia.
    + apply (all_move_sending _ _ g _ Hg); [|done]. intros recs [= <-]. by exists w, r.
    + exists outs. split; [|done].
      destruct (Forall2_lookup_l _ _ _ _ _ HF Hg) as (o0 & Ho0 & Hgo).
      unfold sent_by in Hgo. rewrite Hat in Hgo. subst o0.
      destruct (move_outs _ i g (Sending (records_or_empty r)) Hg []) with (outs := outs)
        as [HF' _]; [unfold sent_by; by rewrite Hat|done|done|].
      by rewrite list_insert_id in HF'.
    + apply Forall_app. split; [done|]. by repeat constructor.
    + pose proof (all_move_sum _ i g (Sending (records_or_empty r)) Hg called) as Hh.
      unfold called in *. simpl in Hh. rewrite Hat in Hh.
      rewrite length_app. simpl. lia.
  - (* ASend *)
    destruct (goroutines s !! i) as [g|] eqn:Hg; simplify_eq/=.
    destruct (at_pc g) as [|recs|] eqn:Hat; try done.
    destruct (chan_send recs (resultChan s)) as [rc|] eqn:Hs; simplify_eq/=.
    apply chan_send_Some in Hs as [Hlt ->].
    assert (answers (rType g) recs) as Hrecs.
    { eapply Forall_lookup_1 in Hsd; [|exact Hg]. by apply Hsd. }
    split; simpl; try done.
    + by rewrite (move_types _ _ g _ Hg).
    + pose proof (all_move_sum _ i g Exited Hg sent) as Hh.
      unfold sent in *. simpl in Hh. rewrite Hat in Hh.
      rewrite length_app. simpl. lia.
    + by apply (all_move_sending _ _ g _ Hg).
    + destruct (move_outs _ i g Exited Hg recs) with (outs := outs)
        as [HF' HP']; [unfold sent_by; by rewrite Hat|done|done|].
      exists (<[i := recs]> outs). split; [done|].
      rewrite HP', concat_app, (assoc_L (++)). simpl.
      by rewrite HP, (right_id_L [] (++)).
    + pose proof (all_move_sum _ i g Exited Hg called) as Hh.
      unfold called in *. simpl in Hh. rewrite Hat in Hh. lia.
  - (* ARecv *)
    destruct (main s) as [|j|] eqn:Hm; try done.
    case_decide as Hj; [|done].
    destruct (chan_recv (resultChan s)) as [[recs rc]|] eqn:Hr; simplify_eq/=.
    apply chan_recv_Some in Hr as [Hbuf Hc].
    rewrite Hbuf in Hcol, HP. simpl in *.
    split; simpl; try done.
    + congruence.
    + rewrite <-Hcol. lia.
    + exists outs. split; [done|]. by rewrite <-HP, (assoc_L (++)).
  - (* AReturn *)
    destruct (main s) as [|j|] eqn:Hm; try done.
    case_decide as Hj; [done|]. simplify_eq/=.
    split; simpl; try done.
    + simpl in *. rewrite <-Hcol. lia.
    + by exists outs.
Qed.

Lemma all_Inv_reachable s : reachable s → Inv s.
Proof.
  revert s. apply rtc_ind_r.
  - apply all_Inv_init.
  - intros s s' _ Hstep HI. by apply (all_Inv_step s).
Qed.

(** *** Every communication uses up the measure. *)

Lemma all_step_measure s s' : step s s' → measure s' < measure s.
Proof.
  intros [a He]. unfold measure. destruct a; simpl in He.
  - destruct (main s) as [k| |] eqn:Hm; try done.
    destruct (types !! k) as [t|] eqn:Ht; simplify_eq/=.
    pose proof (lookup_lt_Some _ _ _ Ht) as Hk.
    rewrite sum_list_with_app. unfold spawn_from.
    case_decide; unfold main_todo, todo; simpl in *; lia.
  - destruct (goroutines s !! i) as [g|] eqn:Hg; simplify_eq/=.
    destruct (at_pc g) eqn:Hat; try done.
    destruct (LookupDNS_direct w Background domain (rType g)) as [r|];
      simplify_eq/=.
    pose proof (all_move_sum _ i g (Sending (records_or_empty r)) Hg todo) as Hh.
    unfold todo in *. simpl in Hh. rewrite Hat in Hh. lia.
  - destruct (goroutines s !! i) as [g|] eqn:Hg; simplify_eq/=.
    destruct (at_pc g) as [|recs|] eqn:Hat; try done.
    destruct (chan_send recs (resultChan s)); simplify_eq/=.
    pose proof (all_move_sum _ i g Exited Hg todo) as Hh.
    unfold todo in *. simpl in Hh. rewrite Hat in Hh. lia.
  - destruct (main s) as [|j|] eqn:Hm; try done.
    case_decide; [|done].
    destruct (chan_recv (resultChan s)) as [[? ?]|]; simplify_eq/=.
    unfold main_todo. simpl in *. lia.
  - destruct (main s) as [|j|] eqn:Hm; try done.
    case_decide; [done|]. simplify_eq/=. lia.
Qed.

Lemma all_step_sn s : sn step s.
Proof.
  remember (S (measure s)) as n eqn:Hn.
  assert (measure s < n) as Hlt by lia. clear Hn.
  revert s Hlt. induction n as [|n IH]; intros s Hlt; [lia|].
  constructor. intros s' Hs'. apply IH.
  apply all_step_measure in Hs'. lia.
Qed.

(** *** No schedule blocks before everything is done. *)

(** The six record types are upper-case ASCII: [strings.ToUpper] keeps
    them. *)
Lemma ToUpper_types t : t ∈ types → ToUpper t = t.
Proof.
  unfold types. intros Ht. repeat (apply elem_of_cons in Ht as [->|Ht]);
    [..|by apply elem_of_nil in Ht]; by rewrite ToUpper_ascii.
Qed.

(** None of the six record types sends [LookupDNS] back into [lookupAll]. *)
Lemma types_direct (w : World) (c : Context) t :
  t ∈ types → is_Some (LookupDNS_direct w c domain t).
Proof.
  intros Ht. unfold LookupDNS_direct, LookupDNS_switch.
  rewrite (ToUpper_types _ Ht). revert Ht.
  unfold types. intros Ht. repeat (apply elem_of_cons in Ht as [->|Ht]);
    [..|by apply elem_of_nil in Ht];
    destruct (String.eqb domain ""); simpl; eauto.
Qed.

Lemma all_sent_bound g : sent g ≤ 1.
Proof. unfold sent. destruct (at_pc g); lia. Qed.

Lemma all_Inv_goroutines s :
  Inv s → length (goroutines s) = spawned (main s) ∧ spawned (main s) ≤ K.
Proof.
  intros HI. pose proof (inv_spawned _ HI) as Hsp. pose proof (inv_main _ HI) as Hm.
  apply (f_equal length) in Hsp. rewrite length_fmap, length_take in Hsp.
  destruct (main s); simpl in *; lia.
Qed.

Lemma unsent_room gs g :
  g ∈ gs → sent g = 0 → sum_list_with sent gs < length gs.
Proof.
  induction 1 as [g gs|g g' gs _ IH]; intros Hg; simpl.
  - pose proof (sum_list_with_bound sent gs all_sent_bound). lia.
  - specialize (IH Hg). pose proof (all_sent_bound g'). lia.
Qed.

Lemma all_goroutine_progress (w : World) s :
  Inv s → 0 < sum_list_with todo (goroutines s) → ∃ s', step s s'.
Proof.
  intros HI Htodo.
  apply sum_list_with_pos in Htodo as (j & g & Hg & Hpos).
  assert (g ∈ goroutines s) as Hin by (by eapply list_elem_of_lookup_2).
  unfold todo in Hpos. destruct (at_pc g) as [|recs|] eqn:Hat; [| |lia].
  - destruct (types_direct w Background (rType g)) as [r Hr].
    { pose proof (inv_spawned _ HI) as Hsp.
      assert (rType g ∈ rType <$> goroutines s) as Ht by (by apply list_elem_of_fmap_2).
      rewrite Hsp in Ht. by eapply subseteq_take. }
    eexists. exists (ALookup j w). simpl. rewrite Hg. simpl. by rewrite Hat, Hr.
  - pose proof (unsent_room _ _ Hin) as Hroom.
    unfold sent in Hroom at 1. rewrite Hat in Hroom. specialize (Hroom eq_refl).
    pose proof (inv_collected _ HI) as Hcol.
    pose proof (all_Inv_goroutines _ HI) as [Hlen HK].
    eexists. exists (ASend j). simpl. rewrite Hg. simpl. rewrite Hat.
    unfold chan_send. rewrite (inv_chan_cap _ HI).
    by rewrite decide_True by lia.
Qed.

Lemma all_sent_todo gs :
  sum_list_with sent gs < length gs → 0 < sum_list_with todo gs.
Proof.
  induction gs as [|g gs IH]; simpl; [lia|].
  pose proof (sum_list_with_bound sent gs all_sent_bound).
  unfold sent, todo in *. destruct (at_pc g); lia.
Qed.

Lemma all_progress (w : World) s : Inv s → 0 < measure s → ∃ s', step s s'.
Proof.
  intros HI Hpos. unfold measure in Hpos.
  pose proof (inv_collected _ HI) as Hcol.
  pose proof (all_Inv_goroutines _ HI) as [Hlen HleK].
  pose proof (inv_main _ HI) as Hmain.
  destruct (main s) as [k|i|] eqn:Hm.
  - destruct (lookup_lt_is_Some_2 types k Hmain) as [t Ht].
    eexists. exists ASpawn. simpl. rewrite Hm, Ht. done.
  - destruct (decide (i < K)) as [Hlt|Hge].
    + destruct (buf (resultChan s)) as [|recs rest] eqn:Hbuf.
      * apply (all_goroutine_progress w); [done|].
        apply all_sent_todo. simpl in *. lia.
      * eexists. exists ARecv. simpl. rewrite Hm.
        rewrite decide_True by done. unfold chan_recv. by rewrite Hbuf.
    + eexists. exists AReturn. simpl. rewrite Hm.
      by rewrite decide_False by done.
  - apply (all_goroutine_progress w); [done|]. simpl in Hpos. lia.
Qed.

Definition quiescent (s : state) : Prop :=
  main s = Returned ∧ Forall (λ g, at_pc g = Exited) (goroutines s).

Lemma all_measure_0_quiescent s : measure s = 0 → quiescent s.
Proof.
  unfold measure. intros H0. split.
  - destruct (main s); simpl in *; [lia|lia|done].
  - assert (sum_list_with todo (goroutines s) = 0) as Hs by lia. clear H0.
    induction (goroutines s) as [|g gs IH]; simpl in *; constructor.
    + unfold todo in Hs. destruct (at_pc g); try done; lia.
    + apply IH. lia.
Qed.

Lemma all_completes (w : World) s :
  Inv s → ∃ s', rtc step s s' ∧ quiescent s'.
Proof.
  remember (measure s) as n eqn:Hn. revert s Hn.
  induction (lt_wf n) as [n _ IH]. intros s -> HI.
  destruct (decide (measure s = 0)) as [H0|Hpos].
  - exists s. split; [done|]. by apply all_measure_0_quiescent.
  - destruct (all_progress w s HI) as [s1 Hs1]; [lia|].
    destruct (IH (measure s1) (all_step_measure _ _ Hs1) s1 eq_refl) as (s' & Hr & Hq).
    { by apply (all_Inv_step s). }
    exists s'. split; [|done]. by eapply rtc_l.
Qed.

Lemma all_returns_Some s r :
  returns s = Some r ↔ main s = Returned ∧ r = Ok (allRecords s).
Proof.
  unfold returns. destruct (main s); split; try done; try by intros [? _].
  - by intros [= <-].
  - by intros [_ ->].
Qed.

Lemma all_returns_None s : returns s = None ↔ main s ≠ Returned.
Proof. unfold returns. by destruct (main s). Qed.

Lemma all_not_returned_measure s : main s ≠ Returned → 0 < measure s.
Proof. unfold measure. destruct (main s); simpl; [lia|lia|done]. Qed.

(** When the call returns every goroutine has made its call. *)
Lemma all_returned_calls s :
  Inv s → main s = Returned → length (calls s) = K.
Proof.
  intros HI Hm.
  pose proof (inv_collected _ HI) as Hcol.
  pose proof (all_Inv_goroutines _ HI) as [Hlen _].
  rewrite (inv_called _ HI). rewrite Hm in *. simpl in Hcol, Hlen.
  assert (∀ gs, sum_list_with sent gs ≤ sum_list_with called gs
                ∧ sum_list_with called gs ≤ length gs) as Hb.
  { induction gs as [|g gs [IH1 IH2]]; simpl; [lia|].
    unfold sent, called in *. destruct (at_pc g); lia. }
  specialize (Hb (goroutines s)). simpl. lia.
Qed.

Lemma all_run_steps acts s s' : run domain acts s = Some s' → rtc step s s'.
Proof.
  revert s. induction acts as [|a acts IH]; intros s Hrun; simplify_eq/=; [done|].
  destruct (exec a s) as [s1|] eqn:He; simplify_eq/=.
  eapply rtc_l; [by exists a|by apply IH].
Qed.

Lemma all_run_reachable acts s : run domain acts init = Some s → reachable s.
Proof. apply all_run_steps. Qed.

(** *** What the caller gets back. *)

Definition records_of (r : Result (list DNSRecord)) : list DNSRecord :=
  match r with Ok recs => recs | Err _ => [] end.

(** The helpers behind the six record types, in the order of [types]. *)
Definition helpers : list (World → string → Result (list DNSRecord)) :=
  [lookupA; lookupAAAA; lookupMX; lookupNS; lookupTXT; lookupCNAME].

(** The flattened union of the per-type record lists, when the world
    answers [ws] to the six lookups: a helper that fails contributes
    nothing, and so does every type when the domain is empty, since
    [LookupDNS] then fails before its switch. *)
Definition flattened_union (ws : list World) : list DNSRecord :=
  if String.eqb domain "" then []
  else concat (zip_with (λ look w, records_of (look w domain)) helpers ws).

Definition contribution (look : World → string → Result (list DNSRecord))
    (o : list DNSRecord) : Prop :=
  ∃ w, o = if String.eqb domain "" then [] else records_of (look w domain).

Lemma records_or_empty_finish w r :
  records_or_empty (LookupDNS_finish w domain r) = records_of r.
Proof. by destruct r. Qed.

Lemma direct_helper w c t look :
  (t, look) ∈ zip types helpers →
  LookupDNS_direct w c domain t =
  Some (if String.eqb domain "" then Err "domain cannot be empty"%string
        else LookupDNS_finish w domain (look w domain)).
Proof.
  intros Hin. unfold LookupDNS_direct, LookupDNS_switch.
  rewrite (ToUpper_types t) by (by eapply elem_of_zip_l).
  revert Hin. unfold types, helpers. simpl. intros Hin.
  repeat (apply elem_of_cons in Hin as [[= -> ->]|Hin]);
    [..|by apply elem_of_nil in Hin];
    by destruct (String.eqb domain "").
Qed.

Lemma answers_contribution t look o :
  (t, look) ∈ zip types helpers → answers t o → contribution look o.
Proof.
  intros Hin (w & r & Hr & ->). exists w.
  rewrite (direct_helper _ _ _ _ Hin) in Hr. simplify_eq.
  destruct (String.eqb domain ""); [done|]. apply records_or_empty_finish.
Qed.

Lemma Forall2_zip_impl {A B C} (P : A → C → Prop) (Q : B → C → Prop)
    (xs : list A) (ys : list B) (zs : list C) :
  length xs = length ys →
  (∀ x y z, (x, y) ∈ zip xs ys → P x z → Q y z) →
  Forall2 P xs zs → Forall2 Q ys zs.
Proof.
  intros Hlen Himp HF. revert ys Hlen Himp.
  induction HF as [|x z xs zs Hxz _ IH]; intros [|y ys] Hlen Himp;
    simplify_eq/=; constructor.
  - apply (Himp x); [left|done].
  - apply IH; [done|]. intros x' y' z' Hin. apply Himp. by right.
Qed.

Lemma contribution_union outs :
  Forall2 contribution helpers outs →
  ∃ ws, length ws = K ∧ concat outs = flattened_union ws.
Proof.
  unfold flattened_union. change K with (length helpers).
  generalize helpers. intros hs HF.
  induction HF as [|look o hs outs [w ->] _ (ws & Hlen & IH)]; simpl.
  - exists []. by destruct (String.eqb domain "").
  - exists (w :: ws). simpl. rewrite IH, Hlen.
    by destruct (String.eqb domain "").
Qed.

Lemma exited_outs gs outs :
  Forall2 sent_by gs outs →
  Forall (λ g, sent g = 1) gs →
  Forall2 answers (rType <$> gs) outs.
Proof.
  induction 1 as [|g o gs outs Hgo _ IH]; intros Hall; simpl; [constructor|].
  apply Forall_cons in Hall as [Hg Hall]. constructor; [|by apply IH].
  unfold sent_by in Hgo. unfold sent in Hg. by destruct (at_pc g).
Qed.

Lemma returned_records s :
  Inv s → main s = Returned →
  ∃ ws, length ws = K ∧ allRecords s ≡ₚ flattened_union ws.
Proof.
  intros HI Hm.
  pose proof (inv_collected _ HI) as Hcol.
  pose proof (all_Inv_goroutines _ HI) as [Hlen _].
  pose proof (inv_spawned _ HI) as Hsp.
  destruct (inv_outs _ HI) as (outs & HF & HP).
  rewrite Hm in *. simpl in Hcol, Hlen, Hsp.
  pose proof (sum_list_with_bound sent (goroutines s) all_sent_bound) as Hb.
  assert (buf (resultChan s) = []) as Hbuf.
  { apply length_zero_iff_nil. lia. }
  rewrite Hbuf in HP, Hcol. simpl in HP, Hcol.
  rewrite (right_id_L [] (++)) in HP.
  apply exited_outs in HF; [|apply sum_list_with_full; [apply all_sent_bound|lia]].
  rewrite Hsp in HF. change (take 6 types) with types in HF.
  apply (Forall2_zip_impl answers contribution types helpers) in HF;
    [|done|by intros t look o; apply answers_contribution].
  destruct (contribution_union _ HF) as (ws & Hws & Hc).
  exists ws. split; [done|]. by rewrite HP, Hc.
Qed.

Lemma Forall_map_all {A B} (P : B → Prop) (f : A → B) (l : list A) :
  (∀ x, P (f x)) → Forall P (map f l).
Proof. intros Hf. induction l; simpl; by constructor. Qed.

Lemma helper_TTL look w :
  look ∈ helpers → Forall (λ r, rr_TTL r = 300%Z) (records_of (look w domain)).
Proof.
  unfold helpers. intros Hin.
  repeat (apply elem_of_cons in Hin as [->|Hin]); [..|by apply elem_of_nil in Hin].
  - unfold lookupA. destruct (LookupIP w domain) as [ips|]; simpl; [|done].
    induction ips as [|ip ips IH]; simpl; [done|].
    destruct (To4 ip); simpl; [by constructor|done].
  - unfold lookupAAAA. destruct (LookupIP w domain) as [ips|]; simpl; [|done].
    induction ips as [|ip ips IH]; simpl; [done|].
    destruct (To4 ip); simpl; [done|by constructor].
  - unfold lookupMX. destruct (LookupMX w domain); simpl; [|done].
    by apply Forall_map_all.
  - unfold lookupNS. destruct (LookupNS w domain); simpl; [|done].
    by apply Forall_map_all.
  - unfold lookupTXT. destruct (LookupTXT w domain); simpl; [|done].
    by apply Forall_map_all.
  - unfold lookupCNAME. destruct (LookupCNAME w domain); simpl; [|done].
    by repeat constructor.
Qed.

Lemma flattened_union_TTL ws :
  Forall (λ r, rr_TTL r = 300%Z) (flattened_union ws).
Proof.
  unfold flattened_union. destruct (String.eqb domain ""); [done|].
  assert (Forall (λ look, look ∈ helpers) helpers) as Hall
    by (by apply Forall_forall).
  revert ws Hall. generalize helpers at 2 3. intros hs.
  induction hs as [|look hs IH]; intros [|w ws] Hall; simpl; try done.
  apply Forall_cons in Hall as [Hlook Hall].
  apply Forall_app. split; [by apply helper_TTL|by apply IH].
Qed.

End Invariant.
End AllProofs.

(** ** BulkAnalyzeIPs: what the analyses of a run give *)

Module BulkRuns.
Section Runs.
Context `{NL : NetLib}.
Variable ctx : Context.
Variable request : BulkAnalysisRequest.
Import BulkAnalyzeIPs.

Local Abbreviation N := (length (IPs request)).
Local Abbreviation item := (analyze_item ctx).
Local Abbreviation exec := (BulkAnalyzeIPs.exec ctx request).
Local Abbreviation run := (BulkAnalyzeIPs.run ctx request).

(** The worlds that answered the calls of [AnalyzeIP] goroutine [i] made
    along a schedule, in the order of the calls. *)
Fixpoint analyses_by (i : nat) (acts : list action) : list World :=
  match acts with
  | [] => []
  | AAnalyze j w :: rest =>
      if decide (j = i) then w :: analyses_by i rest else analyses_by i rest
  | _ :: rest => analyses_by i rest
  end.

(** What the caller is owed for target [t] when its analysis, made under
    the context [c], got the answers [w]: the analysis, or the marker of a
    failed item. *)
Definition answer_of (c : Context) (w : World) (t : string) (m : IPInfo) : Prop :=
  match AnalyzeIP w c t with
  | Ok i => m = i
  | Err _ => BulkProofs.is_failure_marker t m ∧ ip_Timestamp m = time_Now w
  end.

(** Goroutine [g], the [i]th, against the schedule that led to it: [o] is
    what it has put on the channel. *)
Definition tied_goroutine (acts : list action) (i : nat) (g : goroutine)
    (o : list IPInfo) : Prop :=
  match at_pc g with
  | Acquiring | Analyzing => analyses_by i acts = [] ∧ o = []
  | Sending res =>
      ∃ w, analyses_by i acts = [w] ∧ res = item w (targetIP g) ∧ o = []
  | Releasing | Exited =>
      ∃ w, analyses_by i acts = [w] ∧ o = [info (item w (targetIP g))]
  end.

Definition Tied (acts : list action) (s : state) : Prop :=
  ∃ outs,
    length outs = length (goroutines s) ∧
    (∀ i g o, goroutines s !! i = Some g → outs !! i = Some o →
              tied_goroutine acts i g o) ∧
    (∀ i, length (goroutines s) ≤ i → analyses_by i acts = []) ∧
    Results (result s) ++ (info <$> buf (resultChan s)) ≡ₚ concat outs.

Lemma analyses_by_app i acts1 acts2 :
  analyses_by i (acts1 ++ acts2) = analyses_by i acts1 ++ analyses_by i acts2.
Proof.
  induction acts1 as [|a acts1 IH]; simpl; [done|].
  destruct a; try done. case_decide; simpl; by rewrite IH.
Qed.

Lemma analyses_by_other i acts a :
  (∀ w, a ≠ AAnalyze i w) → analyses_by i (acts ++ [a]) = analyses_by i acts.
Proof.
  intros Ha. rewrite analyses_by_app. destruct a; simpl; try by rewrite app_nil_r.
  case_decide as Hi; [|by rewrite app_nil_r]. subst. by destruct (Ha w).
Qed.

Lemma analyses_by_snoc i acts w :
  analyses_by i (acts ++ [AAnalyze i w]) = analyses_by i acts ++ [w].
Proof. rewrite analyses_by_app. simpl. by rewrite decide_True. Qed.

Lemma bulk_tied_goroutine_same acts acts' i g o :
  analyses_by i acts' = analyses_by i acts →
  tied_goroutine acts i g o → tied_goroutine acts' i g o.
Proof. unfold tied_goroutine. by intros ->. Qed.

Lemma bulk_Tied_init t0 t1 : Tied [] (init request t0 t1).
Proof.
  exists []. split; [done|]. split; [by intros i g o [=]|]. by split.
Qed.

(** A goroutine that moves without calling and without sending. *)
Lemma bulk_Tied_move acts a s i g pc outs :
  (∀ j w, a ≠ AAnalyze j w) →
  goroutines s !! i = Some g →
  length outs = length (goroutines s) →
  (∀ j g' o, goroutines s !! j = Some g' → outs !! j = Some o →
             tied_goroutine acts j g' o) →
  (∀ o, tied_goroutine acts i g o →
        tied_goroutine acts i {| targetIP := targetIP g; at_pc := pc |} o) →
  ∀ j g' o, move i pc (goroutines s) !! j = Some g' → outs !! j = Some o →
            tied_goroutine (acts ++ [a]) j g' o.
Proof.
  intros Ha Hg Hlen Hgs Hpc j g' o Hg' Ho.
  pose proof (lookup_lt_Some _ _ _ Hg) as Hi.
  apply (bulk_tied_goroutine_same acts); [by apply analyses_by_other|].
  rewrite (BulkProofs.move_lookup _ _ _ _ Hg) in Hg'.
  destruct (decide (j = i)) as [->|Hne].
  - rewrite list_lookup_insert_eq in Hg' by done. simplify_eq.
    apply Hpc. by apply Hgs.
  - rewrite list_lookup_insert_ne in Hg' by lia. by apply Hgs.
Qed.

Lemma bulk_Tied_exec acts a s s' :
  Tied acts s → exec a s = Some s' → Tied (acts ++ [a]) s'.
Proof.
  intros (outs & Hlen & Hgs & Hrest & HP) He.
  destruct a; rewrite ?(BulkProofs.exec_analyze ctx request) in He; simpl in He.
  - (* ASpawn *)
    destruct (main s) as [k| |] eqn:Hm; try done.
    destruct (IPs request !! k) as [t|] eqn:Ht; simplify_eq/=.
    exists (outs ++ [[]]). simpl. split; [rewrite !length_app; simpl; lia|].
    split; [|split].
    + intros i g o Hg Ho.
      apply (bulk_tied_goroutine_same acts); [by apply analyses_by_other|].
      destruct (decide (i < length (goroutines s))) as [Hi|Hi].
      * rewrite lookup_app_l in Hg by done.
        rewrite lookup_app_l in Ho by lia. by apply Hgs.
      * rewrite lookup_app_r in Hg by lia. rewrite lookup_app_r in Ho by lia.
        rewrite Hlen in Ho.
        destruct (i - length (goroutines s)) as [|n] eqn:Hn; simplify_eq/=.
        split; [|done]. apply Hrest. lia.
    + intros i Hi. rewrite length_app in Hi. simpl in Hi.
      rewrite analyses_by_other by done. apply Hrest. lia.
    + rewrite concat_app. simpl. by rewrite (right_id_L [] (++)).
  - (* AAcquire *)
    destruct (goroutines s !! i) as [g|] eqn:Hg; simplify_eq/=.
    destruct (at_pc g) eqn:Hat; try done.
    destruct (chan_send () (semaphore s)) as [sem|] eqn:Hs; simplify_eq/=.
    exists outs. simpl.
    split; [by rewrite (BulkProofs.move_lookup _ _ _ _ Hg), length_insert|].
    split; [|split; [|done]].
    + apply (bulk_Tied_move acts _ s i g); try done.
      intros o. unfold tied_goroutine. by rewrite Hat.
    + intros j Hj. rewrite (BulkProofs.move_lookup _ _ _ _ Hg), length_insert in Hj.
      rewrite analyses_by_other by done. by apply Hrest.
  - (* AAnalyze *)
    destruct (goroutines s !! i) as [g|] eqn:Hg; simplify_eq/=.
    destruct (at_pc g) eqn:Hat; simplify_eq/=.
    pose proof (lookup_lt_Some _ _ _ Hg) as Hi.
    rewrite (BulkProofs.move_lookup _ _ _ _ Hg).
    exists outs. simpl. rewrite length_insert.
    split; [done|]. split; [|split; [|done]].
    + intros j g2 o Hg2 Ho. destruct (decide (j = i)) as [->|Hne].
      * rewrite list_lookup_insert_eq in Hg2 by done. simplify_eq.
        pose proof (Hgs i g o Hg Ho) as Hold.
        unfold tied_goroutine in *. rewrite Hat in Hold. destruct Hold as [Hl ->].
        simpl. exists w. by rewrite analyses_by_snoc, Hl.
      * rewrite list_lookup_insert_ne in Hg2 by lia.
        apply (bulk_tied_goroutine_same acts); [|by apply Hgs].
        apply analyses_by_other. by intros w' [=].
    + intros j Hj. rewrite analyses_by_other; [by apply Hrest|].
      intros w' [=]. lia.
  - (* ASend *)
    destruct (goroutines s !! i) as [g|] eqn:Hg; simplify_eq/=.
    destruct (at_pc g) as [| |res| |] eqn:Hat; try done.
    destruct (chan_send res (resultChan s)) as [rc|] eqn:Hs; simplify_eq/=.
    apply chan_send_Some in Hs as [Hlt ->]. simpl.
    pose proof (lookup_lt_Some _ _ _ Hg) as Hi.
    rewrite (BulkProofs.move_lookup _ _ _ _ Hg).
    assert (is_Some (outs !! i)) as [o0 Ho0]
      by (apply lookup_lt_is_Some_2; lia).
    pose proof (Hgs i g o0 Hg Ho0) as Hold.
    unfold tied_goroutine in Hold. rewrite Hat in Hold.
    destruct Hold as (w & Hl & -> & ->).
    exists (<[i := [info (item w (targetIP g))]]> outs). simpl.
    rewrite !length_insert.
    split; [done|]. split; [|split].
    + intros j g2 o Hg2 Ho. destruct (decide (j = i)) as [->|Hne].
      * rewrite list_lookup_insert_eq in Hg2 by done.
        rewrite list_lookup_insert_eq in Ho by lia. simplify_eq.
        unfold tied_goroutine. simpl. exists w.
        by rewrite analyses_by_other.
      * rewrite list_lookup_insert_ne in Hg2 by lia.
        rewrite list_lookup_insert_ne in Ho by lia.
        apply (bulk_tied_goroutine_same acts); [by apply analyses_by_other|].
        by apply Hgs.
    + intros j Hj. rewrite analyses_by_other by done. by apply Hrest.
    + pose proof (concat_insert_perm outs i [] [info (item w (targetIP g))] Ho0)
        as Hc.
      rewrite (right_id_L [] (++)) in Hc. rewrite Hc, fmap_app. simpl.
      by rewrite (assoc_L (++)), HP.
  - (* ARelease *)
    destruct (goroutines s !! i) as [g|] eqn:Hg; simplify_eq/=.
    destruct (at_pc g) eqn:Hat; try done.
    destruct (chan_recv (semaphore s)) as [[[] sem]|] eqn:Hs; simplify_eq/=.
    exists outs. simpl.
    split; [by rewrite (BulkProofs.move_lookup _ _ _ _ Hg), length_insert|].
    split; [|split; [|done]].
    + apply (bulk_Tied_move acts _ s i g); try done.
      intros o. unfold tied_goroutine. by rewrite Hat.
    + intros j Hj. rewrite (BulkProofs.move_lookup _ _ _ _ Hg), length_insert in Hj.
      rewrite analyses_by_other by done. by apply Hrest.
  - (* ARecv *)
    destruct (main s) as [|j|] eqn:Hm; try done.
    case_decide as Hj; [|done].
    destruct (chan_recv (resultChan s)) as [[res rc]|] eqn:Hr; simplify_eq/=.
    apply chan_recv_Some in Hr as [Hbuf Hc]. rewrite Hbuf in HP. simpl in HP.
    exists outs. split; [done|]. split; [|split].
    + intros i g o Hg Ho.
      apply (bulk_tied_goroutine_same acts); [by apply analyses_by_other|].
      by apply Hgs.
    + intros i Hi. rewrite analyses_by_other by done. by apply Hrest.
    + rewrite <-HP. simpl. solve_Permutation.
  - (* AReturn *)
    destruct (main s) as [|j|] eqn:Hm; try done.
    case_decide as Hj; [done|]. simplify_eq/=.
    exists outs. split; [done|]. split; [|split; [|done]].
    + intros i g o Hg Ho.
      apply (bulk_tied_goroutine_same acts); [by apply analyses_by_other|].
      by apply Hgs.
    + intros i Hi. rewrite analyses_by_other by done. by apply Hrest.
Qed.

Lemma bulk_Tied_run_from pre acts s0 s :
  Tied pre s0 → run acts s0 = Some s → Tied (pre ++ acts) s.
Proof.
  revert pre s0. induction acts as [|a acts IH]; intros pre s0 HT Hrun;
    simplify_eq/=.
  - by rewrite app_nil_r.
  - destruct (exec a s0) as [s1|] eqn:He; simplify_eq/=.
    rewrite (cons_middle a), (assoc_L (++)).
    apply (IH _ s1); [|done]. by apply (bulk_Tied_exec _ _ s0).
Qed.

Lemma bulk_Tied_run acts t0 t1 s :
  run acts (init request t0 t1) = Some s → Tied acts s.
Proof. apply (bulk_Tied_run_from [] acts), bulk_Tied_init. Qed.

(** Every reachable state is where some schedule ends. *)
Lemma bulk_run_snoc acts a s0 s s' :
  run acts s0 = Some s → exec a s = Some s' → run (acts ++ [a]) s0 = Some s'.
Proof.
  revert s0. induction acts as [|b acts IH]; intros s0 Hrun He; simplify_eq/=.
  - by rewrite He.
  - destruct (BulkAnalyzeIPs.exec ctx request b s0) as [s1|]; simplify_eq/=.
    by apply IH.
Qed.

Lemma bulk_reachable_run s :
  BulkAnalyzeIPs.reachable ctx request s →
  ∃ acts t0 t1, run acts (init request t0 t1) = Some s.
Proof.
  intros (t0 & t1 & Hr). revert s Hr. apply rtc_ind_r.
  - by exists [], t0, t1.
  - intros s s' _ [a He] (acts & t0' & t1' & Hrun).
    exists (acts ++ [a]), t0', t1'. by eapply bulk_run_snoc.
Qed.

Lemma bulk_sent_tied acts gs : ∀ k outs,
  length outs = length gs →
  (∀ i g o, gs !! i = Some g → outs !! i = Some o → tied_goroutine acts (k + i) g o) →
  Forall (λ g, BulkProofs.sent g = 1) gs →
  ∃ ws, Forall2 (λ i w, analyses_by i acts = [w]) (seq k (length gs)) ws ∧
        concat outs = BulkProofs.outcomes ctx (targetIP <$> gs) ws.
Proof.
  induction gs as [|g gs IH]; intros k [|o outs] Hlen Hgs Hex; simplify_eq/=.
  { exists []. by split. }
  apply Forall_cons in Hex as [Hat Hex].
  pose proof (Hgs 0 g o eq_refl eq_refl) as H0.
  rewrite Nat.add_0_r in H0.
  destruct (IH (S k) outs) as (ws & Hws & HC); [done| |done|].
  { intros i g' o' Hg' Ho'. specialize (Hgs (S i) g' o' Hg' Ho').
    by rewrite Nat.add_succ_r in Hgs. }
  unfold tied_goroutine in H0. unfold BulkProofs.sent in Hat.
  destruct (at_pc g); try done; destruct H0 as (w & Hl & ->);
    (exists (w :: ws); split; [by constructor|]; simpl; by rewrite HC).
Qed.

Lemma item_answer w t : answer_of ctx w t (info (item w t)).
Proof.
  unfold answer_of, analyze_item, item_result, item_call, call_AnalyzeIP. simpl.
  destruct (AnalyzeIP w ctx t) as [i|e] eqn:Ha; simpl; [done|].
  by repeat split.
Qed.

Lemma outcomes_answers ts ws :
  length ws = length ts →
  Forall2 (λ tw m, answer_of ctx tw.2 tw.1 m) (zip ts ws)
          (BulkProofs.outcomes ctx ts ws).
Proof.
  revert ws. induction ts as [|t ts IH]; intros [|w ws] Hlen; simplify_eq/=;
    constructor; [apply item_answer|by apply IH].
Qed.

(** Once the call has returned, each goroutine has analysed its target
    once, nobody else has, and the results are what the caller is owed for
    each target on the answers these analyses got, under the context of the
    call. *)
Lemma bulk_returned_tied acts t0 t1 s :
  run acts (init request t0 t1) = Some s → main s = Returned →
  ∃ ws ms,
    Forall2 (λ i w, analyses_by i acts = [w]) (seq 0 N) ws ∧
    (∀ i, N ≤ i → analyses_by i acts = []) ∧
    Results (result s) ≡ₚ ms ∧
    Forall2 (λ tw m, answer_of ctx tw.2 tw.1 m) (zip (IPs request) ws) ms.
Proof.
  intros Hrun Hm.
  pose proof (BulkProofs.Inv_reachable _ _ _
                (BulkProofs.run_reachable _ _ _ _ _ _ Hrun)) as HI.
  destruct (bulk_Tied_run _ _ _ _ Hrun) as (outs & Hlen & Hgs & Hrest & HP).
  pose proof (BulkProofs.Inv_sent _ _ _ HI) as Hsent.
  pose proof (BulkProofs.Inv_goroutines _ _ _ HI) as [Hn _].
  pose proof (BulkProofs.inv_main _ _ _ HI) as Hmain.
  pose proof (BulkProofs.inv_spawned _ _ _ HI) as Hsp.
  rewrite Hm in *. simpl in Hsent, Hn, Hmain, Hsp.
  pose proof (sum_list_with_bound BulkProofs.sent (goroutines s)
                BulkProofs.sent_bound) as Hb.
  assert (buf (resultChan s) = []) as Hbuf.
  { apply length_zero_iff_nil. lia. }
  rewrite Hbuf in HP, Hsent. simpl in HP, Hsent.
  rewrite (right_id_L [] (++)) in HP.
  destruct (bulk_sent_tied acts (goroutines s) 0 outs Hlen) as (ws & Hws & Houts);
    [done| |].
  { apply sum_list_with_full; [apply BulkProofs.sent_bound|lia]. }
  rewrite Hn in Hws, Hrest. rewrite Hsp, take_ge in Houts by lia.
  exists ws, (BulkProofs.outcomes ctx (IPs request) ws).
  split; [done|]. split; [done|]. split; [by rewrite HP, Houts|].
  apply outcomes_answers. apply Forall2_length in Hws.
  by rewrite length_seq in Hws.
Qed.

End Runs.
End BulkRuns.

(** ** lookupAll: what the lookups of a run give *)

Module AllRuns.
Section Runs.
Context `{NL : NetLib}.
Variable domain : string.
Import lookupAll.

Local Abbreviation exec := (lookupAll.exec domain).
Local Abbreviation run := (lookupAll.run domain).

(** The worlds that answered the calls of [LookupDNS] goroutine [i] made
    along a schedule, in the order of the calls. *)
Fixpoint lookups_by (i : nat) (acts : list action) : list World :=
  match acts with
  | [] => []
  | ALookup j w :: rest =>
      if decide (j = i) then w :: lookups_by i rest else lookups_by i rest
  | _ :: rest => lookups_by i rest
  end.

(** Goroutine [g], the [i]th, against the schedule that led to it: [o] is
    what it has put on the channel. *)
Definition tied_goroutine (acts : list action) (i : nat) (g : goroutine)
    (o : list DNSRecord) : Prop :=
  match at_pc g with
  | Looking => lookups_by i acts = [] ∧ o = []
  | Sending recs =>
      ∃ w r, lookups_by i acts = [w] ∧
             LookupDNS_direct w Background domain (rType g) = Some r ∧
             recs = records_or_empty r ∧ o = []
  | Exited =>
      ∃ w r, lookups_by i acts = [w] ∧
             LookupDNS_direct w Background domain (rType g) = Some r ∧
             o = records_or_empty r
  end.

Definition Tied (acts : list action) (s : state) : Prop :=
  ∃ outs,
    length outs = length (goroutines s) ∧
    (∀ i g o, goroutines s !! i = Some g → outs !! i = Some o →
              tied_goroutine acts i g o) ∧
    (∀ i, length (goroutines s) ≤ i → lookups_by i acts = []) ∧
    allRecords s ++ concat (buf (resultChan s)) ≡ₚ concat outs.

Lemma lookups_by_app i acts1 acts2 :
  lookups_by i (acts1 ++ acts2) = lookups_by i acts1 ++ lookups_by i acts2.
Proof.
  induction acts1 as [|a acts1 IH]; simpl; [done|].
  destruct a; try done. case_decide; simpl; by rewrite IH.
Qed.

Lemma lookups_by_other i acts a :
  (∀ w, a ≠ ALookup i w) → lookups_by i (acts ++ [a]) = lookups_by i acts.
Proof.
  intros Ha. rewrite lookups_by_app. destruct a; simpl; try by rewrite app_nil_r.
  case_decide as Hi; [|by rewrite app_nil_r]. subst. by destruct (Ha w).
Qed.

Lemma lookups_by_snoc i acts w :
  lookups_by i (acts ++ [ALookup i w]) = lookups_by i acts ++ [w].
Proof. rewrite lookups_by_app. simpl. by rewrite decide_True. Qed.

Lemma tied_goroutine_same acts acts' i g o :
  lookups_by i acts' = lookups_by i acts →
  tied_goroutine acts i g o → tied_goroutine acts' i g o.
Proof. unfold tied_goroutine. by intros ->. Qed.

Lemma Tied_init : Tied [] init.
Proof.
  exists []. split; [done|]. split; [by intros i g o [=]|]. by split.
Qed.

Lemma Tied_exec acts a s s' :
  Tied acts s → exec a s = Some s' → Tied (acts ++ [a]) s'.
Proof.
  intros (outs & Hlen & Hgs & Hrest & HP) He. destruct a; simpl in He.
  - (* ASpawn *)
    destruct (main s) as [k| |] eqn:Hm; try done.
    destruct (types !! k) as [t|] eqn:Ht; simplify_eq/=.
    exists (outs ++ [[]]). simpl. split; [rewrite !length_app; simpl; lia|].
    split; [|split].
    + intros i g o Hg Ho.
      apply (tied_goroutine_same acts); [by apply lookups_by_other|].
      destruct (decide (i < length (goroutines s))) as [Hi|Hi].
      * rewrite lookup_app_l in Hg by done.
        rewrite lookup_app_l in Ho by lia. by apply Hgs.
      * rewrite lookup_app_r in Hg by lia. rewrite lookup_app_r in Ho by lia.
        rewrite Hlen in Ho.
        destruct (i - length (goroutines s)) as [|n] eqn:Hn; simplify_eq/=.
        split; [|done]. apply Hrest. lia.
    + intros i Hi. rewrite length_app in Hi. simpl in Hi.
      rewrite lookups_by_other by done. apply Hrest. lia.
    + rewrite concat_app. simpl. by rewrite (right_id_L [] (++)).
  - (* ALookup *)
    destruct (goroutines s !! i) as [g|] eqn:Hg; simplify_eq/=.
    destruct (at_pc g) eqn:Hat; try done.
    destruct (LookupDNS_direct w Background domain (rType g)) as [r|] eqn:Hr;
      simplify_eq/=.
    pose proof (lookup_lt_Some _ _ _ Hg) as Hi.
    rewrite (AllProofs.all_move_lookup _ _ _ _ Hg).
    exists outs. simpl. rewrite length_insert. split; [done|]. split; [|split; [|done]].
    + intros j g2 o Hg2 Ho. destruct (decide (j = i)) as [->|Hne].
      * rewrite list_lookup_insert_eq in Hg2 by done. simplify_eq.
        pose proof (Hgs i g o Hg Ho) as Hold.
        unfold tied_goroutine in *. rewrite Hat in Hold. destruct Hold as [Hl ->].
        simpl. exists w, r. rewrite lookups_by_snoc, Hl. done.
      * rewrite list_lookup_insert_ne in Hg2 by lia.
        apply (tied_goroutine_same acts); [|by apply Hgs].
        apply lookups_by_other. by intros w' [=].
    + intros j Hj. rewrite lookups_by_other; [by apply Hrest|].
      intros w' [=]. lia.
  - (* ASend *)
    destruct (goroutines s !! i) as [g|] eqn:Hg; simplify_eq/=.
    destruct (at_pc g) as [|recs|] eqn:Hat; try done.
    destruct (chan_send recs (resultChan s)) as [rc|] eqn:Hs; simplify_eq/=.
    apply chan_send_Some in Hs as [Hlt ->]. simpl.
    pose proof (lookup_lt_Some _ _ _ Hg) as Hi.
    rewrite (AllProofs.all_move_lookup _ _ _ _ Hg).
    assert (is_Some (outs !! i)) as [o0 Ho0]
      by (apply lookup_lt_is_Some_2; lia).
    pose proof (Hgs i g o0 Hg Ho0) as Hold.
    unfold tied_goroutine in Hold. rewrite Hat in Hold.
    destruct Hold as (w & r & Hl & Hr & -> & ->).
    exists (<[i := records_or_empty r]> outs). simpl. rewrite !length_insert.
    split; [done|]. split; [|split].
    + intros j g2 o Hg2 Ho. destruct (decide (j = i)) as [->|Hne].
      * rewrite list_lookup_insert_eq in Hg2 by done.
        rewrite list_lookup_insert_eq in Ho by lia. simplify_eq.
        unfold tied_goroutine. simpl. exists w, r.
        by rewrite lookups_by_other.
      * rewrite list_lookup_insert_ne in Hg2 by lia.
        rewrite list_lookup_insert_ne in Ho by lia.
        apply (tied_goroutine_same acts); [by apply lookups_by_other|].
        by apply Hgs.
    + intros j Hj. rewrite lookups_by_other by done. by apply Hrest.
    + pose proof (concat_insert_perm outs i [] (records_or_empty r) Ho0) as Hc.
      rewrite (right_id_L [] (++)) in Hc. rewrite Hc, concat_app. simpl.
      by rewrite (right_id_L [] (++)), (assoc_L (++)), HP.
  - (* ARecv *)
    destruct (main s) as [|j|] eqn:Hm; try done.
    case_decide as Hj; [|done].
    destruct (chan_recv (resultChan s)) as [[recs rc]|] eqn:Hr; simplify_eq/=.
    apply chan_recv_Some in Hr as [Hbuf Hc]. rewrite Hbuf in HP. simpl in HP.
    exists outs. split; [done|]. split; [|split].
    + intros i g o Hg Ho.
      apply (tied_goroutine_same acts); [by apply lookups_by_other|]. by apply Hgs.
    + intros i Hi. rewrite lookups_by_other by done. by apply Hrest.
    + rewrite <-HP. by rewrite (assoc_L (++)).
  - (* AReturn *)
    destruct (main s) as [|j|] eqn:Hm; try done.
    case_decide as Hj; [done|]. simplify_eq/=.
    exists outs. split; [done|]. split; [|split; [|done]].
    + intros i g o Hg Ho.
      apply (tied_goroutine_same acts); [by apply lookups_by_other|]. by apply Hgs.
    + intros i Hi. rewrite lookups_by_other by done. by apply Hrest.
Qed.

Lemma Tied_run_from pre acts s0 s :
  Tied pre s0 → run acts s0 = Some s → Tied (pre ++ acts) s.
Proof.
  revert pre s0. induction acts as [|a acts IH]; intros pre s0 HT Hrun;
    simplify_eq/=.
  - by rewrite app_nil_r.
  - destruct (exec a s0) as [s1|] eqn:He; simplify_eq/=.
    rewrite (cons_middle a), (assoc_L (++)).
    apply (IH _ s1); [|done]. by apply (Tied_exec _ _ s0).
Qed.

Lemma Tied_run acts s : run acts init = Some s → Tied acts s.
Proof. apply (Tied_run_from [] acts init), Tied_init. Qed.

(** Every reachable state is where some schedule ends. *)
Lemma run_snoc acts a s s' :
  run acts init = Some s → exec a s = Some s' → run (acts ++ [a]) init = Some s'.
Proof.
  generalize init. induction acts as [|b acts IH]; intros s0 Hrun He;
    simplify_eq/=.
  - by rewrite He.
  - destruct (lookupAll.exec domain b s0) as [s1|]; simplify_eq/=. by apply IH.
Qed.

Lemma reachable_run s :
  lookupAll.reachable domain s → ∃ acts, run acts init = Some s.
Proof.
  revert s. apply rtc_ind_r.
  - by exists [].
  - intros s s' _ [a He] [acts Hrun]. exists (acts ++ [a]). by eapply run_snoc.
Qed.

(** The records of the answer [w] gives to
    [LookupDNS(context.Background(), domain, t)]; none if the call fails. *)
Definition records_asked (w : World) (t : string) : list DNSRecord :=
  match LookupDNS_direct w Background domain t with
  | Some (Ok res) => lr_Records res
  | _ => []
  end.

Lemma exited_tied acts gs : ∀ k outs,
  length outs = length gs →
  (∀ i g o, gs !! i = Some g → outs !! i = Some o → tied_goroutine acts (k + i) g o) →
  Forall (λ g, at_pc g = Exited) gs →
  ∃ ws, Forall2 (λ i w, lookups_by i acts = [w]) (seq k (length gs)) ws ∧
        outs = zip_with (λ t w, records_asked w t) (rType <$> gs) ws.
Proof.
  induction gs as [|g gs IH]; intros k [|o outs] Hlen Hgs Hex; simplify_eq/=.
  { exists []. by split. }
  apply Forall_cons in Hex as [Hat Hex].
  pose proof (Hgs 0 g o eq_refl eq_refl) as H0.
  unfold tied_goroutine in H0. rewrite Hat, Nat.add_0_r in H0.
  destruct H0 as (w & r & Hl & Hr & ->).
  destruct (IH (S k) outs) as (ws & Hws & ->); [done| |done|].
  { intros i g' o' Hg' Ho'. specialize (Hgs (S i) g' o' Hg' Ho').
    by rewrite Nat.add_succ_r in Hgs. }
  exists (w :: ws). split; [by constructor|]. simpl. f_equal.
  unfold records_asked. rewrite Hr. by destruct r.
Qed.

Lemma records_asked_helper w t look :
  (t, look) ∈ zip types AllProofs.helpers →
  records_asked w t = if String.eqb domain "" then []
                 else AllProofs.records_of (look w domain).
Proof.
  intros Hin. unfold records_asked.
  rewrite (AllProofs.direct_helper _ _ _ _ _ Hin).
  destruct (String.eqb domain ""); [done|]. by destruct (look w domain).
Qed.

Lemma records_asked_union ws :
  length ws = 6 →
  concat (zip_with (λ t w, records_asked w t) types ws) = AllProofs.flattened_union domain ws.
Proof.
  intros Hlen.
  destruct ws as [|w0 [|w1 [|w2 [|w3 [|w4 [|w5 [|]]]]]]]; simplify_eq/=.
  unfold AllProofs.flattened_union, AllProofs.helpers. simpl.
  rewrite (records_asked_helper w0 "A" lookupA) by set_solver.
  rewrite (records_asked_helper w1 "AAAA" lookupAAAA) by set_solver.
  rewrite (records_asked_helper w2 "MX" lookupMX) by set_solver.
  rewrite (records_asked_helper w3 "NS" lookupNS) by set_solver.
  rewrite (records_asked_helper w4 "TXT" lookupTXT) by set_solver.
  rewrite (records_asked_helper w5 "CNAME" lookupCNAME) by set_solver.
  by destruct (String.eqb domain "").
Qed.

(** Once [lookupAll] has returned, each of its six goroutines has looked up
    once, nobody else has, and what is returned is, in some order, the
    records of the answers these six lookups got: the flattened union of the
    six helpers on these answers. *)
Lemma returned_tied acts s :
  run acts init = Some s → main s = Returned →
  ∃ ws, Forall2 (λ i w, lookups_by i acts = [w]) (seq 0 6) ws ∧
        (∀ i, 6 ≤ i → lookups_by i acts = []) ∧
        allRecords s ≡ₚ concat (zip_with (λ t w, records_asked w t) types ws) ∧
        allRecords s ≡ₚ AllProofs.flattened_union domain ws.
Proof.
  intros Hrun Hm.
  pose proof (AllProofs.all_Inv_reachable _ _ (AllProofs.all_run_reachable _ _ _ Hrun))
    as HI.
  destruct (Tied_run _ _ Hrun) as (outs & Hlen & Hgs & Hrest & HP).
  pose proof (AllProofs.inv_collected _ _ HI) as Hcol.
  pose proof (AllProofs.all_Inv_goroutines _ _ HI) as [Hn _].
  pose proof (AllProofs.inv_spawned _ _ HI) as Hsp.
  rewrite Hm in *. simpl in Hcol, Hn, Hsp.
  pose proof (sum_list_with_bound AllProofs.sent (goroutines s)
                AllProofs.all_sent_bound) as Hb.
  assert (buf (resultChan s) = []) as Hbuf.
  { apply length_zero_iff_nil. lia. }
  rewrite Hbuf in HP, Hcol. simpl in HP, Hcol.
  rewrite (right_id_L [] (++)) in HP.
  assert (Forall (λ g, at_pc g = Exited) (goroutines s)) as Hex.
  { eapply Forall_impl; [apply sum_list_with_full;
      [apply AllProofs.all_sent_bound|lia]|].
    intros g. unfold AllProofs.sent. by destruct (at_pc g). }
  destruct (exited_tied acts (goroutines s) 0 outs Hlen) as (ws & Hws & Houts);
    [done|done|].
  rewrite Hn in Hws, Hrest. exists ws. split; [done|]. split; [done|].
  rewrite HP, Houts, Hsp. change (take 6 types) with types.
  split; [done|].
  apply Forall2_length in Hws. rewrite length_seq in Hws.
  by rewrite records_asked_union.
Qed.

End Runs.
End AllRuns.

(** * The properties of the aggregator *)

(** ** Concrete runs *)

Module Example.
Import Stub.
Local Open Scope Z_scope.

(** The example of the specification: three targets, the second one is not
    an address. *)
Definition request : BulkAnalysisRequest :=
  {| IPs := ["1.1.1.1"; "not-an-ip"; "8.8.8.8"]%string;
     Options := {| IncludeGeolocation := true; IncludeSecurity := true;
                   IncludeDNS := true; IncludePerformance := false |} |}.

(** The context of a request with a deadline. *)
Definition request_ctx : Context := WithTimeout Background 5000000000.

(** One interleaving of the three goroutines and the main flow; the last
    goroutines release their permit after the call has returned. *)
Definition schedule : list BulkAnalyzeIPs.action :=
  let w := offline 7 in
  [BulkAnalyzeIPs.ASpawn; BulkAnalyzeIPs.ASpawn; BulkAnalyzeIPs.ASpawn;
   BulkAnalyzeIPs.AAcquire 2; BulkAnalyzeIPs.AAcquire 0;
   BulkAnalyzeIPs.AAnalyze 2 w; BulkAnalyzeIPs.AAcquire 1;
   BulkAnalyzeIPs.ASend 2; BulkAnalyzeIPs.AAnalyze 1 w;
   BulkAnalyzeIPs.ASend 1; BulkAnalyzeIPs.AAnalyze 0 w;
   BulkAnalyzeIPs.ARecv; BulkAnalyzeIPs.ARelease 1; BulkAnalyzeIPs.ASend 0;
   BulkAnalyzeIPs.ARecv; BulkAnalyzeIPs.ARecv;
   BulkAnalyzeIPs.AReturn (offline 9);
   BulkAnalyzeIPs.ARelease 0; BulkAnalyzeIPs.ARelease 2].

Abbreviation final :=
  (BulkAnalyzeIPs.run request_ctx request schedule (BulkAnalyzeIPs.init request 1 2)).

(** The same with the main flow just back in its caller. *)
Abbreviation at_return :=
  (BulkAnalyzeIPs.run request_ctx request (take 17 schedule)
     (BulkAnalyzeIPs.init request 1 2)).

(** A run of [lookupAll] on a zone with A, MX and TXT records. *)
Definition zone : World := example_zone 5.

Definition dns_schedule : list lookupAll.action :=
  let w := zone in
  [lookupAll.ASpawn; lookupAll.ASpawn; lookupAll.ASpawn;
   lookupAll.ASpawn; lookupAll.ASpawn; lookupAll.ASpawn;
   lookupAll.ALookup 2 w; lookupAll.ALookup 0 w; lookupAll.ASend 2;
   lookupAll.ALookup 1 w; lookupAll.ALookup 3 w; lookupAll.ALookup 4 w;
   lookupAll.ALookup 5 w; lookupAll.ASend 0; lookupAll.ASend 4;
   lookupAll.ASend 1; lookupAll.ASend 3; lookupAll.ASend 5;
   lookupAll.ARecv; lookupAll.ARecv; lookupAll.ARecv;
   lookupAll.ARecv; lookupAll.ARecv; lookupAll.ARecv; lookupAll.AReturn].

(** The same after seven actions: three goroutines hold a permit, two of
    them are inside [AnalyzeIP]. *)
Abbreviation midway :=
  (BulkAnalyzeIPs.run request_ctx request (take 7 schedule)
     (BulkAnalyzeIPs.init request 1 2)).

(** The same targets under another interleaving, another clock and the
    background context. *)
Definition other_schedule : list BulkAnalyzeIPs.action :=
  let w := offline 40 in
  [BulkAnalyzeIPs.ASpawn; BulkAnalyzeIPs.AAcquire 0; BulkAnalyzeIPs.AAnalyze 0 w;
   BulkAnalyzeIPs.ASend 0; BulkAnalyzeIPs.ARelease 0;
   BulkAnalyzeIPs.ASpawn; BulkAnalyzeIPs.ASpawn;
   BulkAnalyzeIPs.AAcquire 1; BulkAnalyzeIPs.AAcquire 2;
   BulkAnalyzeIPs.AAnalyze 1 w; BulkAnalyzeIPs.AAnalyze 2 w;
   BulkAnalyzeIPs.ARecv;
   BulkAnalyzeIPs.ASend 1; BulkAnalyzeIPs.ASend 2;
   BulkAnalyzeIPs.ARecv; BulkAnalyzeIPs.ARecv;
   BulkAnalyzeIPs.AReturn (offline 90)].

Abbreviation other_run :=
  (BulkAnalyzeIPs.run Background request other_schedule
     (BulkAnalyzeIPs.init request 30 31)).

Abbreviation dns_final :=
  (lookupAll.run "example.com" dns_schedule lookupAll.init).

Example final_summary :
  (Summary ∘ BulkAnalyzeIPs.result) <$> final
  = Some {| Total := 3; Successful := 2; Failed := 1;
            Duration := (inject_Z 1000008 / inject_Z 1000000)%Q |}.
Proof. vm_compute. reflexivity. Qed.

Example final_order :
  (fmap ip_IP ∘ Results ∘ BulkAnalyzeIPs.result) <$> final
  = Some ["8.8.8.8"; "not-an-ip"; "1.1.1.1"]%string.
Proof. vm_compute. reflexivity. Qed.

Example other_run_order :
  (fmap ip_IP ∘ Results ∘ BulkAnalyzeIPs.result) <$> other_run
  = Some ["1.1.1.1"; "not-an-ip"; "8.8.8.8"]%string.
Proof. vm_compute. reflexivity. Qed.

Example dns_final_values :
  (fmap rr_Value ∘ lookupAll.allRecords) <$> dns_final
  = Some ["10 mail.example.com."; "93.184.216.34"; "v=spf1 -all"]%string.
Proof. vm_compute. reflexivity. Qed.

End Example.

(** ** The bulk aggregator *)

(** A call that has reached [s] comes back: from [s] no schedule runs
    forever, as long as the call has not returned some goroutine or the main
    flow can move, and some schedule takes it to its return. *)
Definition bulk_comes_back `{NL : NetLib} (ctx : Context)
    (request : BulkAnalysisRequest) (s : BulkAnalyzeIPs.state) : Prop :=
  sn (BulkAnalyzeIPs.step ctx request) s ∧
  (BulkAnalyzeIPs.returns s = None → ∃ s', BulkAnalyzeIPs.step ctx request s s') ∧
  (∃ s', rtc (BulkAnalyzeIPs.step ctx request) s s' ∧
         is_Some (BulkAnalyzeIPs.returns s')).

Lemma bulk_reachable_comes_back `{NL : NetLib} ctx request s :
  BulkAnalyzeIPs.reachable ctx request s → bulk_comes_back ctx request s.
Proof.
  intros Hr%BulkProofs.Inv_reachable.
  split; [apply BulkProofs.step_sn|]. split.
  - intros Hnone. apply (BulkProofs.progress ctx request (offline 0%Z)); [done|].
    apply BulkProofs.not_returned_measure. by apply BulkProofs.returns_None.
  - destruct (BulkProofs.completes ctx request (offline 0%Z) s Hr)
      as (s' & Hsteps & Hm & _).
    exists s'. split; [done|]. exists (Ok (BulkAnalyzeIPs.result s')).
    by apply BulkProofs.returns_Some.
Qed.

(** C1. Under every schedule and whatever the world answers, a call of
    [BulkAnalyzeIPs] on a list of N targets (any N, so 1 <= N <= 100 as
    well) returns; what it returns has exactly N results, one per target
    (the addresses of the results are the targets, in some order), and its
    summary has [Total = N] and [Successful + Failed = Total]. *)
Theorem bulk_one_outcome_per_target `{NL : NetLib} ctx request s :
  BulkAnalyzeIPs.reachable ctx request s →
  bulk_comes_back ctx request s ∧
  ∀ r, BulkAnalyzeIPs.returns s = Some r →
    ∃ res, r = Ok res ∧
      length (Results res) = length (IPs request) ∧
      ip_IP <$> Results res ≡ₚ IPs request ∧
      Total (Summary res) = Z.of_nat (length (IPs request)) ∧
      (Successful (Summary res) + Failed (Summary res))%Z = Total (Summary res).
Proof.
  intros Hr. split; [by apply bulk_reachable_comes_back|].
  intros r [Hm ->]%BulkProofs.returns_Some. eexists. split; [done|].
  apply BulkProofs.Inv_reachable in Hr.
  destruct (BulkProofs.returned_summary ctx request s Hr Hm)
    as (Hlen & Hperm & HT & HF & HS).
  pose proof (length_filter (λ t, ParseIP t = None) (IPs request)) as Hle.
  repeat split; try done. rewrite HT, HF, HS. unfold BulkProofs.invalid. lia.
Qed.

Lemma bulk_one_outcome_per_target_witness :
  ∃ s res,
    Example.at_return = Some s ∧
    BulkAnalyzeIPs.returns s = Some (Ok res) ∧
    length (Results res) = 3 ∧
    (Successful (Summary res) + Failed (Summary res))%Z = 3%Z.
Proof.
  assert (∃ s, Example.at_return = Some s) as [s Hs]
    by (eexists; vm_compute; reflexivity).
  assert (BulkAnalyzeIPs.returns s = Some (Ok (BulkAnalyzeIPs.result s))) as Hr.
  { revert Hs. vm_compute. intros [= <-]. reflexivity. }
  destruct (bulk_one_outcome_per_target (NL := Stub.ipv4_only)
              Example.request_ctx Example.request s) as [_ Hret].
  { eapply BulkProofs.run_reachable. exact Hs. }
  destruct (Hret _ Hr) as (res & [= <-] & Hlen & _ & HT & Hsum).
  exists s, (BulkAnalyzeIPs.result s).
  split; [exact Hs|]. split; [exact Hr|]. clear Hs Hr Hret.
  split; [exact Hlen|]. rewrite Hsum, HT. reflexivity.
Defined.

Lemma AnalyzeIP_fails `{NL : NetLib} w ctx t :
  is_Ok (AnalyzeIP w ctx t) = false ↔ ParseIP t = None.
Proof. unfold AnalyzeIP. by destruct (ParseIP t). Qed.

Lemma invalid_all `{NL : NetLib} ts :
  (∀ t, t ∈ ts → ParseIP t = None) → BulkProofs.invalid ts = ts.
Proof.
  intros Hall. unfold BulkProofs.invalid.
  induction ts as [|t ts IH]; [done|].
  rewrite filter_cons_True by (apply Hall; left).
  f_equal. apply IH. intros t' Ht'. apply Hall. by right.
Qed.

(** C2. Whatever the input list and whatever the world answers, a target
    whose analysis fails is in the results as a failure marker that carries
    the target, and the call itself returns with a nil error; when every
    item fails the call still returns, with [Successful = 0] and
    [Total = N]. *)
Theorem bulk_item_failure_is_local `{NL : NetLib} ctx request s :
  BulkAnalyzeIPs.reachable ctx request s →
  bulk_comes_back ctx request s ∧
  ∀ r, BulkAnalyzeIPs.returns s = Some r →
    ∃ res, r = Ok res ∧
      (∀ t w e, t ∈ IPs request → AnalyzeIP w ctx t = Err e →
         ∃ m, m ∈ Results res ∧ BulkProofs.is_failure_marker t m) ∧
      ((∀ t w, t ∈ IPs request → is_Ok (AnalyzeIP w ctx t) = false) →
         Successful (Summary res) = 0%Z ∧
         Failed (Summary res) = Z.of_nat (length (IPs request)) ∧
         Total (Summary res) = Z.of_nat (length (IPs request))).
Proof.
  intros Hr. split; [by apply bulk_reachable_comes_back|].
  intros r [Hm ->]%BulkProofs.returns_Some. eexists. split; [done|].
  apply BulkProofs.Inv_reachable in Hr.
  destruct (BulkProofs.returned_summary ctx request s Hr Hm)
    as (Hlen & Hperm & HT & HF & HS).
  destruct (BulkProofs.returned_results ctx request s Hr Hm)
    as (_ & ws & Hws & HP).
  split.
  - intros t w e Ht He.
    assert (ParseIP t = None) as Hp by (apply (AnalyzeIP_fails w ctx); by rewrite He).
    destruct (BulkProofs.outcomes_lookup ctx (IPs request) ws t Hws Ht) as [w' Hin].
    exists (BulkAnalyzeIPs.info (BulkAnalyzeIPs.analyze_item ctx w' t)). split.
    + by rewrite HP.
    + by apply BulkProofs.item_failure.
  - intros Hall.
    assert (BulkProofs.invalid (IPs request) = IPs request) as Hinv.
    { apply invalid_all. intros t Ht.
      by apply (AnalyzeIP_fails (offline 0%Z) ctx), Hall. }
    rewrite Hinv in HF, HS. rewrite HS, HF, HT. split; [lia|done].
Qed.

Lemma bulk_item_failure_is_local_witness :
  ∃ s res m,
    Example.at_return = Some s ∧
    BulkAnalyzeIPs.returns s = Some (Ok res) ∧
    m ∈ Results res ∧
    BulkProofs.is_failure_marker "not-an-ip" m.
Proof.
  assert (∃ s, Example.at_return = Some s) as [s Hs]
    by (eexists; vm_compute; reflexivity).
  assert (BulkAnalyzeIPs.returns s = Some (Ok (BulkAnalyzeIPs.result s))) as Hr.
  { revert Hs. vm_compute. intros [= <-]. reflexivity. }
  destruct (bulk_item_failure_is_local (NL := Stub.ipv4_only)
              Example.request_ctx Example.request s) as [_ Hret].
  { eapply BulkProofs.run_reachable. exact Hs. }
  destruct (Hret _ Hr) as (res & [= <-] & Hmark & _).
  destruct (Hmark "not-an-ip"%string (offline 0%Z)
              "invalid IP address: not-an-ip"%string) as (m & Hin & Hm).
  { right. left. }
  { vm_compute. reflexivity. }
  exists s, (BulkAnalyzeIPs.result s), m.
  split; [exact Hs|]. split; [exact Hr|]. split; [exact Hin|exact Hm].
Defined.

(** C7. On the targets 1.1.1.1, not-an-ip, 8.8.8.8, when the resolver fails
    on not-an-ip only, every run returns [Total = 3], [Successful = 2],
    [Failed = 1]; the results hold a failure marker for not-an-ip and no
    other result is marked as an error. *)
Theorem bulk_example_three_targets `{NL : NetLib} ctx options s r :
  is_Some (ParseIP "1.1.1.1") →
  ParseIP "not-an-ip" = None →
  is_Some (ParseIP "8.8.8.8") →
  let request :=
    {| IPs := ["1.1.1.1"; "not-an-ip"; "8.8.8.8"]%string; Options := options |} in
  BulkAnalyzeIPs.reachable ctx request s →
  BulkAnalyzeIPs.returns s = Some r →
  ∃ res, r = Ok res ∧
    Total (Summary res) = 3%Z ∧
    Successful (Summary res) = 2%Z ∧
    Failed (Summary res) = 1%Z ∧
    (∃ m, m ∈ Results res ∧ BulkProofs.is_failure_marker "not-an-ip" m) ∧
    (∀ m, m ∈ Results res → ip_Type m = "error"%string → ip_IP m = "not-an-ip"%string).
Proof.
  intros H1 H2 H3 request Hr [Hm ->]%BulkProofs.returns_Some.
  eexists. split; [done|].
  apply BulkProofs.Inv_reachable in Hr.
  destruct (BulkProofs.returned_summary ctx request s Hr Hm)
    as (Hlen & Hperm & HT & HF & HS).
  destruct (BulkProofs.returned_results ctx request s Hr Hm)
    as (_ & ws & Hws & HP).
  assert (BulkProofs.invalid (IPs request) = ["not-an-ip"%string]) as Hinv.
  { unfold BulkProofs.invalid, request. simpl.
    destruct H1 as [ip1 Hp1], H3 as [ip3 Hp3].
    rewrite filter_cons_False by (by rewrite Hp1).
    rewrite filter_cons_True by done.
    by rewrite filter_cons_False by (by rewrite Hp3). }
  rewrite Hinv in HF, HS.
  repeat split; try done.
  - destruct (BulkProofs.outcomes_lookup ctx (IPs request) ws "not-an-ip"%string Hws)
      as [w Hin]; [by right; left|].
    exists (BulkAnalyzeIPs.info (BulkAnalyzeIPs.analyze_item ctx w "not-an-ip")). split.
    + by rewrite HP.
    + by apply BulkProofs.item_failure.
  - intros m Hin Herr. rewrite HP in Hin.
    apply BulkProofs.outcomes_elem in Hin as (w & t & Ht & ->); [|done].
    rewrite BulkProofs.item_IP.
    assert (BulkProofs.is_error_info (BulkAnalyzeIPs.info (BulkAnalyzeIPs.analyze_item ctx w t)) = true) as Hmark.
    { unfold BulkProofs.is_error_info. by rewrite Herr. }
    rewrite BulkProofs.item_mark in Hmark. apply bool_decide_eq_true in Hmark.
    assert (t ∈ BulkProofs.invalid (IPs request)) as Hti.
    { unfold BulkProofs.invalid. by apply list_elem_of_filter. }
    rewrite Hinv in Hti. by apply list_elem_of_singleton in Hti.
Qed.

Lemma bulk_example_three_targets_witness :
  ∃ s res,
    Example.at_return = Some s ∧
    BulkAnalyzeIPs.returns s = Some (Ok res) ∧
    Total (Summary res) = 3%Z ∧
    Successful (Summary res) = 2%Z ∧
    Failed (Summary res) = 1%Z.
Proof.
  assert (∃ s, Example.at_return = Some s) as [s Hs]
    by (eexists; vm_compute; reflexivity).
  assert (BulkAnalyzeIPs.returns s = Some (Ok (BulkAnalyzeIPs.result s))) as Hr.
  { revert Hs. vm_compute. intros [= <-]. reflexivity. }
  destruct (bulk_example_three_targets (NL := Stub.ipv4_only)
              Example.request_ctx (Options Example.request) s
              (Ok (BulkAnalyzeIPs.result s)))
    as (res & [= <-] & HT & HS & HF & _).
  { vm_compute. eexists. reflexivity. }
  { vm_compute. reflexivity. }
  { vm_compute. eexists. reflexivity. }
  { eapply BulkProofs.run_reachable. exact Hs. }
  { exact Hr. }
  exists s, (BulkAnalyzeIPs.result s).
  split; [exact Hs|]. split; [exact Hr|]. split; [exact HT|]. split; [exact HS|exact HF].
Defined.

(** C8. Two runs of the aggregator on the same input list, under any two
    schedules and any answers of the world (the resolver fails on the same
    strings in both), return the same [Successful] and the same [Failed];
    nothing is said of [Duration]. *)
Theorem bulk_counts_repeatable `{NL : NetLib} ctx1 ctx2 request s1 s2 res1 res2 :
  BulkAnalyzeIPs.reachable ctx1 request s1 →
  BulkAnalyzeIPs.reachable ctx2 request s2 →
  BulkAnalyzeIPs.returns s1 = Some (Ok res1) →
  BulkAnalyzeIPs.returns s2 = Some (Ok res2) →
  Successful (Summary res1) = Successful (Summary res2) ∧
  Failed (Summary res1) = Failed (Summary res2).
Proof.
  intros Hr1 Hr2 [Hm1 [= ->]]%BulkProofs.returns_Some
         [Hm2 [= ->]]%BulkProofs.returns_Some.
  apply BulkProofs.Inv_reachable in Hr1, Hr2.
  destruct (BulkProofs.returned_summary ctx1 request s1 Hr1 Hm1)
    as (_ & _ & _ & HF1 & HS1).
  destruct (BulkProofs.returned_summary ctx2 request s2 Hr2 Hm2)
    as (_ & _ & _ & HF2 & HS2).
  by rewrite HF1, HF2, HS1, HS2.
Qed.

Lemma bulk_counts_repeatable_witness :
  ∃ s1 s2,
    Example.at_return = Some s1 ∧
    Example.other_run = Some s2 ∧
    Successful (Summary (BulkAnalyzeIPs.result s1))
    = Successful (Summary (BulkAnalyzeIPs.result s2)) ∧
    Failed (Summary (BulkAnalyzeIPs.result s1))
    = Failed (Summary (BulkAnalyzeIPs.result s2)).
Proof.
  assert (∃ s, Example.at_return = Some s) as [s1 Hs1]
    by (eexists; vm_compute; reflexivity).
  assert (∃ s, Example.other_run = Some s) as [s2 Hs2]
    by (eexists; vm_compute; reflexivity).
  assert (BulkAnalyzeIPs.returns s1 = Some (Ok (BulkAnalyzeIPs.result s1))) as Hr1.
  { revert Hs1. vm_compute. intros [= <-]. reflexivity. }
  assert (BulkAnalyzeIPs.returns s2 = Some (Ok (BulkAnalyzeIPs.result s2))) as Hr2.
  { revert Hs2. vm_compute. intros [= <-]. reflexivity. }
  exists s1, s2. split; [exact Hs1|]. split; [exact Hs2|].
  apply (bulk_counts_repeatable (NL := Stub.ipv4_only)
           Example.request_ctx Background Example.request s1 s2).
  - eapply BulkProofs.run_reachable. exact Hs1.
  - eapply BulkProofs.run_reachable. exact Hs2.
  - exact Hr1.
  - exact Hr2.
Defined.

(** C9. [AnalyzeIP] fails exactly on the strings [net.ParseIP] rejects. On
    every other string it succeeds whatever becomes of the geolocation, ISP
    and reverse-DNS lookups: a lookup that fails leaves its field nil, one
    that succeeds fills it. So the [Failed] of a bulk call is the number of
    strings of the input that are not IP addresses. *)
Theorem analyze_fails_iff_unparseable `{NL : NetLib} :
  (∀ w ctx ipStr, is_Ok (AnalyzeIP w ctx ipStr) = false ↔ ParseIP ipStr = None) ∧
  (∀ w ctx ipStr, is_Some (ParseIP ipStr) →
     ∃ i, AnalyzeIP w ctx ipStr = Ok i ∧
       ip_IP i = ipStr ∧
       ip_Geolocation i = ok_or_nil (getGeolocation w ctx ipStr) ∧
       ip_ISP i = ok_or_nil (getISPInfo w ctx ipStr) ∧
       ip_DNS i = ok_or_nil (getDNSInfo w ctx ipStr) ∧
       (is_Ok (getGeolocation w ctx ipStr) = false → ip_Geolocation i = None) ∧
       (is_Ok (getISPInfo w ctx ipStr) = false → ip_ISP i = None) ∧
       (is_Ok (LookupAddr w ipStr) = false → ip_DNS i = None)) ∧
  (∀ ctx request s res,
     BulkAnalyzeIPs.reachable ctx request s →
     BulkAnalyzeIPs.returns s = Some (Ok res) →
     Failed (Summary res)
     = Z.of_nat (length (filter (λ t, ParseIP t = None) (IPs request)))).
Proof.
  split; [|split].
  - intros. apply AnalyzeIP_fails.
  - intros w ctx ipStr [ip Hip]. unfold AnalyzeIP. rewrite Hip.
    eexists. split; [done|]. simpl. repeat split.
    + by destruct (getGeolocation w ctx ipStr).
    + by destruct (getISPInfo w ctx ipStr).
    + unfold getDNSInfo. by destruct (LookupAddr w ipStr).
  - intros ctx request s res Hr [Hm [= ->]]%BulkProofs.returns_Some.
    apply BulkProofs.Inv_reachable in Hr.
    by destruct (BulkProofs.returned_summary ctx request s Hr Hm)
      as (_ & _ & _ & HF & _).
Qed.

Lemma analyze_fails_iff_unparseable_witness :
  is_Ok (AnalyzeIP (NL := Stub.ipv4_only) (offline 3%Z) Background "not-an-ip") = false ∧
  (∃ i, AnalyzeIP (NL := Stub.ipv4_only) (offline 3%Z) Background "8.8.8.8" = Ok i ∧
        ip_Geolocation i = None ∧ ip_ISP i = None ∧ ip_DNS i = None) ∧
  ∃ s, Example.at_return = Some s ∧
       Failed (Summary (BulkAnalyzeIPs.result s)) = 1%Z.
Proof.
  destruct (analyze_fails_iff_unparseable (NL := Stub.ipv4_only))
    as (Hiff & Hok & Hbulk).
  split; [|split].
  - apply Hiff. vm_compute. reflexivity.
  - destruct (Hok (offline 3%Z) Background "8.8.8.8"%string)
      as (i & Hi & _ & _ & _ & _ & Hg & Hisp & Hd).
    { vm_compute. eexists. reflexivity. }
    exists i. split; [exact Hi|].
    split; [apply Hg; reflexivity|]. split; [apply Hisp; reflexivity|].
    apply Hd. reflexivity.
  - assert (∃ s, Example.at_return = Some s) as [s Hs]
      by (eexists; vm_compute; reflexivity).
    assert (BulkAnalyzeIPs.returns s = Some (Ok (BulkAnalyzeIPs.result s))) as Hr.
    { revert Hs. vm_compute. intros [= <-]. reflexivity. }
    exists s. split; [exact Hs|].
    rewrite (Hbulk Example.request_ctx Example.request s (BulkAnalyzeIPs.result s)).
    + vm_compute. reflexivity.
    + eapply BulkProofs.run_reachable. exact Hs.
    + exact Hr.
Defined.

(** ** The admission of goroutines *)

(** C4. In every state of a bulk call, under every schedule: the semaphore
    has room for 10 permits; the permits taken are the goroutines between
    their acquisition and their release, so at most 10 calls of [AnalyzeIP]
    are in flight; a call of [AnalyzeIP] is made by a goroutine that holds a
    permit; a goroutine that has sent its outcome, success or failure, is at
    its release, which never blocks; and the run can always go on until
    every goroutine has ended, where no permit is left in the semaphore. *)
Theorem bulk_at_most_ten_in_flight `{NL : NetLib} ctx request s :
  BulkAnalyzeIPs.reachable ctx request s →
  let gs := BulkAnalyzeIPs.goroutines s in
  cap (BulkAnalyzeIPs.semaphore s) = 10 ∧
  length (buf (BulkAnalyzeIPs.semaphore s)) = sum_list_with BulkProofs.holding gs ∧
  sum_list_with BulkProofs.in_flight gs ≤ 10 ∧
  (∀ i w, is_Some (BulkAnalyzeIPs.exec ctx request (BulkAnalyzeIPs.AAnalyze i w) s) →
          ∃ g, gs !! i = Some g ∧ BulkProofs.holding g = 1) ∧
  (∀ i s', BulkAnalyzeIPs.exec ctx request (BulkAnalyzeIPs.ASend i) s = Some s' →
          ∃ g', BulkAnalyzeIPs.goroutines s' !! i = Some g' ∧
                BulkAnalyzeIPs.at_pc g' = BulkAnalyzeIPs.Releasing) ∧
  (∀ i g, gs !! i = Some g → BulkAnalyzeIPs.at_pc g = BulkAnalyzeIPs.Releasing →
          is_Some (BulkAnalyzeIPs.exec ctx request (BulkAnalyzeIPs.ARelease i) s)) ∧
  (BulkProofs.quiescent s → buf (BulkAnalyzeIPs.semaphore s) = []) ∧
  (∃ s', rtc (BulkAnalyzeIPs.step ctx request) s s' ∧ BulkProofs.quiescent s').
Proof.
  intros Hr gs. subst gs. apply BulkProofs.Inv_reachable in Hr.
  pose proof (BulkProofs.Inv_in_flight ctx request s Hr) as Hfl.
  split; [by apply (BulkProofs.inv_sem_cap ctx request)|].
  split; [by apply (BulkProofs.inv_sem ctx request)|].
  split; [lia|].
  split; [|split; [|split; [|split]]].
  - intros i w [s' He]. simpl in He.
    destruct (BulkAnalyzeIPs.goroutines s !! i) as [g|] eqn:Hg; simplify_eq/=.
    destruct (BulkAnalyzeIPs.at_pc g) eqn:Hat; simplify_eq/=.
    exists g. split; [done|]. unfold BulkProofs.holding. by rewrite Hat.
  - intros i s' He. simpl in He.
    destruct (BulkAnalyzeIPs.goroutines s !! i) as [g|] eqn:Hg; simplify_eq/=.
    destruct (BulkAnalyzeIPs.at_pc g) as [| |res| |] eqn:Hat; try done.
    destruct (chan_send res (BulkAnalyzeIPs.resultChan s)); simplify_eq/=.
    rewrite (BulkProofs.move_lookup _ _ _ _ Hg).
    eexists. split; [apply list_lookup_insert_eq; by eapply lookup_lt_Some|done].
  - intros i g Hg Hat. by apply (BulkProofs.release_enabled ctx request s i g).
  - by apply (BulkProofs.quiescent_semaphore ctx request).
  - by apply (BulkProofs.completes ctx request (offline 0%Z)).
Qed.

Lemma bulk_at_most_ten_in_flight_witness :
  ∃ s, Example.midway = Some s ∧
       length (buf (BulkAnalyzeIPs.semaphore s)) = 3 ∧
       sum_list_with BulkProofs.in_flight (BulkAnalyzeIPs.goroutines s) = 2 ∧
       sum_list_with BulkProofs.in_flight (BulkAnalyzeIPs.goroutines s) ≤ 10.
Proof.
  assert (∃ s, Example.midway = Some s) as [s Hs]
    by (eexists; vm_compute; reflexivity).
  destruct (bulk_at_most_ten_in_flight (NL := Stub.ipv4_only)
              Example.request_ctx Example.request s) as (_ & _ & Hle & _).
  { eapply BulkProofs.run_reachable. exact Hs. }
  exists s. split; [exact Hs|].
  split; [|split; [|exact Hle]].
  - revert Hs. vm_compute. intros [= <-]. reflexivity.
  - revert Hs. vm_compute. intros [= <-]. reflexivity.
Defined.

(** ** The batch endpoint *)

(** C3. The handler answers a request with no IP, and a request with more
    than 100 IPs, with a 400 and hands nothing to the aggregator, whatever
    happens next; so it does with a body that does not decode. A request
    with 1 to 100 IPs (100 included) is handed to the aggregator as it came,
    under the context of the request, and is never answered with a 400: it
    can be answered with a 200. *)
Theorem batch_boundary_validation `{NL : NetLib} rctx request :
  (length (IPs request) = 0 ∨ 100 < length (IPs request) →
     dispatched (BatchAnalyzeIPs rctx (Ok request)) = None ∧
     ∀ status body, serves (BatchAnalyzeIPs rctx (Ok request)) status body →
                    status = StatusBadRequest) ∧
  (∀ e, dispatched (BatchAnalyzeIPs rctx (Err e)) = None ∧
        ∀ status body, serves (BatchAnalyzeIPs rctx (Err e)) status body →
                       status = StatusBadRequest) ∧
  (1 ≤ length (IPs request) ≤ 100 →
     dispatched (BatchAnalyzeIPs rctx (Ok request)) = Some (rctx, request) ∧
     (∀ status body, serves (BatchAnalyzeIPs rctx (Ok request)) status body →
                     status ≠ StatusBadRequest) ∧
     ∃ body, serves (BatchAnalyzeIPs rctx (Ok request)) StatusOK body) ∧
  (length (IPs request) = 100 →
     dispatched (BatchAnalyzeIPs rctx (Ok request)) = Some (rctx, request)).
Proof.
  unfold BatchAnalyzeIPs. split; [|split; [|split]].
  - intros Hbad.
    repeat case_decide; try lia; (split; [done|]);
      intros status body Hs; by inversion Hs.
  - intros e. split; [done|]. intros status body Hs. by inversion Hs.
  - intros Hlen. rewrite decide_False by lia. rewrite decide_False by lia.
    split; [done|]. split.
    + intros status body Hs.
      inversion Hs as [|c rq k s r st b Hr Hret Hk|]; subst.
      apply BulkProofs.returns_Some in Hret as [_ ->].
      inversion Hk as [| |v k' e st b He]; subst.
      destruct e; by inversion He.
    + destruct (BulkProofs.completes rctx request (offline 0%Z)
                  (BulkAnalyzeIPs.init request 0%Z 0%Z)) as (s & Hsteps & Hq & _).
      { apply BulkProofs.Inv_init. }
      exists "{}"%string.
      eapply (serves_bulk _ _ _ s (Ok (BulkAnalyzeIPs.result s))).
      * by exists 0%Z, 0%Z.
      * by apply BulkProofs.returns_Some.
      * apply (serves_encode _ _ (Ok "{}"%string)). constructor.
  - intros Hlen. rewrite decide_False by lia. by rewrite decide_False by lia.
Qed.

Lemma batch_boundary_validation_witness :
  let empty := {| IPs := []; Options := Options Example.request |} in
  let full := {| IPs := replicate 100 "10.0.0.1"%string;
                 Options := Options Example.request |} in
  let over := {| IPs := replicate 101 "10.0.0.1"%string;
                 Options := Options Example.request |} in
  dispatched (BatchAnalyzeIPs Example.request_ctx (Ok empty)) = None ∧
  dispatched (BatchAnalyzeIPs Example.request_ctx (Ok over)) = None ∧
  dispatched (BatchAnalyzeIPs Example.request_ctx (Ok full))
  = Some (Example.request_ctx, full).
Proof.
  intros empty full over.
  destruct (batch_boundary_validation (NL := Stub.ipv4_only)
              Example.request_ctx empty) as (He & _).
  destruct (batch_boundary_validation (NL := Stub.ipv4_only)
              Example.request_ctx over) as (Ho & _).
  destruct (batch_boundary_validation (NL := Stub.ipv4_only)
              Example.request_ctx full) as (_ & _ & _ & Hf).
  split; [|split].
  - destruct He as [Hd _]; [left; reflexivity|exact Hd].
  - destruct Ho as [Hd _]; [right; vm_compute; lia|exact Hd].
  - apply Hf. reflexivity.
Defined.

(** ** All the record types of a domain *)

Definition all_comes_back `{NL : NetLib} (domain : string)
    (s : lookupAll.state) : Prop :=
  sn (lookupAll.step domain) s ∧
  (lookupAll.returns s = None → ∃ s', lookupAll.step domain s s') ∧
  (∃ s', rtc (lookupAll.step domain) s s' ∧ is_Some (lookupAll.returns s')).

Lemma all_reachable_comes_back `{NL : NetLib} domain s :
  lookupAll.reachable domain s → all_comes_back domain s.
Proof.
  intros Hr%AllProofs.all_Inv_reachable.
  split; [apply AllProofs.all_step_sn|]. split.
  - intros Hnone. apply (AllProofs.all_progress domain (offline 0%Z)); [done|].
    apply AllProofs.all_not_returned_measure. by apply AllProofs.all_returns_None.
  - destruct (AllProofs.all_completes domain (offline 0%Z) s Hr)
      as (s' & Hsteps & Hm & _).
    exists s'. split; [done|]. exists (Ok (lookupAll.allRecords s')).
    by apply AllProofs.all_returns_Some.
Qed.

(** C5. Under every schedule [lookupAll] returns, with a nil error. The
    state [s] it is in is where some schedule ends, and for every schedule
    that ends there, what is returned is, in some order, the concatenation
    of the records of the six helpers A, AAAA, MX, NS, TXT, CNAME, each on
    the answer the world gave to the lookup of its goroutine in that
    schedule; each goroutine looked up once and nobody else did. A helper
    that failed contributes no record. *)
Theorem lookupAll_flattened_union `{NL : NetLib} domain s :
  lookupAll.reachable domain s →
  all_comes_back domain s ∧
  (∃ acts, lookupAll.run domain acts lookupAll.init = Some s) ∧
  ∀ acts r,
    lookupAll.run domain acts lookupAll.init = Some s →
    lookupAll.returns s = Some r →
    ∃ allRecords ws,
      r = Ok allRecords ∧
      Forall2 (λ i w, AllRuns.lookups_by i acts = [w]) (seq 0 6) ws ∧
      (∀ i, 6 ≤ i → AllRuns.lookups_by i acts = []) ∧
      allRecords ≡ₚ AllProofs.flattened_union domain ws.
Proof.
  intros Hr. split; [by apply all_reachable_comes_back|].
  split; [by apply AllRuns.reachable_run|].
  intros acts r Hrun [Hm ->]%AllProofs.all_returns_Some.
  destruct (AllRuns.returned_tied domain acts s Hrun Hm)
    as (ws & Hws & Hrest & _ & HP).
  by exists (lookupAll.allRecords s), ws.
Qed.

Lemma lookupAll_flattened_union_witness :
  ∃ s recs,
    Example.dns_final = Some s ∧
    lookupAll.returns s = Some (Ok recs) ∧
    rr_Type <$> recs = ["MX"; "A"; "TXT"]%string ∧
    ∃ ws, Forall2 (λ i w, AllRuns.lookups_by i Example.dns_schedule = [w])
                  (seq 0 6) ws ∧
          recs ≡ₚ AllProofs.flattened_union (NL := Stub.ipv4_only) "example.com" ws.
Proof.
  assert (∃ s, Example.dns_final = Some s) as [s Hs]
    by (eexists; vm_compute; reflexivity).
  assert (lookupAll.returns s = Some (Ok (lookupAll.allRecords s))) as Hr.
  { revert Hs. vm_compute. intros [= <-]. reflexivity. }
  destruct (lookupAll_flattened_union (NL := Stub.ipv4_only) "example.com" s)
    as (_ & _ & Hret).
  { eapply AllProofs.all_run_reachable. exact Hs. }
  destruct (Hret _ _ Hs Hr) as (recs & ws & [= <-] & Hws & _ & HP).
  exists s, (lookupAll.allRecords s).
  split; [exact Hs|]. split; [exact Hr|].
  split; [|exists ws; split; [exact Hws|exact HP]].
  revert Hs. vm_compute. intros [= <-]. reflexivity.
Defined.

(** ** Contexts *)

(** C6, as the code has it. Every call of [AnalyzeIP] a bulk call makes is
    made under the context of the caller, and it has made one per target
    when it returns; the results it returns are what [AnalyzeIP] gives
    under that context for each target, on the answers the world gave to
    the analysis of its goroutine. [lookupAll] is given no context: every
    call of [LookupDNS] it makes is made under [context.Background()], six
    of them by the time it returns; and [LookupDNS] has no use for a
    context, its answer is the same under any. *)
Theorem contexts_of_item_calls `{NL : NetLib} :
  (∀ ctx request s,
     BulkAnalyzeIPs.reachable ctx request s →
     Forall (λ c, c.1 = ctx) (BulkAnalyzeIPs.calls s) ∧
     (BulkAnalyzeIPs.main s = BulkAnalyzeIPs.Returned →
      length (BulkAnalyzeIPs.calls s) = length (IPs request))) ∧
  (∀ ctx request acts t0 t1 s,
     BulkAnalyzeIPs.run ctx request acts (BulkAnalyzeIPs.init request t0 t1)
     = Some s →
     BulkAnalyzeIPs.main s = BulkAnalyzeIPs.Returned →
     ∃ ws ms,
       Forall2 (λ i w, BulkRuns.analyses_by i acts = [w])
               (seq 0 (length (IPs request))) ws ∧
       Results (BulkAnalyzeIPs.result s) ≡ₚ ms ∧
       Forall2 (λ tw m, BulkRuns.answer_of ctx tw.2 tw.1 m)
               (zip (IPs request) ws) ms) ∧
  (∀ domain s,
     lookupAll.reachable domain s →
     Forall (λ c, c.1.1 = Background) (lookupAll.calls s) ∧
     (lookupAll.main s = lookupAll.Returned → length (lookupAll.calls s) = 6)) ∧
  (∀ w c c' domain recordType,
     LookupDNS_direct w c domain recordType
     = LookupDNS_direct w c' domain recordType).
Proof.
  split; [|split; [|split]].
  - intros ctx request s Hr%BulkProofs.Inv_reachable. split.
    + by apply (BulkProofs.inv_calls ctx request).
    + by apply (BulkProofs.returned_calls ctx request).
  - intros ctx request acts t0 t1 s Hrun Hm.
    destruct (BulkRuns.bulk_returned_tied ctx request acts t0 t1 s Hrun Hm)
      as (ws & ms & Hws & _ & HP & Hms).
    by exists ws, ms.
  - intros domain s Hr%AllProofs.all_Inv_reachable. split.
    + by apply (AllProofs.inv_calls domain).
    + by apply (AllProofs.all_returned_calls domain).
  - done.
Qed.

Lemma contexts_of_item_calls_witness :
  ∃ s1 s2,
    Example.at_return = Some s1 ∧
    Example.dns_final = Some s2 ∧
    Forall (λ c, c.1 = Example.request_ctx) (BulkAnalyzeIPs.calls s1) ∧
    length (BulkAnalyzeIPs.calls s1) = 3 ∧
    Forall (λ c, c.1.1 = Background) (lookupAll.calls s2) ∧
    length (lookupAll.calls s2) = 6.
Proof.
  assert (∃ s, Example.at_return = Some s) as [s1 Hs1]
    by (eexists; vm_compute; reflexivity).
  assert (∃ s, Example.dns_final = Some s) as [s2 Hs2]
    by (eexists; vm_compute; reflexivity).
  destruct (contexts_of_item_calls (NL := Stub.ipv4_only))
    as (Hbulk & _ & Hall & _).
  destruct (Hbulk Example.request_ctx Example.request s1) as [Hc1 Hn1].
  { eapply BulkProofs.run_reachable. exact Hs1. }
  destruct (Hall "example.com"%string s2) as [Hc2 Hn2].
  { eapply AllProofs.all_run_reachable. exact Hs2. }
  exists s1, s2. split; [exact Hs1|]. split; [exact Hs2|].
  split; [exact Hc1|]. split; [|split; [exact Hc2|]].
  - apply Hn1. revert Hs1. vm_compute. intros [= <-]. reflexivity.
  - apply Hn2. revert Hs2. vm_compute. intros [= <-]. reflexivity.
Defined.

(** C6, as the specification has it, fails on the DNS side: a call
    [LookupDNS(ctx, "example.com", "ALL")] under a request context with a
    deadline goes to [lookupAll], whose six calls of [LookupDNS] are all made
    under a context that is not the caller's. *)
Lemma lookupAll_drops_caller_context :
  ∃ s,
    LookupDNS_switch (NL := Stub.ipv4_only) Example.zone
      Example.request_ctx "example.com" "ALL" = PlanAll ∧
    Example.dns_final = Some s ∧
    lookupAll.main s = lookupAll.Returned ∧
    length (lookupAll.calls s) = 6 ∧
    Forall (λ c, c.1.1 ≠ Example.request_ctx) (lookupAll.calls s).
Proof.
  assert (∃ s, Example.dns_final = Some s) as [s Hs]
    by (eexists; vm_compute; reflexivity).
  exists s. split; [vm_compute; reflexivity|]. split; [exact Hs|].
  split; [revert Hs; vm_compute; intros [= <-]; reflexivity|].
  split; [revert Hs; vm_compute; intros [= <-]; reflexivity|].
  assert (Forall (λ c, c.1.1 = Background) (lookupAll.calls s)) as Hbg.
  { apply (AllProofs.inv_calls (NL := Stub.ipv4_only) "example.com").
    apply AllProofs.all_Inv_reachable. eapply AllProofs.all_run_reachable. exact Hs. }
  clear Hs. eapply Forall_impl; [exact Hbg|].
  intros c Hc. rewrite Hc. discriminate.
Qed.

(** ** TTL *)

Lemma lookupPTR_TTL `{NL : NetLib} w domain :
  Forall (λ r, rr_TTL r = 300%Z) (AllProofs.records_of (lookupPTR w domain)).
Proof.
  unfold lookupPTR. destruct (LookupAddr w domain); simpl; [|done].
  by apply AllProofs.Forall_map_all.
Qed.

Lemma finish_TTL `{NL : NetLib} w domain r res :
  LookupDNS_finish w domain r = Ok res →
  Forall (λ r, rr_TTL r = 300%Z) (AllProofs.records_of r) →
  Forall (λ r, rr_TTL r = 300%Z) (lr_Records res).
Proof. destruct r; simpl; [|done]. by intros [= <-]. Qed.

Lemma direct_TTL `{NL : NetLib} w ctx domain recordType res :
  LookupDNS_direct w ctx domain recordType = Some (Ok res) →
  Forall (λ r, rr_TTL r = 300%Z) (lr_Records res).
Proof.
  unfold LookupDNS_direct, LookupDNS_switch.
  destruct (String.eqb domain ""); [done|].
  pose proof (AllProofs.helper_TTL domain) as Hh.
  repeat (match goal with
          | |- context [String.eqb ?u ?v] => destruct (String.eqb u v)
          end;
          [intros [= Hf]; apply finish_TTL in Hf; [done|];
           first [apply Hh; unfold AllProofs.helpers; set_solver
                 |apply lookupPTR_TTL]|]).
  by destruct (String.eqb (ToUpper recordType) "ALL").
Qed.

(** C10. Whatever the domain, the record type and the answers of the
    resolver, every record a successful [LookupDNS] returns has TTL 300. *)
Theorem LookupDNS_TTL_is_300 `{NL : NetLib} w ctx domain recordType res :
  LookupDNS w ctx domain recordType (Ok res) →
  Forall (λ r, rr_TTL r = 300%Z) (lr_Records res).
Proof.
  intros HL. inversion HL as [r Hd|s r Hsw Hr Hret Hfin]; subst.
  - by eapply direct_TTL.
  - apply AllProofs.all_returns_Some in Hret as [Hm ->].
    apply AllProofs.all_Inv_reachable in Hr.
    destruct (AllProofs.returned_records domain s Hr Hm) as (ws & _ & HP).
    simpl in Hfin. injection Hfin as <-. simpl.
    rewrite HP. apply AllProofs.flattened_union_TTL.
Qed.

Lemma LookupDNS_TTL_is_300_witness :
  ∃ res1 res2,
    LookupDNS (NL := Stub.ipv4_only) Example.zone
      Example.request_ctx "example.com" "mx" (Ok res1) ∧
    LookupDNS (NL := Stub.ipv4_only) Example.zone
      Example.request_ctx "example.com" "ALL" (Ok res2) ∧
    length (lr_Records res1) = 1 ∧
    length (lr_Records res2) = 3 ∧
    Forall (λ r, rr_TTL r = 300%Z) (lr_Records res1 ++ lr_Records res2).
Proof.
  assert (∃ res, LookupDNS_direct (NL := Stub.ipv4_only) Example.zone
                   Example.request_ctx "example.com" "mx" = Some (Ok res) ∧
                 length (lr_Records res) = 1) as (res1 & H1 & Hn1).
  { eexists. split; vm_compute; reflexivity. }
  assert (∃ s, Example.dns_final = Some s) as [s Hs]
    by (eexists; vm_compute; reflexivity).
  assert (lookupAll.returns s = Some (Ok (lookupAll.allRecords s))
          ∧ length (lookupAll.allRecords s) = 3) as [Hr Hn2].
  { revert Hs. vm_compute. intros [= <-]. split; reflexivity. }
  pose proof (LookupDNS_one Example.zone Example.request_ctx
                "example.com" "mx" _ H1) as HL1.
  pose proof (LookupDNS_all Example.zone Example.request_ctx
                "example.com" "ALL" s _ eq_refl
                (AllProofs.all_run_reachable _ _ _ Hs) Hr) as HL2.
  simpl in HL2.
  eexists res1, _. split; [exact HL1|]. split; [exact HL2|].
  split; [exact Hn1|]. split; [exact Hn2|].
  apply Forall_app. split.
  - exact (LookupDNS_TTL_is_300 _ _ _ _ _ HL1).
  - exact (LookupDNS_TTL_is_300 _ _ _ _ _ HL2).
Defined.

(** * More of the service *)

(** ** The bulk aggregator, continued *)

Module BulkMore.
Section Facts.
Context `{NL : NetLib}.
Variable ctx : Context.
Variable request : BulkAnalysisRequest.
Import BulkAnalyzeIPs.

Local Abbreviation item := (analyze_item ctx).
Local Abbreviation exec := (BulkAnalyzeIPs.exec ctx request).
Local Abbreviation step := (BulkAnalyzeIPs.step ctx request).
Local Abbreviation reachable := (BulkAnalyzeIPs.reachable ctx request).

Lemma item_success w t ip :
  ParseIP t = Some ip →
  err (item w t) = None ∧
  ip_Security (info (item w t)) = Some (getSecurityInfo ip) ∧
  ip_Type (info (item w t)) = getIPType ip ∧
  ip_Version (info (item w t)) = getIPVersion ip.
Proof. intros Hp. unfold analyze_item, item_result, item_call, call_AnalyzeIP, AnalyzeIP; simpl. by rewrite Hp. Qed.

(** The targets whose call of [AnalyzeIP] goroutine [g] has made. *)
Definition called_targets (g : goroutine) : list string :=
  match at_pc g with
  | Acquiring | Analyzing => []
  | _ => [targetIP g]
  end.

(** The history of calls holds one call per goroutine past its analysis. *)
Definition calls_match (s : state) : Prop :=
  (calls s).*2 ≡ₚ concat (called_targets <$> goroutines s).

Lemma calls_match_move gs i g pc :
  gs !! i = Some g →
  concat (called_targets <$> move i pc gs) ++ called_targets g
  ≡ₚ concat (called_targets <$> gs)
     ++ called_targets {| targetIP := targetIP g; at_pc := pc |}.
Proof.
  intros Hg. rewrite (BulkProofs.move_lookup _ _ _ _ Hg), list_fmap_insert.
  apply concat_insert_perm. by rewrite list_lookup_fmap, Hg.
Qed.

Lemma calls_match_step s s' : calls_match s → step s s' → calls_match s'.
Proof.
  unfold calls_match. intros HC [a He].
  destruct a; rewrite ?(BulkProofs.exec_analyze ctx request) in He; simpl in He.
  - destruct (main s); try done.
    destruct (IPs request !! k); simplify_eq/=.
    rewrite fmap_app, concat_app. simpl. by rewrite (right_id_L [] (++)).
  - destruct (goroutines s !! i) as [g|] eqn:Hg; simplify_eq/=.
    destruct (at_pc g) eqn:Hat; try done.
    destruct (chan_send () (semaphore s)); simplify_eq/=.
    pose proof (calls_match_move _ i g Analyzing Hg) as Hm.
    unfold called_targets in Hm at 2 4. rewrite Hat in Hm. simpl in Hm.
    rewrite !(right_id_L [] (++)) in Hm. by rewrite Hm.
  - destruct (goroutines s !! i) as [g|] eqn:Hg; simplify_eq/=.
    destruct (at_pc g) eqn:Hat; simplify_eq/=.
    pose proof (calls_match_move _ i g (Sending (item w (targetIP g))) Hg) as Hm.
    unfold called_targets in Hm at 2 4. rewrite Hat in Hm. simpl in Hm.
    rewrite (right_id_L [] (++)) in Hm.
    rewrite fmap_app, Hm, HC. done.
  - destruct (goroutines s !! i) as [g|] eqn:Hg; simplify_eq/=.
    destruct (at_pc g) as [| |res| |] eqn:Hat; try done.
    destruct (chan_send res (resultChan s)); simplify_eq/=.
    pose proof (calls_match_move _ i g Releasing Hg) as Hm.
    unfold called_targets in Hm at 2 4. rewrite Hat in Hm. simpl in Hm.
    apply (inj (.++ [targetIP g])) in Hm. by rewrite Hm.
  - destruct (goroutines s !! i) as [g|] eqn:Hg; simplify_eq/=.
    destruct (at_pc g) eqn:Hat; try done.
    destruct (chan_recv (semaphore s)) as [[? ?]|]; simplify_eq/=.
    pose proof (calls_match_move _ i g Exited Hg) as Hm.
    unfold called_targets in Hm at 2 4. rewrite Hat in Hm. simpl in Hm.
    apply (inj (.++ [targetIP g])) in Hm. by rewrite Hm.
  - destruct (main s); try done. case_decide; [|done].
    destruct (chan_recv (resultChan s)) as [[? ?]|]; by simplify_eq/=.
  - destruct (main s); try done. case_decide; [done|]. by simplify_eq/=.
Qed.

Lemma calls_match_reachable s : reachable s → calls_match s.
Proof.
  intros (t0 & t1 & Hr). revert s Hr. apply rtc_ind_r.
  - by unfold calls_match.
  - intros s s' _ Hstep HC. by apply (calls_match_step s).
Qed.

Lemma all_called gs :
  Forall (λ g, BulkProofs.sent g = 1) gs →
  concat (called_targets <$> gs) = targetIP <$> gs.
Proof.
  induction 1 as [|g gs Hg _ IH]; csimpl; [done|]. rewrite IH.
  unfold BulkProofs.sent in Hg. unfold called_targets.
  by destruct (at_pc g).
Qed.

Lemma returned_all_sent s :
  BulkProofs.Inv ctx request s → main s = Returned →
  Forall (λ g, BulkProofs.sent g = 1) (goroutines s) ∧
  targetIP <$> goroutines s = IPs request.
Proof.
  intros HI Hm.
  pose proof (BulkProofs.Inv_sent _ _ _ HI) as Hsent.
  pose proof (BulkProofs.Inv_goroutines _ _ _ HI) as [Hlen _].
  pose proof (BulkProofs.inv_main _ _ _ HI) as Hmain.
  pose proof (BulkProofs.inv_spawned _ _ _ HI) as Hsp.
  rewrite Hm in *. simpl in *.
  pose proof (sum_list_with_bound BulkProofs.sent (goroutines s)
                BulkProofs.sent_bound) as Hb.
  split.
  - apply sum_list_with_full; [apply BulkProofs.sent_bound|]. lia.
  - by rewrite Hsp, take_ge by lia.
Qed.

Lemma bulk_unsent_room gs g :
  g ∈ gs → BulkProofs.sent g = 0 →
  sum_list_with BulkProofs.sent gs < length gs.
Proof.
  induction 1 as [g gs|g g' gs _ IH]; intros Hg; simpl.
  - pose proof (sum_list_with_bound BulkProofs.sent gs BulkProofs.sent_bound). lia.
  - specialize (IH Hg). pose proof (BulkProofs.sent_bound g'). lia.
Qed.

End Facts.
End BulkMore.

(** X1. In what a bulk call returns, a result is marked ["error"] exactly
    when its address is a string [net.ParseIP] rejects; such a result is
    the bare failure marker, and every other result carries the type, the
    version and the security assessment of its parsed address. *)
Theorem bulk_results_marked_exactly `{NL : NetLib} ctx request s res :
  BulkAnalyzeIPs.reachable ctx request s →
  BulkAnalyzeIPs.returns s = Some (Ok res) →
  Forall (λ m,
    (ip_Type m = "error"%string ↔ ParseIP (ip_IP m) = None) ∧
    (ParseIP (ip_IP m) = None → BulkProofs.is_failure_marker (ip_IP m) m) ∧
    (∀ ip, ParseIP (ip_IP m) = Some ip →
       ip_Type m = getIPType ip ∧ ip_Version m = getIPVersion ip ∧
       ip_Security m = Some (getSecurityInfo ip)))
    (Results res).
Proof.
  intros Hr [Hm [= ->]]%BulkProofs.returns_Some.
  apply BulkProofs.Inv_reachable in Hr.
  destruct (BulkProofs.returned_results ctx request s Hr Hm)
    as (_ & ws & Hws & HP).
  rewrite HP. apply Forall_forall. intros m Hin.
  apply BulkProofs.outcomes_elem in Hin as (w & t & _ & ->); [|done].
  rewrite BulkProofs.item_IP.
  pose proof (BulkProofs.item_mark ctx w t) as Hmark.
  unfold BulkProofs.is_error_info in Hmark.
  destruct (ParseIP t) as [ip|] eqn:Hp.
  - destruct (BulkMore.item_success ctx w t ip Hp) as (_ & Hsec & Hty & Hver).
    rewrite bool_decide_false in Hmark by done.
    apply String.eqb_neq in Hmark.
    split; [split; [done|discriminate]|]. split; [discriminate|].
    by intros ip' [= <-].
  - rewrite bool_decide_true in Hmark by done. apply String.eqb_eq in Hmark.
    split; [done|]. split; [|discriminate].
    intros _. by apply BulkProofs.item_failure.
Qed.

Lemma bulk_results_marked_exactly_witness :
  ∃ s, Example.at_return = Some s ∧
       length (Results (BulkAnalyzeIPs.result s)) = 3 ∧
       Forall (λ m, ip_Type m = "error"%string
                    ↔ ParseIP (NetLib := Stub.ipv4_only) (ip_IP m) = None)
              (Results (BulkAnalyzeIPs.result s)).
Proof.
  assert (∃ s, Example.at_return = Some s) as [s Hs]
    by (eexists; vm_compute; reflexivity).
  assert (BulkAnalyzeIPs.returns s = Some (Ok (BulkAnalyzeIPs.result s))
          ∧ length (Results (BulkAnalyzeIPs.result s)) = 3) as [Hr Hn].
  { revert Hs. vm_compute. intros [= <-]. split; reflexivity. }
  pose proof (bulk_results_marked_exactly (NL := Stub.ipv4_only)
                Example.request_ctx Example.request s _
                (BulkProofs.run_reachable _ _ _ _ _ _ Hs) Hr) as HF.
  exists s. split; [exact Hs|]. split; [exact Hn|]. clear Hs Hr Hn.
  eapply Forall_impl; [exact HF|]. intros m [Hm _]. exact Hm.
Defined.

(** X2. By the time a bulk call returns it has called [AnalyzeIP] exactly
    once for each target of the list (a target listed twice is analysed
    twice), each time under the caller's context: there is no retry and no
    skipped target. Its history of calls says so, and so do its results:
    along the schedule each goroutine analysed once and nobody else did, and
    the results are, in some order, what [AnalyzeIP] under the caller's
    context gives for each target on the answers of these analyses, the
    marker of a failed item where it fails. *)
Theorem bulk_one_call_per_target `{NL : NetLib} ctx request acts t0 t1 s :
  BulkAnalyzeIPs.run ctx request acts (BulkAnalyzeIPs.init request t0 t1) = Some s →
  BulkAnalyzeIPs.main s = BulkAnalyzeIPs.Returned →
  BulkAnalyzeIPs.calls s ≡ₚ (λ t, (ctx, t)) <$> IPs request ∧
  ∃ ws ms,
    Forall2 (λ i w, BulkRuns.analyses_by i acts = [w])
            (seq 0 (length (IPs request))) ws ∧
    (∀ i, length (IPs request) ≤ i → BulkRuns.analyses_by i acts = []) ∧
    Results (BulkAnalyzeIPs.result s) ≡ₚ ms ∧
    Forall2 (λ tw m, BulkRuns.answer_of ctx tw.2 tw.1 m)
            (zip (IPs request) ws) ms.
Proof.
  intros Hrun Hm.
  split; [|by apply (BulkRuns.bulk_returned_tied ctx request acts t0 t1)].
  pose proof (BulkProofs.run_reachable _ _ _ _ _ _ Hrun) as Hr.
  pose proof (BulkMore.calls_match_reachable ctx request s Hr) as HC.
  apply BulkProofs.Inv_reachable in Hr.
  destruct (BulkMore.returned_all_sent ctx request s Hr Hm) as [Hall Hts].
  unfold BulkMore.calls_match in HC.
  rewrite (BulkMore.all_called _ Hall), Hts in HC.
  pose proof (BulkProofs.inv_calls _ _ _ Hr) as Hctx.
  assert (BulkAnalyzeIPs.calls s
          = (λ t, (ctx, t)) <$> (BulkAnalyzeIPs.calls s).*2) as ->.
  { clear HC. induction Hctx as [|[c t] cs Hc _ IH]; csimpl in *; [done|].
    by rewrite <-IH, Hc. }
  by rewrite HC.
Qed.

Lemma bulk_one_call_per_target_witness :
  ∃ s, Example.at_return = Some s ∧
       BulkAnalyzeIPs.calls s
       ≡ₚ (λ t, (Example.request_ctx, t)) <$> IPs Example.request.
Proof.
  assert (∃ s, Example.at_return = Some s) as [s Hs]
    by (eexists; vm_compute; reflexivity).
  exists s. split; [exact Hs|].
  assert (BulkAnalyzeIPs.main s = BulkAnalyzeIPs.Returned) as Hm.
  { revert Hs. vm_compute. intros [= <-]. reflexivity. }
  destruct (bulk_one_call_per_target (NL := Stub.ipv4_only) _ _ _ _ _ _ Hs Hm)
    as [Hcalls _].
  exact Hcalls.
Defined.

(** X3. A goroutine that has its outcome never waits to send it: the result
    channel has room for one outcome per target, so the send is possible in
    every state, whether or not the main flow is collecting. *)
Theorem bulk_send_never_blocks `{NL : NetLib} ctx request s i g res :
  BulkAnalyzeIPs.reachable ctx request s →
  BulkAnalyzeIPs.goroutines s !! i = Some g →
  BulkAnalyzeIPs.at_pc g = BulkAnalyzeIPs.Sending res →
  length (buf (BulkAnalyzeIPs.resultChan s)) < cap (BulkAnalyzeIPs.resultChan s) ∧
  is_Some (BulkAnalyzeIPs.exec ctx request (BulkAnalyzeIPs.ASend i) s).
Proof.
  intros Hr%BulkProofs.Inv_reachable Hg Hat.
  pose proof (BulkProofs.Inv_sent _ _ _ Hr) as Hsent.
  pose proof (BulkProofs.Inv_goroutines _ _ _ Hr) as [Hlen HN].
  pose proof (BulkMore.bulk_unsent_room (BulkAnalyzeIPs.goroutines s) g) as Hroom.
  unfold BulkProofs.sent in Hroom at 1. rewrite Hat in Hroom.
  specialize (Hroom (list_elem_of_lookup_2 _ _ _ Hg) eq_refl).
  assert (length (buf (BulkAnalyzeIPs.resultChan s))
          < cap (BulkAnalyzeIPs.resultChan s)) as Hlt.
  { rewrite (BulkProofs.inv_chan_cap _ _ _ Hr). lia. }
  split; [done|]. simpl. rewrite Hg. simpl. rewrite Hat.
  unfold chan_send. rewrite decide_True by done. by eexists.
Qed.

Lemma bulk_send_never_blocks_witness :
  ∃ s g res,
    BulkAnalyzeIPs.run Example.request_ctx Example.request
      (take 9 Example.schedule) (BulkAnalyzeIPs.init Example.request 1%Z 2%Z)
    = Some s ∧
    BulkAnalyzeIPs.goroutines s !! 1 = Some g ∧
    BulkAnalyzeIPs.at_pc g = BulkAnalyzeIPs.Sending res ∧
    is_Some (BulkAnalyzeIPs.exec (NL := Stub.ipv4_only) Example.request_ctx
               Example.request (BulkAnalyzeIPs.ASend 1) s).
Proof.
  assert (∃ s, BulkAnalyzeIPs.run Example.request_ctx Example.request
             (take 9 Example.schedule) (BulkAnalyzeIPs.init Example.request 1%Z 2%Z)
           = Some s) as [s Hs]
    by (eexists; vm_compute; reflexivity).
  assert (∃ g res, BulkAnalyzeIPs.goroutines s !! 1 = Some g ∧
                   BulkAnalyzeIPs.at_pc g = BulkAnalyzeIPs.Sending res)
    as (g & res & Hg & Hat).
  { revert Hs. vm_compute. intros [= <-]. eexists _, _. split; reflexivity. }
  exists s, g, res. split; [exact Hs|]. split; [exact Hg|]. split; [exact Hat|].
  eapply (bulk_send_never_blocks (NL := Stub.ipv4_only)).
  - eapply BulkProofs.run_reachable. exact Hs.
  - exact Hg.
  - exact Hat.
Defined.

(** ** DNS lookups, continued *)

Module AllMore.
Section Facts.
Context `{NL : NetLib}.
Variable domain : string.
Import lookupAll.

Local Abbreviation step := (lookupAll.step domain).
Local Abbreviation reachable := (lookupAll.reachable domain).

(** The lookups goroutine [g] has made. *)
Definition called_lookups (g : goroutine) : list (Context * string * string) :=
  match at_pc g with
  | Looking => []
  | _ => [(Background, domain, rType g)]
  end.

Definition lookups_match (s : state) : Prop :=
  calls s ≡ₚ concat (called_lookups <$> goroutines s).

Lemma lookups_match_move gs i g pc :
  gs !! i = Some g →
  concat (called_lookups <$> move i pc gs) ++ called_lookups g
  ≡ₚ concat (called_lookups <$> gs)
     ++ called_lookups {| rType := rType g; at_pc := pc |}.
Proof.
  intros Hg. rewrite (AllProofs.all_move_lookup _ _ _ _ Hg), list_fmap_insert.
  apply concat_insert_perm. by rewrite list_lookup_fmap, Hg.
Qed.

Lemma lookups_match_step s s' : lookups_match s → step s s' → lookups_match s'.
Proof.
  unfold lookups_match. intros HC [a He]. destruct a; simpl in He.
  - destruct (main s); try done.
    destruct (types !! k); simplify_eq/=.
    rewrite fmap_app, concat_app. simpl. by rewrite (right_id_L [] (++)).
  - destruct (goroutines s !! i) as [g|] eqn:Hg; simplify_eq/=.
    destruct (at_pc g) eqn:Hat; try done.
    destruct (LookupDNS_direct w Background domain (rType g)) as [r|];
      simplify_eq/=.
    pose proof (lookups_match_move _ i g (Sending (records_or_empty r)) Hg) as Hm.
    unfold called_lookups in Hm at 2 4. rewrite Hat in Hm. simpl in Hm.
    rewrite (right_id_L [] (++)) in Hm. by rewrite Hm, HC.
  - destruct (goroutines s !! i) as [g|] eqn:Hg; simplify_eq/=.
    destruct (at_pc g) as [|recs|] eqn:Hat; try done.
    destruct (chan_send recs (resultChan s)); simplify_eq/=.
    pose proof (lookups_match_move _ i g Exited Hg) as Hm.
    unfold called_lookups in Hm at 2 4. rewrite Hat in Hm. simpl in Hm.
    apply (inj (.++ [(Background, domain, rType g)])) in Hm. by rewrite Hm.
  - destruct (main s); try done. case_decide; [|done].
    destruct (chan_recv (resultChan s)) as [[? ?]|]; by simplify_eq/=.
  - destruct (main s); try done. case_decide; [done|]. by simplify_eq/=.
Qed.

Lemma lookups_match_reachable s : reachable s → lookups_match s.
Proof.
  revert s. apply rtc_ind_r.
  - by unfold lookups_match.
  - intros s s' _ Hstep HC. by apply (lookups_match_step s).
Qed.

Lemma all_looked_up gs :
  Forall (λ g, AllProofs.sent g = 1) gs →
  concat (called_lookups <$> gs) = (λ t, (Background, domain, t)) <$> (rType <$> gs).
Proof.
  induction 1 as [|g gs Hg _ IH]; csimpl; [done|]. rewrite IH.
  unfold AllProofs.sent in Hg. unfold called_lookups.
  by destruct (at_pc g).
Qed.

Lemma returned_all_exited s :
  AllProofs.Inv domain s → main s = Returned →
  Forall (λ g, AllProofs.sent g = 1) (goroutines s) ∧
  rType <$> goroutines s = types.
Proof.
  intros HI Hm.
  pose proof (AllProofs.inv_collected _ _ HI) as Hcol.
  pose proof (AllProofs.all_Inv_goroutines _ _ HI) as [Hlen _].
  pose proof (AllProofs.inv_spawned _ _ HI) as Hsp.
  rewrite Hm in *. simpl in Hcol, Hlen, Hsp.
  pose proof (sum_list_with_bound AllProofs.sent (goroutines s)
                AllProofs.all_sent_bound) as Hb.
  split; [|done].
  apply sum_list_with_full; [apply AllProofs.all_sent_bound|]. lia.
Qed.

End Facts.
End AllMore.

(** X4. By the time [lookupAll] returns it has called [LookupDNS] exactly
    once for each of A, AAAA, MX, NS, TXT and CNAME, each time for the domain
    it was given: no type is asked twice and PTR is never asked. Its history
    of calls says so, and so does what it returns: along the schedule each
    of the six goroutines looked up once and nobody else did, and the
    records returned are, in some order, the records of
    [LookupDNS(context.Background(), domain, t)] for each of the six types
    [t] on the answers of these lookups. *)
Theorem lookupAll_one_lookup_per_type `{NL : NetLib} domain acts s :
  lookupAll.run domain acts lookupAll.init = Some s →
  lookupAll.main s = lookupAll.Returned →
  lookupAll.calls s
  ≡ₚ (λ t, (Background, domain, t))
       <$> ["A"; "AAAA"; "MX"; "NS"; "TXT"; "CNAME"]%string ∧
  ∃ ws,
    Forall2 (λ i w, AllRuns.lookups_by i acts = [w]) (seq 0 6) ws ∧
    (∀ i, 6 ≤ i → AllRuns.lookups_by i acts = []) ∧
    lookupAll.allRecords s
    ≡ₚ concat (zip_with (λ t w, AllRuns.records_asked domain w t)
                 ["A"; "AAAA"; "MX"; "NS"; "TXT"; "CNAME"]%string ws).
Proof.
  intros Hrun Hm. split.
  - pose proof (AllProofs.all_run_reachable _ _ _ Hrun) as Hr.
    pose proof (AllMore.lookups_match_reachable domain s Hr) as HC.
    apply AllProofs.all_Inv_reachable in Hr.
    destruct (AllMore.returned_all_exited domain s Hr Hm) as [Hall Hts].
    unfold AllMore.lookups_match in HC.
    by rewrite (AllMore.all_looked_up _ _ Hall), Hts in HC.
  - destruct (AllRuns.returned_tied domain acts s Hrun Hm)
      as (ws & Hws & Hrest & HP & _).
    by exists ws.
Qed.

Lemma lookupAll_one_lookup_per_type_witness :
  ∃ s, Example.dns_final = Some s ∧
       lookupAll.calls s
       ≡ₚ (λ t, (Background, "example.com"%string, t))
            <$> ["A"; "AAAA"; "MX"; "NS"; "TXT"; "CNAME"]%string.
Proof.
  assert (∃ s, Example.dns_final = Some s) as [s Hs]
    by (eexists; vm_compute; reflexivity).
  exists s. split; [exact Hs|].
  assert (lookupAll.main s = lookupAll.Returned) as Hm.
  { revert Hs. vm_compute. intros [= <-]. reflexivity. }
  destruct (lookupAll_one_lookup_per_type (NL := Stub.ipv4_only) _ _ _ Hs Hm)
    as [Hcalls _].
  exact Hcalls.
Defined.

Section LookupDNSFacts.
Context `{NL : NetLib}.

(** The helper behind a record type that needs no goroutine. *)
Definition helper_of (T : string)
  : option (World → string → Result (list DNSRecord)) :=
  if String.eqb T "A" then Some lookupA
  else if String.eqb T "AAAA" then Some lookupAAAA
  else if String.eqb T "MX" then Some lookupMX
  else if String.eqb T "NS" then Some lookupNS
  else if String.eqb T "TXT" then Some lookupTXT
  else if String.eqb T "CNAME" then Some lookupCNAME
  else if String.eqb T "PTR" then Some lookupPTR
  else None.

Lemma switch_by_helper w ctx domain recordType :
  LookupDNS_switch w ctx domain recordType =
  if String.eqb domain "" then PlanFail "domain cannot be empty"
  else
    match helper_of (ToUpper recordType) with
    | Some look => PlanDirect (look w domain)
    | None =>
        if String.eqb (ToUpper recordType) "ALL" then PlanAll
        else PlanFail ("unsupported record type: " +:+ recordType)
    end.
Proof.
  unfold LookupDNS_switch, helper_of.
  destruct (String.eqb domain ""); [done|].
  by repeat match goal with
     | |- context [String.eqb ?u ?v] => destruct (String.eqb u v)
     end.
Qed.

Lemma upper_ascii_idemp c : upper_ascii (upper_ascii c) = upper_ascii c.
Proof.
  destruct c as [[] [] [] [] [] [] [] []]; reflexivity.
Qed.

Lemma upper_ascii_low c :
  (Ascii.N_of_ascii c <? 128)%N = true →
  (Ascii.N_of_ascii (upper_ascii c) <? 128)%N = true.
Proof.
  destruct c as [[] [] [] [] [] [] [] []]; intros H; try reflexivity; exact H.
Qed.

Lemma upper_bytes_idemp s : upper_bytes (upper_bytes s) = upper_bytes s.
Proof.
  induction s as [|c s IH]; simpl; [done|]. by rewrite upper_ascii_idemp, IH.
Qed.

Lemma ascii_only_upper s : ascii_only s = true → ascii_only (upper_bytes s) = true.
Proof.
  induction s as [|c s IH]; simpl; [done|].
  intros [Hc Hs]%andb_true_iff. by rewrite upper_ascii_low, IH.
Qed.

(** On ASCII text a second [strings.ToUpper] changes nothing. *)
Lemma ToUpper_twice_ascii s :
  ascii_only s = true → ToUpper (ToUpper s) = ToUpper s.
Proof.
  intros Hs. rewrite (ToUpper_ascii s Hs).
  rewrite ToUpper_ascii by (by apply ascii_only_upper).
  apply upper_bytes_idemp.
Qed.

Lemma lookupAll_can_return domain :
  ∃ s, lookupAll.reachable domain s ∧
       lookupAll.returns s = Some (Ok (lookupAll.allRecords s)).
Proof.
  destruct (AllProofs.all_completes domain (offline 0%Z) lookupAll.init
              (AllProofs.all_Inv_init domain)) as (s & Hsteps & Hm & _).
  exists s. split; [done|]. by apply AllProofs.all_returns_Some.
Qed.

End LookupDNSFacts.

Section LookupDNSMore.
Context `{NL : NetLib}.

Lemma LookupDNS_all_inv w ctx domain recordType r :
  String.eqb domain "" = false →
  ToUpper recordType = "ALL"%string →
  LookupDNS w ctx domain recordType r →
  ∃ s, lookupAll.reachable domain s ∧ lookupAll.main s = lookupAll.Returned ∧
       r = LookupDNS_finish w domain (Ok (lookupAll.allRecords s)).
Proof.
  intros Hd Hall HL.
  pose proof (switch_by_helper w ctx domain recordType) as Hsw.
  rewrite Hd, Hall in Hsw. simpl in Hsw.
  inversion HL as [r' Hdir|s r' Hsw' Hr Hret]; subst.
  - unfold LookupDNS_direct in Hdir. by rewrite Hsw in Hdir.
  - apply AllProofs.all_returns_Some in Hret as [Hm ->]. by exists s.
Qed.

Lemma flattened_union_Forall (P : DNSRecord → Prop) domain ws :
  (∀ look w, look ∈ AllProofs.helpers →
     Forall P (AllProofs.records_of (look w domain))) →
  Forall P (AllProofs.flattened_union domain ws).
Proof.
  intros HP. unfold AllProofs.flattened_union.
  destruct (String.eqb domain ""); [done|].
  assert (Forall (λ look, look ∈ AllProofs.helpers) AllProofs.helpers) as Hall
    by (by apply Forall_forall).
  revert ws Hall. generalize AllProofs.helpers at 2 3. intros hs.
  induction hs as [|look hs IH]; intros [|w ws] Hall; simpl; try done.
  apply Forall_cons in Hall as [Hlook Hall].
  apply Forall_app. split; [by apply HP|by apply IH].
Qed.

Lemma helper_tagged T look w domain :
  helper_of T = Some look →
  Forall (λ r, rr_Name r = domain ∧ rr_Type r = T)
         (AllProofs.records_of (look w domain)).
Proof.
  unfold helper_of.
  repeat (destruct (String.eqb T _) eqn:HT;
          [apply String.eqb_eq in HT as ->; intros [= <-]|clear HT]); [..|done].
  - unfold lookupA. destruct (LookupIP w domain) as [ips|]; simpl; [|done].
    induction ips as [|ip ips IH]; simpl; [done|].
    destruct (To4 ip); simpl; [by constructor|done].
  - unfold lookupAAAA. destruct (LookupIP w domain) as [ips|]; simpl; [|done].
    induction ips as [|ip ips IH]; simpl; [done|].
    destruct (To4 ip); simpl; [done|by constructor].
  - unfold lookupMX. destruct (LookupMX w domain); simpl; [|done].
    by apply AllProofs.Forall_map_all.
  - unfold lookupNS. destruct (LookupNS w domain); simpl; [|done].
    by apply AllProofs.Forall_map_all.
  - unfold lookupTXT. destruct (LookupTXT w domain); simpl; [|done].
    by apply AllProofs.Forall_map_all.
  - unfold lookupCNAME. destruct (LookupCNAME w domain); simpl; [|done].
    by repeat constructor.
  - unfold lookupPTR. destruct (LookupAddr w domain); simpl; [|done].
    by apply AllProofs.Forall_map_all.
Qed.

Lemma helpers_typed look :
  look ∈ AllProofs.helpers → ∃ T, T ∈ lookupAll.types ∧ helper_of T = Some look.
Proof.
  unfold AllProofs.helpers, lookupAll.types. intros Hin.
  repeat (apply elem_of_cons in Hin as [->|Hin]); [..|by apply elem_of_nil in Hin].
  - exists "A"%string. split; [set_solver|done].
  - exists "AAAA"%string. split; [set_solver|done].
  - exists "MX"%string. split; [set_solver|done].
  - exists "NS"%string. split; [set_solver|done].
  - exists "TXT"%string. split; [set_solver|done].
  - exists "CNAME"%string. split; [set_solver|done].
Qed.

Lemma finish_Ok w domain r res :
  LookupDNS_finish w domain r = Ok res →
  r = Ok (lr_Records res) ∧ lr_Domain res = domain.
Proof. destruct r; simpl; [|done]. by intros [= <-]. Qed.

(** Why a call of [LookupDNS] failed. *)
Lemma LookupDNS_Err_inv w ctx domain recordType e :
  LookupDNS w ctx domain recordType (Err e) →
  (domain = ""%string ∧ e = "domain cannot be empty"%string) ∨
  (domain ≠ ""%string ∧ helper_of (ToUpper recordType) = None ∧
   ToUpper recordType ≠ "ALL"%string ∧
   e = ("unsupported record type: " +:+ recordType)%string) ∨
  (domain ≠ ""%string ∧
   ∃ look e', helper_of (ToUpper recordType) = Some look ∧
              look w domain = Err e' ∧
              e = ("DNS lookup failed: " +:+ e')%string).
Proof.
  intros HL.
  pose proof (switch_by_helper w ctx domain recordType) as Hsw.
  destruct (String.eqb domain "") eqn:Hd.
  { apply String.eqb_eq in Hd as ->. left. split; [done|].
    inversion HL as [r' Hdir|s r' Hsw' Hr Hret]; subst.
    - unfold LookupDNS_direct in Hdir. rewrite Hsw in Hdir. by simplify_eq.
    - by rewrite Hsw in Hsw'. }
  pose proof Hd as Hne. apply String.eqb_neq in Hne.
  destruct (helper_of (ToUpper recordType)) as [look|] eqn:Hh.
  { right. right. split; [done|].
    inversion HL as [r' Hdir|s r' Hsw' Hr Hret]; subst.
    - unfold LookupDNS_direct in Hdir. rewrite Hsw in Hdir.
      injection Hdir as Hfin. destruct (look w domain) as [recs|e'] eqn:Hl;
        simpl in Hfin; simplify_eq. by exists look, e'.
    - by rewrite Hsw in Hsw'. }
  destruct (String.eqb (ToUpper recordType) "ALL") eqn:Hall.
  { apply String.eqb_eq in Hall.
    destruct (LookupDNS_all_inv w ctx domain recordType _ Hd Hall HL)
      as (s & _ & _ & Hfin). done. }
  pose proof Hall as Hnall. apply String.eqb_neq in Hnall.
  right. left.
  inversion HL as [r' Hdir|s r' Hsw' Hr Hret]; subst.
  - unfold LookupDNS_direct in Hdir. rewrite Hsw in Hdir. by simplify_eq.
  - by rewrite Hsw in Hsw'.
Qed.

End LookupDNSMore.

(** X5. For a domain that is not empty, [LookupDNS] with the type ALL (in
    any letter case) never fails, whatever the resolver answers: it returns;
    every answer it gives is a result for the domain asked whose records
    are what some run of [lookupAll] returned; and for every run of
    [lookupAll] that returns, [LookupDNS] answers with its records, which
    are, in some order, the records of the six helpers on the answers the
    lookups of that run got, a helper that failed contributing none. *)
Theorem LookupDNS_all_types_never_fails `{NL : NetLib} w ctx domain recordType :
  domain ≠ ""%string →
  ToUpper recordType = "ALL"%string →
  (∃ r, LookupDNS w ctx domain recordType r) ∧
  (∀ r, LookupDNS w ctx domain recordType r →
     ∃ res acts s,
       r = Ok res ∧ lr_Domain res = domain ∧
       lookupAll.run domain acts lookupAll.init = Some s ∧
       lookupAll.main s = lookupAll.Returned ∧
       lr_Records res = lookupAll.allRecords s) ∧
  (∀ acts s,
     lookupAll.run domain acts lookupAll.init = Some s →
     lookupAll.main s = lookupAll.Returned →
     ∃ res ws,
       LookupDNS w ctx domain recordType (Ok res) ∧
       lr_Records res = lookupAll.allRecords s ∧
       Forall2 (λ i w', AllRuns.lookups_by i acts = [w']) (seq 0 6) ws ∧
       lr_Records res ≡ₚ AllProofs.flattened_union domain ws).
Proof.
  intros Hd%String.eqb_neq Hall.
  assert (LookupDNS_switch w ctx domain recordType = PlanAll) as Hsw.
  { rewrite switch_by_helper, Hd, Hall. done. }
  split; [|split].
  - destruct (lookupAll_can_return domain) as (s & Hr & Hret).
    eexists. eapply LookupDNS_all; [exact Hsw|exact Hr|exact Hret].
  - intros r HL.
    destruct (LookupDNS_all_inv w ctx domain recordType r Hd Hall HL)
      as (s & Hr & Hm & ->).
    destruct (AllRuns.reachable_run domain s Hr) as [acts Hrun].
    eexists _, acts, s. split; [done|]. by repeat split.
  - intros acts s Hrun Hm.
    destruct (AllRuns.returned_tied domain acts s Hrun Hm)
      as (ws & Hws & _ & _ & HP).
    assert (lookupAll.returns s = Some (Ok (lookupAll.allRecords s))) as Hret
      by (by apply AllProofs.all_returns_Some).
    pose proof (LookupDNS_all w ctx domain recordType s _ Hsw
                  (AllProofs.all_run_reachable _ _ _ Hrun) Hret) as HL.
    simpl in HL. eexists _, ws. split; [exact HL|]. by repeat split.
Qed.

Lemma LookupDNS_all_types_never_fails_witness :
  ∃ r, LookupDNS (NL := Stub.ipv4_only) (offline 1%Z) Example.request_ctx
         "example.com" "all" r ∧ is_Ok r = true.
Proof.
  destruct (LookupDNS_all_types_never_fails (NL := Stub.ipv4_only) (offline 1%Z)
              Example.request_ctx "example.com" "all") as ([r Hr] & Hok & _).
  { discriminate. }
  { reflexivity. }
  exists r. split; [exact Hr|].
  destruct (Hok r Hr) as (res & acts & s & -> & _). reflexivity.
Defined.

(** X6. [LookupDNS] fails in three cases only, each with its message: the
    domain is empty; the type, in upper case, is none of A, AAAA, MX, NS,
    TXT, CNAME, PTR, ALL (the message quotes the type as it was given); or
    the helper of a single type failed, and its error is wrapped. *)
Theorem LookupDNS_failures `{NL : NetLib} w ctx domain recordType e :
  LookupDNS w ctx domain recordType (Err e) ↔
  (domain = ""%string ∧ e = "domain cannot be empty"%string) ∨
  (domain ≠ ""%string ∧ helper_of (ToUpper recordType) = None ∧
   ToUpper recordType ≠ "ALL"%string ∧
   e = ("unsupported record type: " +:+ recordType)%string) ∨
  (domain ≠ ""%string ∧
   ∃ look e', helper_of (ToUpper recordType) = Some look ∧
              look w domain = Err e' ∧
              e = ("DNS lookup failed: " +:+ e')%string).
Proof.
  split; [apply LookupDNS_Err_inv|].
  pose proof (switch_by_helper w ctx domain recordType) as Hsw.
  intros [[-> ->]|[(Hd & Hh & Hna & ->)|(Hd & look & e' & Hh & Hl & ->)]];
    apply LookupDNS_one; unfold LookupDNS_direct; rewrite Hsw.
  - done.
  - apply String.eqb_neq in Hd, Hna. by rewrite Hd, Hh, Hna.
  - apply String.eqb_neq in Hd. by rewrite Hd, Hh, Hl.
Qed.

(** X7. The record type is read without regard to letter case: two
    spellings of a supported type that agree in upper case give the same
    answers. *)
Theorem LookupDNS_type_case_insensitive `{NL : NetLib} w ctx domain t1 t2 r :
  ToUpper t1 = ToUpper t2 →
  is_Some (helper_of (ToUpper t1)) ∨ ToUpper t1 = "ALL"%string →
  LookupDNS w ctx domain t1 r → LookupDNS w ctx domain t2 r.
Proof.
  intros Heq Hsup HL.
  assert (LookupDNS_switch w ctx domain t1 = LookupDNS_switch w ctx domain t2) as Hsw.
  { rewrite !switch_by_helper, <-Heq.
    destruct (String.eqb domain ""); [done|].
    destruct Hsup as [[look ->]|Hall]; [done|].
    destruct (helper_of (ToUpper t1)); [done|]. by rewrite Hall. }
  inversion HL as [r' Hdir|s r' Hsw' Hr Hret]; subst.
  - apply LookupDNS_one. unfold LookupDNS_direct in *. by rewrite <-Hsw.
  - eapply LookupDNS_all; [by rewrite <-Hsw|done..].
Qed.

Lemma LookupDNS_type_case_insensitive_witness :
  ∃ res, LookupDNS (NL := Stub.ipv4_only) Example.zone Background
           "example.com" "MX" (Ok res) ∧
         LookupDNS (NL := Stub.ipv4_only) Example.zone Background
           "example.com" "mX" (Ok res) ∧
         length (lr_Records res) = 1.
Proof.
  assert (∃ res, LookupDNS_direct (NL := Stub.ipv4_only) Example.zone
                   Background "example.com" "MX" = Some (Ok res) ∧
                 length (lr_Records res) = 1) as (res & H1 & Hn).
  { eexists. split; vm_compute; reflexivity. }
  pose proof (LookupDNS_one Example.zone Background "example.com" "MX" _ H1) as HL.
  exists res. split; [exact HL|]. split; [|exact Hn].
  apply (LookupDNS_type_case_insensitive (NL := Stub.ipv4_only) _ _ _ "MX" "mX").
  - reflexivity.
  - left. eexists. reflexivity.
  - exact HL.
Defined.

(** X8. Every record of a successful [LookupDNS] is named after the domain
    asked and typed after the type asked, in upper case; under ALL its type
    is one of the six types [lookupAll] asks for. The result itself is for
    the domain asked. *)
Theorem LookupDNS_records_tagged `{NL : NetLib} w ctx domain recordType res :
  LookupDNS w ctx domain recordType (Ok res) →
  lr_Domain res = domain ∧
  Forall (λ r,
    rr_Name r = domain ∧
    if String.eqb (ToUpper recordType) "ALL"
    then rr_Type r ∈ lookupAll.types
    else rr_Type r = ToUpper recordType) (lr_Records res).
Proof.
  intros HL.
  pose proof (switch_by_helper w ctx domain recordType) as Hsw.
  inversion HL as [r' Hdir|s r' Hsw' Hr Hret Hfin]; subst.
  - unfold LookupDNS_direct in Hdir. rewrite Hsw in Hdir.
    destruct (String.eqb domain ""); [done|].
    destruct (helper_of (ToUpper recordType)) as [look|] eqn:Hh.
    + injection Hdir as Hfin. apply finish_Ok in Hfin as [Hl Hdom].
      split; [done|].
      pose proof (helper_tagged _ _ w domain Hh) as Htag.
      rewrite Hl in Htag. simpl in Htag.
      assert (String.eqb (ToUpper recordType) "ALL" = false) as ->.
      { apply String.eqb_neq. intros Hall. by rewrite Hall in Hh. }
      done.
    + by destruct (String.eqb (ToUpper recordType) "ALL").
  - rewrite Hsw in Hsw'.
    destruct (String.eqb domain "") eqn:Hd; [done|].
    destruct (helper_of (ToUpper recordType)); [done|].
    destruct (String.eqb (ToUpper recordType) "ALL"); [|done].
    apply AllProofs.all_returns_Some in Hret as [Hm ->].
    apply AllProofs.all_Inv_reachable in Hr.
    destruct (AllProofs.returned_records domain s Hr Hm) as (ws & _ & HP).
    apply finish_Ok in Hfin as [[= Hrecs] Hdom]. split; [done|].
    rewrite <-Hrecs, HP. apply flattened_union_Forall.
    intros look w' Hin. destruct (helpers_typed look Hin) as (T & HT & Hh).
    eapply Forall_impl; [by apply helper_tagged|].
    intros r [Hn Hty]. split; [done|]. by rewrite Hty.
Qed.

Lemma LookupDNS_records_tagged_witness :
  ∃ res, LookupDNS (NL := Stub.ipv4_only) Example.zone Background
           "example.com" "txt" (Ok res) ∧
         length (lr_Records res) = 1 ∧
         Forall (λ r, rr_Name r = "example.com"%string ∧ rr_Type r = "TXT"%string)
                (lr_Records res).
Proof.
  assert (∃ res, LookupDNS_direct (NL := Stub.ipv4_only) Example.zone
                   Background "example.com" "txt" = Some (Ok res) ∧
                 length (lr_Records res) = 1) as (res & H1 & Hn).
  { eexists. split; vm_compute; reflexivity. }
  pose proof (LookupDNS_one Example.zone Background "example.com" "txt" _ H1) as HL.
  exists res. split; [exact HL|]. split; [exact Hn|].
  destruct (LookupDNS_records_tagged (NL := Stub.ipv4_only) _ _ _ _ _ HL) as [_ HF].
  exact HF.
Defined.

(** X9. The A lookup and the AAAA lookup split one answer of the resolver
    between them: A keeps the addresses that have a 4-byte form, AAAA the
    others, both in the order of the answer, so every address is in exactly
    one of the two. *)
Theorem lookupA_AAAA_split `{NL : NetLib} w domain ips :
  LookupIP w domain = Ok ips →
  ∃ r4 r6,
    lookupA w domain = Ok r4 ∧
    lookupAAAA w domain = Ok r6 ∧
    rr_Value <$> r4 = IP_String <$> filter (λ ip, is_Some (To4 ip)) ips ∧
    rr_Value <$> r6 = IP_String <$> filter (λ ip, To4 ip = None) ips ∧
    length r4 + length r6 = length ips.
Proof.
  intros Hips. unfold lookupA, lookupAAAA. rewrite Hips.
  eexists _, _. split; [done|]. split; [done|].
  clear Hips. induction ips as [|ip ips (IH4 & IH6 & IHn)]; [done|].
  simpl. destruct (To4 ip) as [ip4|] eqn:H4.
  - rewrite (filter_cons_True (λ ip, is_Some (To4 ip))) by (by rewrite H4).
    rewrite (filter_cons_False (λ ip, To4 ip = None)) by (by rewrite H4).
    csimpl. rewrite IH4, IH6. repeat split. lia.
  - rewrite (filter_cons_False (λ ip, is_Some (To4 ip)))
      by (rewrite H4; by intros [? ?]).
    rewrite (filter_cons_True (λ ip, To4 ip = None)) by done.
    csimpl. rewrite IH4, IH6. repeat split. lia.
Qed.

Lemma lookupA_AAAA_split_witness :
  ∃ r4 r6,
    lookupA (NL := Stub.ipv4_only) Example.zone "example.com" = Ok r4 ∧
    lookupAAAA (NL := Stub.ipv4_only) Example.zone "example.com" = Ok r6 ∧
    length r4 + length r6 = 1.
Proof.
  destruct (lookupA_AAAA_split (NL := Stub.ipv4_only) Example.zone "example.com"
              [(Stub.v4InV6Prefix ++ [93; 184; 216; 34]%Z)%list])
    as (r4 & r6 & H4 & H6 & _ & _ & Hn).
  { reflexivity. }
  exists r4, r6. split; [exact H4|]. split; [exact H6|exact Hn].
Defined.

(** ** Single addresses *)

(** X10. The security assessment of an analysed address follows its
    type: an address typed private has risk score 10 and reputation good,
    any other has risk score 0 and reputation neutral; no address is ever
    flagged as proxy, VPN, Tor or threat, and the reputation is never bad.
    The address is echoed as it was given and its type is one of five. *)
Theorem AnalyzeIP_security_follows_type `{NL : NetLib} w ctx ipStr i :
  AnalyzeIP w ctx ipStr = Ok i →
  ip_IP i = ipStr ∧
  ip_Type i ∈ ["private"; "loopback"; "multicast"; "link-local"; "public"]%string ∧
  ip_Version i ∈ ["IPv4"; "IPv6"]%string ∧
  ∃ sec, ip_Security i = Some sec ∧
    sec_IsProxy sec = false ∧ sec_IsVPN sec = false ∧
    sec_IsTor sec = false ∧ sec_IsThreat sec = false ∧
    if String.eqb (ip_Type i) "private"
    then sec_RiskScore sec = 10%Z ∧ sec_Reputation sec = "good"%string
    else sec_RiskScore sec = 0%Z ∧ sec_Reputation sec = "neutral"%string.
Proof.
  unfold AnalyzeIP. destruct (ParseIP ipStr) as [ip|]; [|done].
  intros [= <-]. simpl. split; [done|].
  unfold getIPType, getIPVersion, getSecurityInfo.
  split; [repeat case_match; set_solver|].
  split; [case_match; set_solver|].
  eexists. split; [done|].
  destruct (IsPrivate ip); simpl; [done|].
  by repeat case_match.
Qed.

Lemma AnalyzeIP_security_follows_type_witness :
  ∃ i sec,
    AnalyzeIP (NL := Stub.ipv4_only) (offline 3%Z) Background "192.168.1.1" = Ok i ∧
    ip_Type i = "private"%string ∧
    ip_Security i = Some sec ∧
    sec_RiskScore sec = 10%Z ∧ sec_Reputation sec = "good"%string.
Proof.
  assert (∃ i, AnalyzeIP (NL := Stub.ipv4_only) (offline 3%Z) Background
                 "192.168.1.1" = Ok i ∧ ip_Type i = "private"%string)
    as (i & Hi & Hty).
  { eexists. split; vm_compute; reflexivity. }
  destruct (AnalyzeIP_security_follows_type (NL := Stub.ipv4_only) _ _ _ _ Hi)
    as (_ & _ & _ & sec & Hsec & _ & _ & _ & _ & Hrep).
  rewrite Hty in Hrep. simpl in Hrep. destruct Hrep as [Hrisk Hgood].
  exists i, sec. split; [exact Hi|]. split; [exact Hty|].
  split; [exact Hsec|]. split; [exact Hrisk|exact Hgood].
Defined.

(** ** The address of the client *)

Section ClientIP.
Context `{NE : NetExtra}.

Lemma header_ip_parses r h ip : header_ip r h = Some ip → is_Some (ParseIP ip).
Proof.
  unfold header_ip. cbv zeta.
  destruct (String.eqb (Header_Get r h) ""); [done|].
  match goal with |- context [ParseIP ?c] => destruct (ParseIP c) eqn:Hp end;
    [|done].
  intros [= <-]. by eexists.
Qed.

Lemma first_header_ip_Some r hs ip :
  first_header_ip r hs = Some ip →
  ∃ i h, hs !! i = Some h ∧ header_ip r h = Some ip ∧
         ∀ j h', j < i → hs !! j = Some h' → header_ip r h' = None.
Proof.
  induction hs as [|h hs IH]; simpl; [done|].
  destruct (header_ip r h) as [ip'|] eqn:Hh.
  - intros [= ->]. exists 0, h. split; [done|]. split; [done|]. lia.
  - intros Hf. destruct (IH Hf) as (i & h0 & Hi & Hip & Hbefore).
    exists (S i), h0. split; [done|]. split; [done|].
    intros [|j] h' Hj Hl; simplify_eq/=; [done|].
    apply (Hbefore j); [lia|done].
Qed.

Lemma first_header_ip_None r hs :
  first_header_ip r hs = None ↔ Forall (λ h, header_ip r h = None) hs.
Proof.
  induction hs as [|h hs IH]; simpl; [done|].
  destruct (header_ip r h) eqn:Hh; split; try done.
  - intros Hf%Forall_cons. destruct Hf as [Hf _]. by rewrite Hh in Hf.
  - intros Hf. constructor; [done|]. by apply IH.
  - intros [_ Hf]%Forall_cons. by apply IH.
Qed.

Lemma first_header_ip_at r hs i h ip :
  hs !! i = Some h →
  (∀ j h', j < i → hs !! j = Some h' → header_ip r h' = None) →
  header_ip r h = Some ip →
  first_header_ip r hs = Some ip.
Proof.
  revert i. induction hs as [|h0 hs IH]; intros [|i] Hi Hbefore Hip;
    simplify_eq/=.
  - by rewrite Hip.
  - rewrite (Hbefore 0 h0) by (lia || done).
    apply (IH i); [done| |done].
    intros j h' Hj Hl. apply (Hbefore (S j)); [lia|done].
Qed.

End ClientIP.

(** X11. What [GetClientIP] returns is an address [net.ParseIP] accepts,
    taken from one of the nine proxy headers, or else it is the fallback:
    the host of the remote address, or the remote address whole when it
    does not split. With none of the headers set it is the fallback. *)
Theorem GetClientIP_header_or_remote `{NE : NetExtra} r :
  (is_Some (ParseIP (GetClientIP r)) ∧
   ∃ h, h ∈ client_headers ∧ header_ip r h = Some (GetClientIP r)) ∨
  (GetClientIP r = remote_host r ∧
   Forall (λ h, header_ip r h = None) client_headers).
Proof.
  unfold GetClientIP.
  destruct (first_header_ip r client_headers) as [ip|] eqn:Hf.
  - left. destruct (first_header_ip_Some _ _ _ Hf) as (i & h & Hi & Hip & _).
    split; [by eapply header_ip_parses|].
    exists h. split; [by eapply list_elem_of_lookup_2|done].
  - right. split; [done|]. by apply first_header_ip_None.
Qed.

(** X12. The headers are tried in the order of the list and the first one
    that gives an address wins, whatever the later ones say: with a valid
    CF-Connecting-IP, for instance, X-Forwarded-For is not looked at. *)
Theorem GetClientIP_first_header_wins `{NE : NetExtra} r i h ip :
  client_headers !! i = Some h →
  (∀ j h', j < i → client_headers !! j = Some h' → header_ip r h' = None) →
  header_ip r h = Some ip →
  GetClientIP r = ip.
Proof.
  intros Hi Hbefore Hip. unfold GetClientIP.
  by rewrite (first_header_ip_at r client_headers i h ip).
Qed.

Module ExampleClient.
Import Stub StubExtra.
Local Open Scope string_scope.

(** X-Real-IP has a leading blank and no comma, so it is not trimmed and
    does not parse; X-Forwarded-For lists two addresses. *)
Definition behind_proxy : Request :=
  {| Header_Get := λ h,
       if String.eqb h "X-Forwarded-For" then " 8.8.8.8 , 10.0.0.1"
       else if String.eqb h "X-Real-IP" then " 1.1.1.1"
       else "";
     RemoteAddr := "192.0.2.7:5123" |}.

Definition direct : Request :=
  {| Header_Get := λ _, ""; RemoteAddr := "192.0.2.7:5123" |}.

Definition no_port : Request :=
  {| Header_Get := λ _, ""; RemoteAddr := "@" |}.

Example behind_proxy_ip : GetClientIP behind_proxy = "8.8.8.8".
Proof. vm_compute. reflexivity. Qed.

Example direct_ip : GetClientIP direct = "192.0.2.7".
Proof. vm_compute. reflexivity. Qed.

Example no_port_ip : GetClientIP no_port = "@".
Proof. vm_compute. reflexivity. Qed.

End ExampleClient.

Lemma GetClientIP_first_header_wins_witness :
  GetClientIP (NE := StubExtra.ipv4_extra) ExampleClient.behind_proxy
  = "8.8.8.8"%string.
Proof.
  apply (GetClientIP_first_header_wins (NE := StubExtra.ipv4_extra)
           ExampleClient.behind_proxy 3 "X-Forwarded-For").
  - reflexivity.
  - intros [|[|[|j]]] h' Hj Hl; [| | |lia]; injection Hl as <-;
      vm_compute; reflexivity.
  - vm_compute. reflexivity.
Defined.

(** ** The other endpoints *)

Section HandlerFacts.
Context `{NE : NetExtra}.

Lemma answers_encode_or_500 w status message :
  answers w encode_or_500 status message →
  status = StatusOK ∨
  (status = StatusInternalServerError ∧ message = "Failed to encode response"%string).
Proof.
  intros Ha. inversion Ha as [| | | |k e st msg Hk]; subst.
  destruct e; inversion Hk; subst; auto.
Qed.

Lemma answers_encode_ok w body : answers w encode_or_500 StatusOK body.
Proof. apply (answers_encode w _ (Ok body)). constructor. Qed.

End HandlerFacts.

(** X13. The endpoint that analyses one address answers 400 exactly when
    the address is missing or is not one [net.ParseIP] accepts; as it checks
    this before it calls the service, the service cannot fail and the
    answer "Failed to analyze IP" is never given: what is left is 200, or
    500 when the answer does not encode. *)
Theorem AnalyzeIP_handler_answers `{NE : NetExtra} w rctx ip status message :
  answers w (AnalyzeIP_handler rctx ip) status message →
  (status = StatusBadRequest ↔ ip = ""%string ∨ ParseIP ip = None) ∧
  ¬ (status = StatusInternalServerError ∧ message = "Failed to analyze IP"%string) ∧
  (status = StatusBadRequest ∨ status = StatusOK ∨
   (status = StatusInternalServerError ∧
    message = "Failed to encode response"%string)).
Proof.
  unfold AnalyzeIP_handler. intros Ha.
  destruct (String.eqb ip "") eqn:Hip.
  { apply String.eqb_eq in Hip. inversion Ha; subst.
    split; [by split; [left|]|]. split; [by intros [? _]|by left]. }
  apply String.eqb_neq in Hip.
  destruct (ParseIP ip) as [parsed|] eqn:Hp.
  - inversion Ha as [|c ip' k st msg Hk| | |]; subst.
    unfold AnalyzeIP in Hk. rewrite Hp in Hk.
    apply answers_encode_or_500 in Hk as [->|[-> ->]].
    + split; [split; [done|by intros [?|?]]|]. split; [by intros [? _]|auto].
    + split; [split; [done|by intros [?|?]]|]. split; [by intros [_ ?]|auto].
  - inversion Ha; subst.
    split; [by split; [right|]|]. split; [by intros [? _]|by left].
Qed.

Lemma AnalyzeIP_handler_answers_witness :
  answers (NE := StubExtra.ipv4_extra) (offline (NL := Stub.ipv4_only) 1%Z)
    (AnalyzeIP_handler (H := Stub.ipv4_only) Example.request_ctx "8.8.8.8") StatusOK "{}" ∧
  StatusOK ≠ StatusBadRequest.
Proof.
  assert (answers (NE := StubExtra.ipv4_extra) (offline (NL := Stub.ipv4_only) 1%Z)
            (AnalyzeIP_handler (H := Stub.ipv4_only) Example.request_ctx "8.8.8.8") StatusOK "{}") as Ha.
  { apply answers_analyze. apply answers_encode_ok. }
  split; [exact Ha|].
  destruct (AnalyzeIP_handler_answers (NE := StubExtra.ipv4_extra) _ _ _ _ _ Ha)
    as [H400 _].
  intros Heq. apply H400 in Heq as [Hempty|Hnone]; discriminate.
Defined.

(** X14. The endpoint for the client's own address fails to analyse only
    when no proxy header gave an address and the host of the remote address
    is not an IP address: then it answers 500 "Failed to analyze IP", and
    otherwise 200, or 500 when the answer does not encode. It never answers
    400. *)
Theorem GetCurrentIP_answers `{NE : NetExtra} w rctx r status message :
  answers w (GetCurrentIP rctx r) status message →
  (ParseIP (GetClientIP r) = None →
     status = StatusInternalServerError ∧
     message = "Failed to analyze IP"%string ∧
     GetClientIP r = remote_host r ∧
     Forall (λ h, header_ip r h = None) client_headers) ∧
  (is_Some (ParseIP (GetClientIP r)) →
     status = StatusOK ∨
     (status = StatusInternalServerError ∧
      message = "Failed to encode response"%string)).
Proof.
  unfold GetCurrentIP. intros Ha.
  inversion Ha as [|c ip' k st msg Hk| | |]; subst.
  unfold AnalyzeIP in Hk.
  destruct (ParseIP (GetClientIP r)) as [parsed|] eqn:Hp.
  - split; [done|]. intros _. by apply answers_encode_or_500 in Hk.
  - split; [|by intros [? ?]]. intros _. inversion Hk; subst.
    split; [done|]. split; [done|].
    unfold GetClientIP in *.
    destruct (first_header_ip r client_headers) as [ip|] eqn:Hf.
    + destruct (first_header_ip_Some _ _ _ Hf) as (i & h & _ & Hip & _).
      apply header_ip_parses in Hip as [? Hip]. by rewrite Hp in Hip.
    + split; [done|]. by apply first_header_ip_None.
Qed.

Lemma GetCurrentIP_answers_witness :
  answers (NE := StubExtra.ipv4_extra) (offline (NL := Stub.ipv4_only) 1%Z)
    (GetCurrentIP (NE := StubExtra.ipv4_extra) Example.request_ctx ExampleClient.no_port)
    StatusInternalServerError "Failed to analyze IP" ∧
  GetClientIP (NE := StubExtra.ipv4_extra) ExampleClient.no_port
  = remote_host (NE := StubExtra.ipv4_extra) ExampleClient.no_port.
Proof.
  assert (answers (NE := StubExtra.ipv4_extra) (offline (NL := Stub.ipv4_only) 1%Z)
            (GetCurrentIP (NE := StubExtra.ipv4_extra) Example.request_ctx ExampleClient.no_port)
            StatusInternalServerError "Failed to analyze IP") as Ha.
  { assert (ParseIP (NetLib := Stub.ipv4_only)
              (GetClientIP (NE := StubExtra.ipv4_extra) ExampleClient.no_port)
            = None) as Hp by (vm_compute; reflexivity).
    apply answers_analyze. unfold AnalyzeIP. rewrite Hp. apply answers_reply. }
  split; [exact Ha|].
  destruct (GetCurrentIP_answers (NE := StubExtra.ipv4_extra) _ _ _ _ _ Ha)
    as [Hnone _].
  destruct Hnone as (_ & _ & Hrem & _); [vm_compute; reflexivity|exact Hrem].
Defined.

Section DNSHandlerFacts.
Context `{NE : NetExtra}.

(** The domain and the type a DNS request asks for: the fields of the body
    under POST, the query parameters under any other method. *)
Definition dns_asked (post : bool) (decoded : Result (string * string))
    (query : string → string) (domain recordType : string) : Prop :=
  if post then decoded = Ok (domain, recordType)
  else query "domain"%string = domain ∧ query "type"%string = recordType.

Definition type_or_A (recordType : string) : string :=
  if String.eqb recordType "" then "A"%string else recordType.

Lemma LookupDNS_handler_asked rctx post decoded query domain recordType :
  dns_asked post decoded query domain recordType →
  LookupDNS_handler rctx post decoded query =
  if String.eqb domain "" then Reply StatusBadRequest "Domain required"
  else
    DoLookupDNS rctx domain (ToUpper (type_or_A recordType)) (λ res,
      match res with
      | Err e => Reply StatusInternalServerError ("DNS lookup failed: " +:+ e)
      | Ok _ => encode_or_500
      end).
Proof.
  unfold dns_asked, LookupDNS_handler. destruct post.
  - by intros ->.
  - by intros [-> ->].
Qed.

End DNSHandlerFacts.

(** X15. The DNS endpoint answers 400 in two cases only: a POST whose body
    does not decode, and a request that asks for no domain. A request that
    names a domain is never answered 400, whatever its type; a request with
    no type is handled as one for type A. *)
Theorem LookupDNS_handler_bad_requests `{NE : NetExtra} w rctx post decoded query
    status message :
  answers w (LookupDNS_handler rctx post decoded query) status message →
  (status = StatusBadRequest ↔
     (post = true ∧ ∃ e, decoded = Err e) ∨
     ∃ recordType, dns_asked post decoded query "" recordType) ∧
  (∀ domain, dns_asked post decoded query domain "" →
     LookupDNS_handler rctx post decoded query
     = LookupDNS_handler rctx true (Ok (domain, "A"%string)) query).
Proof.
  intros Ha. split.
  - destruct post; [destruct decoded as [[domain recordType]|e]|].
    + rewrite (LookupDNS_handler_asked rctx true _ query domain recordType) in Ha
        by done.
      destruct (String.eqb domain "") eqn:Hd.
      * apply String.eqb_eq in Hd as ->. inversion Ha; subst.
        split; [|done]. intros _. right. by exists recordType.
      * apply String.eqb_neq in Hd.
        inversion Ha as [| |c d t k r st msg HL Hk| |]; subst.
        assert (status ≠ StatusBadRequest) as Hne.
        { destruct r; [by apply answers_encode_or_500 in Hk as [->|[-> _]]|].
          by inversion Hk. }
        split; [done|]. intros [[_ [e [=]]]|[t [= ? ?]]]; done.
    + simpl in Ha. inversion Ha; subst. split; [|done].
      intros _. left. split; [done|]. by exists e.
    + rewrite (LookupDNS_handler_asked rctx false decoded query
                 (query "domain"%string) (query "type"%string)) in Ha by done.
      destruct (String.eqb (query "domain"%string) "") eqn:Hd.
      * apply String.eqb_eq in Hd. inversion Ha; subst.
        split; [|done]. intros _. right. by exists (query "type"%string).
      * apply String.eqb_neq in Hd.
        inversion Ha as [| |c d t k r st msg HL Hk| |]; subst.
        assert (status ≠ StatusBadRequest) as Hne.
        { destruct r; [by apply answers_encode_or_500 in Hk as [->|[-> _]]|].
          by inversion Hk. }
        split; [done|]. intros [[[=] _]|[t [Hq _]]]; done.
  - intros domain Hasked.
    rewrite (LookupDNS_handler_asked rctx post decoded query domain "" Hasked).
    by rewrite (LookupDNS_handler_asked rctx true (Ok (domain, "A"%string))
                  query domain "A").
Qed.

Lemma LookupDNS_handler_bad_requests_witness :
  answers (NE := StubExtra.ipv4_extra) Example.zone
    (LookupDNS_handler (H := Stub.ipv4_only) Example.request_ctx false (Err "no body")
       (λ p, if String.eqb p "domain" then "example.com" else ""))
    StatusOK "{}" ∧
  StatusOK ≠ StatusBadRequest.
Proof.
  assert (answers (NE := StubExtra.ipv4_extra) Example.zone
            (LookupDNS_handler (H := Stub.ipv4_only) Example.request_ctx false (Err "no body")
               (λ p, if String.eqb p "domain" then "example.com" else ""))
            StatusOK "{}") as Ha.
  { eapply answers_lookup.
    - apply LookupDNS_one. vm_compute. reflexivity.
    - apply answers_encode_ok. }
  split; [exact Ha|].
  destruct (LookupDNS_handler_bad_requests (NE := StubExtra.ipv4_extra)
              _ _ _ _ _ _ _ Ha) as [H400 _].
  intros Heq. apply H400 in Heq as [[Hpost _]|[t [Hd _]]]; discriminate.
Defined.

(** X16. What the DNS endpoint answers to a request that names a domain.
    The handler upper-cases the type and hands the outcome [T] to the
    service, which upper-cases it once more to pick the helper. The answer
    is 200; or 500 because the answer does not encode; or 500 because the
    type is not supported, and the message then quotes [T], the type as the
    handler upper-cased it; or 500 because the helper of the type failed,
    and the message then carries the prefix "DNS lookup failed: " twice.
    Under type ALL only the first two are possible. For a type that is all
    ASCII the second upper-casing changes nothing. *)
Theorem LookupDNS_handler_answers `{NE : NetExtra} w rctx post decoded query
    domain recordType status message :
  dns_asked post decoded query domain recordType →
  domain ≠ ""%string →
  answers w (LookupDNS_handler rctx post decoded query) status message →
  let T := ToUpper (type_or_A recordType) in
  (status = StatusOK ∨
   (status = StatusInternalServerError ∧
    (message = "Failed to encode response"%string ∨
     (helper_of (ToUpper T) = None ∧ ToUpper T ≠ "ALL"%string ∧
      message = ("DNS lookup failed: unsupported record type: " +:+ T)%string) ∨
     (∃ look e', helper_of (ToUpper T) = Some look ∧ look w domain = Err e' ∧
        message = ("DNS lookup failed: DNS lookup failed: " +:+ e')%string)))) ∧
  (ToUpper T = "ALL"%string →
     status = StatusOK ∨
     (status = StatusInternalServerError ∧
      message = "Failed to encode response"%string)) ∧
  (ascii_only (type_or_A recordType) = true → ToUpper T = T).
Proof.
  intros Hasked Hd Ha T.
  rewrite (LookupDNS_handler_asked rctx post decoded query domain recordType Hasked)
    in Ha.
  pose proof Hd as Hd'. apply String.eqb_neq in Hd'. rewrite Hd' in Ha.
  inversion Ha as [| |c d t k r st msg HL Hk| |]; subst.
  fold T in HL.
  split; [|split; [|by apply ToUpper_twice_ascii]].
  - destruct r as [res|e].
    + apply answers_encode_or_500 in Hk as [->|[-> ->]]; auto.
    + inversion Hk; subst. right. split; [done|]. right.
      apply LookupDNS_Err_inv in HL
        as [[? _]|[(_ & Hh & Hna & ->)|(_ & look & e' & Hh & Hl & ->)]];
        [done|by left|right]. by exists look, e'.
  - intros Hall. destruct r as [res|e].
    + by apply answers_encode_or_500 in Hk.
    + apply LookupDNS_Err_inv in HL
        as [[? _]|[(_ & _ & Hna & _)|(_ & look & e' & Hh & _)]]; [done..|].
      by rewrite Hall in Hh.
Qed.

Lemma LookupDNS_handler_answers_witness :
  answers (NE := StubExtra.ipv4_extra) Example.zone
    (LookupDNS_handler (H := Stub.ipv4_only) Example.request_ctx true (Ok ("example.com", "ns"))
       (λ _, ""))
    StatusInternalServerError
    "DNS lookup failed: DNS lookup failed: no such host".
Proof.
  assert (answers (NE := StubExtra.ipv4_extra) Example.zone
            (LookupDNS_handler (H := Stub.ipv4_only) Example.request_ctx true (Ok ("example.com", "ns"))
               (λ _, ""))
            StatusInternalServerError
            "DNS lookup failed: DNS lookup failed: no such host") as Ha.
  { eapply answers_lookup.
    - apply LookupDNS_one. vm_compute. reflexivity.
    - constructor. }
  destruct (LookupDNS_handler_answers (NE := StubExtra.ipv4_extra)
              Example.zone Example.request_ctx true
              (Ok ("example.com"%string, "ns"%string)) (λ _, ""%string)
              "example.com" "ns" _ _ eq_refl ltac:(discriminate) Ha)
    as [_ _].
  exact Ha.
Defined.

(** ** The simulated traceroute *)

Section Traceroute.
Context `{NE : NetExtra}.

Lemma in_ranges_true cidrs ip :
  in_ranges cidrs ip = true ↔
  ∃ cidr network, cidr ∈ cidrs ∧ ParseCIDR cidr = Some network ∧
                  Contains network (ParseIP ip) = true.
Proof.
  induction cidrs as [|cidr rest IH]; simpl.
  { split; [done|]. by intros (? & ? & ?%elem_of_nil & _). }
  destruct (ParseCIDR cidr) as [network|] eqn:Hc.
  - destruct (Contains network (ParseIP ip)) eqn:Hin.
    + split; [|done]. intros _. exists cidr, network. by rewrite elem_of_cons; auto.
    + rewrite IH. split.
      * intros (c & n & Hel & Hp & Hn). exists c, n. by rewrite elem_of_cons; auto.
      * intros (c & n & [->|Hel]%elem_of_cons & Hp & Hn); [|by exists c, n].
        rewrite Hc in Hp. injection Hp as <-. by rewrite Hin in Hn.
  - rewrite IH. split.
    + intros (c & n & Hel & Hp & Hn). exists c, n. by rewrite elem_of_cons; auto.
    + intros (c & n & [->|Hel]%elem_of_cons & Hp & Hn); [|by exists c, n].
      by rewrite Hc in Hp.
Qed.

Lemma traceroute_hop_location w ctx i hop g :
  hop_Location (traceroute_hop w ctx i hop) = Some g →
  isPrivateIP hop.1 = false ∧ is_Some (ParseIP hop.1) ∧
  getGeolocation w ctx hop.1 = Ok g.
Proof.
  unfold traceroute_hop. simpl.
  destruct (isPrivateIP hop.1); [done|]. unfold AnalyzeIP.
  destruct (ParseIP hop.1) as [parsed|]; [|done]. simpl.
  destruct (getGeolocation w ctx hop.1); [|done]. simpl. by intros [= ->].
Qed.

End Traceroute.

(** X17. [isPrivateIP] is true exactly when one of its eight blocks parses
    and contains the parsed address. A block that does not parse is skipped,
    and the address itself is handed to [Contains] as [net.ParseIP] returns
    it, unparseable or not. *)
Theorem isPrivateIP_in_some_block `{NE : NetExtra} ip :
  isPrivateIP ip = true ↔
  ∃ cidr network, cidr ∈ privateRanges ∧ ParseCIDR cidr = Some network ∧
                  Contains network (ParseIP ip) = true.
Proof. apply in_ranges_true. Qed.

(** X18. The traceroute never fails and does not look at what the target
    is: it answers five hops numbered 1 to 5, the first four with fixed
    addresses and the last with the target as given. A hop carries a
    location only if its address is not in a private block, parses, and the
    geolocation of that turn succeeded with this location. *)
Theorem PerformTraceroute_hops `{NE : NetExtra} w0 ws ctx target :
  ∃ res, PerformTraceroute w0 ws ctx target = Ok res ∧
    tr_Target res = target ∧ tr_TotalHops res = 5%Z ∧
    hop_IP <$> tr_Hops res
      = ["192.168.1.1"; "10.0.0.1"; "203.0.113.1"; "198.51.100.1"; target]%string ∧
    hop_HopNumber <$> tr_Hops res = [1; 2; 3; 4; 5]%Z ∧
    ∀ i hop g, tr_Hops res !! i = Some hop → hop_Location hop = Some g →
      isPrivateIP (hop_IP hop) = false ∧ is_Some (ParseIP (hop_IP hop)) ∧
      getGeolocation (ws i) ctx (hop_IP hop) = Ok g.
Proof.
  eexists. split; [reflexivity|]. cbn [tr_Target tr_TotalHops tr_Hops].
  split; [done|]. split; [done|]. split; [done|]. split; [done|].
  intros i hop g Hi Hloc.
  rewrite list_lookup_imap in Hi.
  destruct (simulatedHops target !! i) as [h|] eqn:Hh; [|done].
  injection Hi as <-. by apply traceroute_hop_location in Hloc.
Qed.

(** X19. The traceroute endpoint answers 400 exactly when the target is
    empty. It does not check that the target is an address, and as the
    service never fails it never answers "Traceroute failed": what is left
    is 200, or 500 when the answer does not encode. *)
Theorem PerformTraceroute_handler_answers `{NE : NetExtra} w rctx target
    status message :
  answers w (PerformTraceroute_handler rctx target) status message →
  (status = StatusBadRequest ↔ target = ""%string) ∧
  ¬ (status = StatusInternalServerError ∧ message = "Traceroute failed"%string) ∧
  (status = StatusBadRequest ∨ status = StatusOK ∨
   (status = StatusInternalServerError ∧
    message = "Failed to encode response"%string)).
Proof.
  unfold PerformTraceroute_handler. intros Ha.
  destruct (String.eqb target "") eqn:Ht.
  { apply String.eqb_eq in Ht. inversion Ha; subst.
    split; [done|]. split; [by intros [? _]|by left]. }
  apply String.eqb_neq in Ht.
  inversion Ha as [| | |c t k ws st msg Hk|]; subst.
  unfold PerformTraceroute in Hk.
  apply answers_encode_or_500 in Hk as [->|[-> ->]].
  - split; [done|]. split; [by intros [? _]|auto].
  - split; [done|]. split; [by intros [_ ?]|auto].
Qed.

Lemma PerformTraceroute_handler_answers_witness :
  answers (NE := StubExtra.ipv4_extra) Example.zone
    (PerformTraceroute_handler Example.request_ctx "not-an-ip") StatusOK "{}" ∧
  "not-an-ip"%string ≠ ""%string.
Proof.
  assert (answers (NE := StubExtra.ipv4_extra) Example.zone
            (PerformTraceroute_handler Example.request_ctx "not-an-ip")
            StatusOK "{}") as Ha.
  { apply (answers_traceroute _ _ _ _ (λ _, Example.zone)).
    apply answers_encode_ok. }
  split; [exact Ha|].
  destruct (PerformTraceroute_handler_answers (NE := StubExtra.ipv4_extra)
              _ _ _ _ _ Ha) as [H400 _].
  intros Heq. apply H400 in Heq. discriminate.
Defined.

(** ** What a bulk request's options do *)

Section BulkOptionsFacts.
Context `{NL : NetLib}.
Variable ctx : Context.

Lemma exec_same_IPs r1 r2 a s :
  IPs r1 = IPs r2 →
  BulkAnalyzeIPs.exec ctx r1 a s = BulkAnalyzeIPs.exec ctx r2 a s.
Proof.
  intros Heq. unfold BulkAnalyzeIPs.exec, BulkAnalyzeIPs.spawn_from.
  by rewrite Heq.
Qed.

Lemma init_same_IPs r1 r2 t0 t1 :
  IPs r1 = IPs r2 → BulkAnalyzeIPs.init r1 t0 t1 = BulkAnalyzeIPs.init r2 t0 t1.
Proof.
  intros Heq. unfold BulkAnalyzeIPs.init, BulkAnalyzeIPs.spawn_from.
  by rewrite Heq.
Qed.

Lemma reachable_same_IPs r1 r2 s :
  IPs r1 = IPs r2 →
  BulkAnalyzeIPs.reachable ctx r1 s → BulkAnalyzeIPs.reachable ctx r2 s.
Proof.
  intros Heq (t0 & t1 & Hr). exists t0, t1.
  rewrite <-(init_same_IPs r1 r2) by done.
  eapply rtc_subrel; [|exact Hr].
  intros x y [a Ha]. exists a. by rewrite <-(exec_same_IPs r1 r2).
Qed.

End BulkOptionsFacts.

(** X20. The options of a bulk request are never read: two requests with
    the same addresses take the same steps and reach the same states,
    whatever their options say. *)
Theorem bulk_options_ignored `{NL : NetLib} ctx r1 r2 :
  IPs r1 = IPs r2 →
  (∀ a s, BulkAnalyzeIPs.exec ctx r1 a s = BulkAnalyzeIPs.exec ctx r2 a s) ∧
  (∀ s, BulkAnalyzeIPs.reachable ctx r1 s ↔ BulkAnalyzeIPs.reachable ctx r2 s).
Proof.
  intros Heq. split.
  - intros a s. by apply exec_same_IPs.
  - intros s. split; by apply reachable_same_IPs.
Qed.

Lemma bulk_options_ignored_witness :
  ∃ s, Example.final = Some s ∧
       BulkAnalyzeIPs.reachable (NL := Stub.ipv4_only) Example.request_ctx
         {| IPs := IPs Example.request;
            Options := {| IncludeGeolocation := false; IncludeSecurity := false;
                          IncludeDNS := false; IncludePerformance := true |} |} s.
Proof.
  assert (∃ s, Example.final = Some s) as [s Hs]
    by (eexists; vm_compute; reflexivity).
  exists s. split; [exact Hs|].
  pose proof (BulkProofs.run_reachable (NL := Stub.ipv4_only) _ _ _ _ _ _ Hs)
    as Hr.
  destruct (bulk_options_ignored (NL := Stub.ipv4_only) Example.request_ctx
              Example.request
              {| IPs := IPs Example.request;
                 Options := {| IncludeGeolocation := false; IncludeSecurity := false;
                               IncludeDNS := false; IncludePerformance := true |} |}
              eq_refl) as [_ Hsame].
  destruct (Hsame s) as [Hto _]. exact (Hto Hr).
Defined.

(** X21. What an analysis carries beside the address itself is optional:
    a failed geolocation, ISP lookup or reverse lookup leaves its part
    unset and never fails the analysis. The DNS part is set exactly when
    the reverse lookup succeeded; it then lists every name, and its
    hostname is the first name, or empty when there is none. *)
Theorem AnalyzeIP_optional_parts `{NL : NetLib} w ctx ipStr i :
  AnalyzeIP w ctx ipStr = Ok i →
  (is_Some (ip_Geolocation i) ↔ ∃ g, getGeolocation w ctx ipStr = Ok g) ∧
  (is_Some (ip_ISP i) ↔ ∃ isp, getISPInfo w ctx ipStr = Ok isp) ∧
  match LookupAddr w ipStr with
  | Err _ => ip_DNS i = None
  | Ok names =>
      ∃ d, ip_DNS i = Some d ∧ dns_PTR d = names ∧
           dns_Hostname d = default ""%string (head names)
  end.
Proof.
  unfold AnalyzeIP. destruct (ParseIP ipStr) as [ip|]; [|done].
  intros [= <-]. cbn [ip_Geolocation ip_ISP ip_DNS].
  split; [|split].
  - destruct (getGeolocation w ctx ipStr) as [g|e]; simpl.
    + split; [by exists g|by eexists].
    + split; [by intros [? ?]|by intros [? ?]].
  - destruct (getISPInfo w ctx ipStr) as [isp|e]; simpl.
    + split; [by exists isp|by eexists].
    + split; [by intros [? ?]|by intros [? ?]].
  - unfold getDNSInfo. destruct (LookupAddr w ipStr) as [names|e]; simpl; [|done].
    eexists. split; [done|]. split; [done|]. by destruct names.
Qed.

Lemma AnalyzeIP_optional_parts_witness :
  ∃ i, AnalyzeIP (NL := Stub.ipv4_only) Example.zone Background "8.8.8.8" = Ok i ∧
       ip_DNS i = None.
Proof.
  assert (∃ i, AnalyzeIP (NL := Stub.ipv4_only) Example.zone Background
                 "8.8.8.8" = Ok i) as [i Hi]
    by (eexists; vm_compute; reflexivity).
  exists i. split; [exact Hi|].
  pose proof (AnalyzeIP_optional_parts (NL := Stub.ipv4_only) _ _ _ _ Hi)
    as (_ & _ & Hdns).
  cbn [LookupAddr Example.zone Stub.example_zone] in Hdns. exact Hdns.
Defined.
